(** * ISLa solver: a shallow embedding of [isla/solver.py]

    The development follows the layout of the Python module: the data
    model ([DerivationTree], [Formula], [SolutionState]), the external
    collaborators the solver calls (SMT backend, parser, regex
    converter, fuzzer, grammar graph), and then the methods of
    [ISLaSolver] in state-passing style.  Python exceptions are made
    explicit through the [Result] type. *)

From Stdlib Require Import ZArith QArith Lia Ascii String FunInd.
From stdpp Require Import base option list strings gmap pretty.

Set Warnings "-register-all".

Open Scope string_scope.
Open Scope list_scope.

(** ** Exceptions *)

Inductive Exception :=
| AssertionError
| ZeroDivisionError
| KeyError
| IndexError
| AttributeError
| RuntimeError.

Inductive Result (A : Type) :=
| Ok (a : A)
| Raise (e : Exception).
Arguments Ok {A} a.
Arguments Raise {A} e.

Definition rbind {A B} (m : Result A) (k : A -> Result B) : Result B :=
  match m with
  | Ok a => k a
  | Raise e => Raise e
  end.

Definition py_assert (b : bool) : Result unit :=
  if b then Ok tt else Raise AssertionError.

(** ** Derivation trees

    [children = None] is the distinguished open marker. *)

Inductive DerivationTree :=
| DTree (value : string) (children : option (list DerivationTree)) (id : Z).

Definition value (t : DerivationTree) : string :=
  match t with DTree v _ _ => v end.
Definition children (t : DerivationTree) : option (list DerivationTree) :=
  match t with DTree _ c _ => c end.
Definition id (t : DerivationTree) : Z :=
  match t with DTree _ _ i => i end.

Fixpoint tree_eqb (a b : DerivationTree) {struct a} : bool :=
  match a, b with
  | DTree v c i, DTree v' c' i' =>
      String.eqb v v' && Z.eqb i i' &&
      match c, c' with
      | None, None => true
      | Some l, Some l' =>
          (fix go (l : list DerivationTree) (l' : list DerivationTree) : bool :=
             match l, l' with
             | [], [] => true
             | x :: xs, y :: ys => tree_eqb x y && go xs ys
             | _, _ => false
             end) l l'
      | _, _ => false
      end
  end.

(** Modelled from the spec: [DerivationTree.find_node] lives in
    [isla/isla.py]; it returns the path (a tuple of child indices) of the
    node that carries the given identifier, if there is one. *)
Fixpoint find_node_id (tree : DerivationTree) (node_id : Z) {struct tree}
  : option (list nat) :=
  match tree with
  | DTree _ c i =>
      if Z.eqb i node_id then Some []
      else match c with
           | None => None
           | Some l =>
               (fix go (l : list DerivationTree) (idx : nat) : option (list nat) :=
                  match l with
                  | [] => None
                  | x :: xs =>
                      match find_node_id x node_id with
                      | Some p => Some (idx :: p)
                      | None => go xs (S idx)
                      end
                  end) l 0%nat
           end
  end.

Definition find_node (tree node : DerivationTree) : option (list nat) :=
  find_node_id tree (id node).

(** ** Variables ([Variable] in the source; the name is reserved here) *)

Inductive IslaVariable :=
| Constant (name n_type : string)
| BoundVariable (name n_type : string).

Definition name (v : IslaVariable) : string :=
  match v with Constant n _ | BoundVariable n _ => n end.
Definition n_type (v : IslaVariable) : string :=
  match v with Constant _ t | BoundVariable _ t => t end.

#[global] Instance IslaVariable_eq_dec : EqDecision IslaVariable.
Proof. solve_decision. Defined.

Definition NUMERIC_NTYPE : string := "NUM".

(** Modelled from the spec: [Variable.is_numeric] lives in [isla/isla.py];
    a variable is either typed by a nonterminal or by the numeric sort. *)
Definition is_numeric (v : IslaVariable) : bool :=
  String.eqb (n_type v) NUMERIC_NTYPE.

Definition isinstance_Constant (v : IslaVariable) : bool :=
  match v with Constant _ _ => true | BoundVariable _ _ => false end.

(** ** Grammar symbols

    [fuzzingbook.Grammars.is_nonterminal] matches the regular expression
    [(<[^<> ]*>)] at the start of the string. *)

Fixpoint closes_nonterminal (s : string) : bool :=
  match s with
  | EmptyString => false
  | String c s' =>
      if Ascii.eqb c ">"%char then true
      else if Ascii.eqb c "<"%char || Ascii.eqb c " "%char then false
      else closes_nonterminal s'
  end.

Definition is_nonterminal (s : string) : bool :=
  match s with
  | String c s' => Ascii.eqb c "<"%char && closes_nonterminal s'
  | EmptyString => false
  end.

(** ** Python dictionaries with insertion order

    A dictionary is kept as an association list; [dict_set] overwrites
    the value of a key that is already present and appends otherwise,
    which is what a dict comprehension and the [|] operator do. *)

Section PyDict.
Context {K V : Type} (keqb : K -> K -> bool) (veqb : V -> V -> bool).

Fixpoint dict_get (d : list (K * V)) (k : K) : option V :=
  match d with
  | [] => None
  | (k', v) :: d' => if keqb k' k then Some v else dict_get d' k
  end.

Fixpoint dict_set (d : list (K * V)) (k : K) (v : V) : list (K * V) :=
  match d with
  | [] => [(k, v)]
  | (k', v') :: d' =>
      if keqb k' k then (k', v) :: d' else (k', v') :: dict_set d' k v
  end.

Definition dict_of_items (items : list (K * V)) : list (K * V) :=
  fold_left (fun d kv => dict_set d (fst kv) (snd kv)) items [].

(** [d1 | d2] *)
Definition dict_union (d1 d2 : list (K * V)) : list (K * V) :=
  fold_left (fun d kv => dict_set d (fst kv) (snd kv)) d2 d1.

(** [d1 == d2] on dictionaries: same size, same value under every key. *)
Definition dict_eqb (d1 d2 : list (K * V)) : bool :=
  Nat.eqb (length d1) (length d2) &&
  forallb (fun kv =>
             match dict_get d2 (fst kv) with
             | Some v => veqb (snd kv) v
             | None => false
             end) d1.
End PyDict.

(** ** The SMT backend (z3), as far as the solver builds terms for it *)

Module z3.
Inductive ReRef :=
| Re (s : string)
| Range (lo hi : string)
| Star (r : ReRef)
| Union (a b : ReRef)
| Concat (rs : list ReRef)
| Converted (nonterminal : string) (n : nat).

Inductive ExprRef :=
| BoolVal (b : bool)
| StringVal (s : string)
| String (name : string)
| Eq (a b : ExprRef)
| Not (a : ExprRef)
| Or (args : list ExprRef)
| And (args : list ExprRef)
| InRe (s : ExprRef) (re : ReRef)
| App (f : string) (args : list ExprRef).

Inductive CheckSatResult := sat | unsat | unknown.

#[global] Instance CheckSatResult_eq_dec : EqDecision CheckSatResult.
Proof. solve_decision. Defined.

(** A model, read through [model[z3.String(name)].as_string()]. *)
Definition ModelRef : Type := string -> string.

Definition is_true (e : ExprRef) : bool :=
  match e with BoolVal true => true | _ => false end.
Definition is_false (e : ExprRef) : bool :=
  match e with BoolVal false => true | _ => false end.
End z3.

(** Modelled from the spec: [isla.helpers.z3_or] is not part of the
    sources at hand; it builds the disjunction of the given formulas. *)
Definition z3_or (formulas : list z3.ExprRef) : z3.ExprRef := z3.Or formulas.

(** Modelled from the spec: [Variable.to_smt] lives in [isla/isla.py];
    SMT variables are string-typed and carry the variable's name. *)
Definition to_smt (v : IslaVariable) : z3.ExprRef := z3.String (name v).

(** The collaborators [solve_quantifier_free_formula] calls. *)
Class SMTBridge := {
  (** [isla.helpers.z3_solve] *)
  z3_solve : list z3.ExprRef -> z3.CheckSatResult * option z3.ModelRef;
  (** [ISLaSolver.extract_regular_expression], a memoised call into
      the grammar-to-regex converter *)
  extract_regular_expression : string -> z3.ReRef;
  (** [ISLaSolver.parse], which runs the Earley parser; the first
      argument tells the calls apart (parsed trees get fresh
      identifiers) *)
  parse : nat -> string -> string -> Result DerivationTree;
  (** the identifier of a tree built with [DerivationTree(val, [])] *)
  numeric_tree_id : nat -> string -> Z;
  (** [split_str_with_nonterminals(str(tree))] *)
  tree_tokens : DerivationTree -> list string;
}.

(** ** SMT atoms *)

Record SMTFormula := {
  formula : z3.ExprRef;
  free_variables_ : list IslaVariable;
  instantiated_variables : list IslaVariable;
  substitutions : list (IslaVariable * DerivationTree);
}.

Definition free_variables (f : SMTFormula) : list IslaVariable :=
  free_variables_ f.

(** Keys of a solution: [Union[isla.Constant, DerivationTree]]. *)
Inductive SolutionKey :=
| KeyConstant (c : IslaVariable)
| KeyTree (t : DerivationTree).

Definition key_eqb (a b : SolutionKey) : bool :=
  match a, b with
  | KeyConstant c, KeyConstant c' => bool_decide (c = c')
  | KeyTree t, KeyTree t' => tree_eqb t t'
  | _, _ => false
  end.

Definition var_eqb (a b : IslaVariable) : bool := bool_decide (a = b).

Definition Solution : Type := list (SolutionKey * DerivationTree).
Definition InternalSolution : Type := list (IslaVariable * z3.ExprRef).

Definition solution_eqb : Solution -> Solution -> bool :=
  dict_eqb key_eqb tree_eqb.

(** [x in xs] for a list [xs]: some element compares equal to [x]. *)
Definition py_in {A} (eqb : A -> A -> bool) (x : A) (xs : list A) : bool :=
  existsb (fun y => eqb y x) xs.

(** ** [ISLaSolver.solve_quantifier_free_formula] *)

Section SolveQuantifierFree.
Context `{SMTBridge}.
Variable max_number_smt_instantiations : nat.

Definition values {K V} (d : list (K * V)) : list V := map snd d.

Definition get_conflicts (smt_formulas : list SMTFormula) : list SMTFormula :=
  map snd
    (List.filter
       (fun '(fidx, f) =>
          existsb
            (fun t =>
               existsb
                 (fun '(ofidx, other) =>
                    negb (Nat.eqb fidx ofidx) &&
                    existsb
                      (fun ot => negb (tree_eqb ot t) &&
                                 bool_decide (is_Some (find_node ot t)))
                      (values (substitutions other)))
                 (imap (fun i g => (i, g)) smt_formulas))
            (values (substitutions f)))
       (imap (fun i g => (i, g)) smt_formulas)).

Definition tree_substitutions_of (smt_formulas : list SMTFormula)
  : list (IslaVariable * DerivationTree) :=
  fold_left (dict_union var_eqb) (map substitutions smt_formulas) [].

Definition constants_of (smt_formulas : list SMTFormula) : list IslaVariable :=
  remove_dups
    (concat (map (fun f => free_variables f ++ instantiated_variables f)
               smt_formulas)).

Definition numeric_regex : z3.ReRef :=
  z3.Union (z3.Re "0")
    (z3.Concat [z3.Range "1" "9"; z3.Star (z3.Range "0" "9")]).

Definition constant_regex
    (tree_substitutions : list (IslaVariable * DerivationTree))
    (constant : IslaVariable) : Result z3.ReRef :=
  if is_numeric constant then Ok numeric_regex
  else match dict_get var_eqb tree_substitutions constant with
       | Some tree =>
           let regexes :=
             map (fun t => if is_nonterminal t
                           then extract_regular_expression t
                           else z3.Re t)
               (tree_tokens tree) in
           match regexes with
           | [] => Raise AssertionError
           | [r] => Ok r
           | _ => Ok (z3.Concat regexes)
           end
       | None => Ok (extract_regular_expression (n_type constant))
       end.

Fixpoint collect {A} (rs : list (Result A)) : Result (list A) :=
  match rs with
  | [] => Ok []
  | r :: rs' =>
      rbind r (fun a => rbind (collect rs') (fun l => Ok (a :: l)))
  end.

(** The negation of one previous joint assignment. *)
Definition blocking_clause (prev_solution : InternalSolution) : z3.ExprRef :=
  z3_or (map (fun '(constant, string_val) =>
                z3.Not (z3.Eq (to_smt constant) string_val))
           prev_solution).

(** The list [formulas] handed to [z3_solve] in one round. *)
Definition smt_query
    (smt_formulas : list SMTFormula)
    (tree_substitutions : list (IslaVariable * DerivationTree))
    (constants : list IslaVariable)
    (internal_solutions : list InternalSolution)
  : Result (list z3.ExprRef) :=
  rbind
    (collect
       (map (fun constant =>
               rbind (constant_regex tree_substitutions constant)
                 (fun regex => Ok (z3.InRe (z3.String (name constant)) regex)))
          constants))
    (fun regex_formulas =>
       Ok (regex_formulas
             ++ map blocking_clause internal_solutions
             ++ map formula smt_formulas)).

Definition new_solution_of (round : nat)
    (tree_substitutions : list (IslaVariable * DerivationTree))
    (constants : list IslaVariable) (model : z3.ModelRef) : Result Solution :=
  rbind
    (collect
       (map (fun constant =>
               let val := model (name constant) in
               let key := match dict_get var_eqb tree_substitutions constant with
                          | Some tree => KeyTree tree
                          | None => KeyConstant constant
                          end in
               rbind (if is_numeric constant
                      then Ok (DTree val (Some [])
                                 (numeric_tree_id round (name constant)))
                      else parse round (n_type constant) val)
                 (fun tree => Ok (key, tree)))
          constants))
    (fun items => Ok (dict_of_items key_eqb items)).

Definition new_internal_solution_of
    (constants : list IslaVariable) (model : z3.ModelRef) : InternalSolution :=
  dict_of_items var_eqb
    (map (fun constant => (constant, z3.StringVal (model (name constant))))
       constants).

(** The [for _ in range(max_number_smt_instantiations)] loop.  Next to
    the returned value the function hands back the queries it sent to
    the SMT backend, oldest first. *)
Fixpoint smt_loop
    (rounds : nat)
    (smt_formulas : list SMTFormula)
    (tree_substitutions : list (IslaVariable * DerivationTree))
    (constants : list IslaVariable)
    (solutions : list Solution)
    (internal_solutions : list InternalSolution)
  : list (list z3.ExprRef) * Result (list Solution) :=
  match rounds with
  | O => ([], Ok solutions)
  | S rounds' =>
      match smt_query smt_formulas tree_substitutions constants
              internal_solutions with
      | Raise e => ([], Raise e)
      | Ok formulas =>
          let '(solver_result, maybe_model) := z3_solve formulas in
          if negb (bool_decide (solver_result = z3.sat)) then
            (formulas :: [],
             match solutions with
             | [] => Ok []
             | _ => Ok solutions
             end)
          else
            match maybe_model with
            | None => (formulas :: [], Raise AssertionError)
            | Some model =>
                match new_solution_of (length solutions) tree_substitutions
                        constants model with
                | Raise e => (formulas :: [], Raise e)
                | Ok new_solution =>
                    let new_internal_solution :=
                      new_internal_solution_of constants model in
                    if py_in solution_eqb new_solution solutions then
                      (formulas :: [], Ok solutions)
                    else
                      let '(log, r) :=
                        smt_loop rounds' smt_formulas tree_substitutions
                          constants
                          (solutions ++ [new_solution])
                          (internal_solutions ++ [new_internal_solution]) in
                      (formulas :: log, r)
                end
            end
      end
  end.

Definition solve_quantifier_free_formula_traced
    (smt_formulas : list SMTFormula)
  : list (list z3.ExprRef) * Result (list Solution) :=
  let conflicts := get_conflicts smt_formulas in
  let checked :=
    match conflicts with
    | [] => Ok smt_formulas
    | _ => rbind (py_assert (match get_conflicts conflicts with
                             | [] => true
                             | _ => false
                             end))
             (fun _ => Ok conflicts)
    end in
  match checked with
  | Raise e => ([], Raise e)
  | Ok smt_formulas =>
      smt_loop max_number_smt_instantiations smt_formulas
        (tree_substitutions_of smt_formulas)
        (constants_of smt_formulas) [] []
  end.

Definition solve_quantifier_free_formula (smt_formulas : list SMTFormula)
  : Result (list Solution) :=
  snd (solve_quantifier_free_formula_traced smt_formulas).
End SolveQuantifierFree.

(** ** Scenario S1: an atomic SMT formula over one variable

    Grammar [<start> ::= <var>], [<var> ::= "a" | ... | "z"], constraint
    [<var> = "x"].  The backend below answers the first query with the
    assignment ["x"] and reports unsat as soon as a previous assignment
    is excluded. *)

Module ScenarioS1.
Definition var_tree : DerivationTree := DTree "<var>" None 1.
Definition v : IslaVariable := BoundVariable "<var>_1" "<var>".

Definition atom : SMTFormula :=
  {| formula := z3.Eq (z3.String "<var>_1") (z3.StringVal "x");
     free_variables_ := [];
     instantiated_variables := [v];
     substitutions := [(v, var_tree)] |}.

Definition excludes_something (q : list z3.ExprRef) : bool :=
  existsb (fun e => match e with z3.Or _ => true | _ => false end) q.

#[local] Instance bridge : SMTBridge :=
  {| z3_solve q :=
       if excludes_something q then (z3.unsat, None)
       else (z3.sat, Some (fun _ => "x"));
     extract_regular_expression nt := z3.Converted nt 0;
     parse round nt s :=
       Ok (DTree nt (Some [DTree s (Some []) (3 + 2 * Z.of_nat round)%Z])
             (2 + 2 * Z.of_nat round)%Z);
     numeric_tree_id round _ := (2 + 2 * Z.of_nat round)%Z;
     tree_tokens t := [value t] |}.

Definition x_solution : Solution :=
  [(KeyTree var_tree, DTree "<var>" (Some [DTree "x" (Some []) 3]) 2)].
End ScenarioS1.

(** ** Scenario S2: an SMT formula with two solutions

    The grammar of scenario S1 and the constraint
    [<var> = "x" or <var> = "y"].  The backend below decides the
    formulas the solver builds over the two words in question: it
    answers with the first of the assignments ["x"] and ["y"] that
    satisfies every formula of the query, and reports unsat if neither
    does. *)

Module ScenarioS2.
Definition atom : SMTFormula :=
  {| formula := z3.Or [z3.Eq (z3.String "<var>_1") (z3.StringVal "x");
                       z3.Eq (z3.String "<var>_1") (z3.StringVal "y")];
     free_variables_ := [];
     instantiated_variables := [ScenarioS1.v];
     substitutions := [(ScenarioS1.v, ScenarioS1.var_tree)] |}.

(** The string a term denotes under a model. *)
Definition term_value (model : z3.ModelRef) (e : z3.ExprRef) : option string :=
  match e with
  | z3.StringVal s => Some s
  | z3.String n => Some (model n)
  | _ => None
  end.

(** Whether a model satisfies a formula; both words are words of
    [<var>], so that every membership constraint is met. *)
Fixpoint satisfies (model : z3.ModelRef) (e : z3.ExprRef) {struct e} : bool :=
  match e with
  | z3.BoolVal b => b
  | z3.Eq a b =>
      match term_value model a, term_value model b with
      | Some s, Some s' => String.eqb s s'
      | _, _ => false
      end
  | z3.Not a => negb (satisfies model a)
  | z3.Or args =>
      (fix go (l : list z3.ExprRef) : bool :=
         match l with
         | [] => false
         | x :: xs => satisfies model x || go xs
         end) args
  | z3.And args =>
      (fix go (l : list z3.ExprRef) : bool :=
         match l with
         | [] => true
         | x :: xs => satisfies model x && go xs
         end) args
  | z3.InRe _ _ => true
  | _ => false
  end.

Definition candidates : list z3.ModelRef := [fun _ => "x"; fun _ => "y"].

#[local] Instance bridge : SMTBridge :=
  {| z3_solve q :=
       match List.find (fun model => forallb (satisfies model) q) candidates with
       | Some model => (z3.sat, Some model)
       | None => (z3.unsat, None)
       end;
     extract_regular_expression nt := z3.Converted nt 0;
     parse round nt s :=
       Ok (DTree nt (Some [DTree s (Some []) (3 + 2 * Z.of_nat round)%Z])
             (2 + 2 * Z.of_nat round)%Z);
     numeric_tree_id round _ := (2 + 2 * Z.of_nat round)%Z;
     tree_tokens t := [value t] |}.
End ScenarioS2.

(** ** Grammars and the grammar graph *)

(** A canonical grammar maps each nonterminal to its alternatives, each
    a list of symbols; the entries keep the order of the Python dict. *)
Definition CanonicalGrammar : Type := list (string * list (list string)).

Definition grammar_get (g : CanonicalGrammar) (nonterminal : string)
  : option (list (list string)) :=
  dict_get String.eqb g nonterminal.

(** The part of [grammar_graph.gg] the solver looks at.  A node is
    addressed by its symbol; [ChoiceNode] is a subclass of
    [NonterminalNode], terminal nodes are leaves. *)
Module gg.
Inductive NodeClass := NonterminalNode | ChoiceNode | TerminalNode.

Record Node := {
  symbol : string;
  class : NodeClass;
  children : list string;
}.

Record GrammarGraph := {
  root : string;
  all_nodes : list Node;
}.

Definition get_node (g : GrammarGraph) (sym : string) : option Node :=
  find (fun n => String.eqb (symbol n) sym) (all_nodes g).

Definition isinstance_NonterminalNode (n : Node) : bool :=
  match class n with TerminalNode => false | _ => true end.

Definition isinstance_ChoiceNode (n : Node) : bool :=
  match class n with ChoiceNode => true | _ => false end.
End gg.

(** Modelled from the spec: [DerivationTree.paths] lives in
    [isla/isla.py]; it enumerates all nodes of the tree.  Only the nodes
    are kept here, in preorder. *)
Fixpoint tree_nodes (t : DerivationTree) {struct t} : list DerivationTree :=
  t :: match t with
       | DTree _ None _ => []
       | DTree _ (Some l) _ =>
           (fix go (l : list DerivationTree) : list DerivationTree :=
              match l with
              | [] => []
              | x :: xs => tree_nodes x ++ go xs
              end) l
       end.

(** ** [ISLaSolver.compute_symbol_costs] *)

(** The tree the grammar fuzzer builds for a nonterminal by
    [expand_tree_with_strategy] (maximal cost for one step, then minimal
    cost until closed), read through [DerivationTree.from_parse_tree]. *)
Class CostProbe := {
  probe_tree : string -> DerivationTree;
}.

Section ComputeSymbolCosts.
Context `{CostProbe}.
Variable canonical_grammar : CanonicalGrammar.
Variable graph : gg.GrammarGraph.

Definition nonterminal_expansions (nonterminal : string) : Result Z :=
  match grammar_get canonical_grammar nonterminal with
  | Some expansions =>
      Ok (Z.of_nat (length (List.filter (fun expansion =>
                                      existsb is_nonterminal expansion)
                              expansions)))
  | None => Raise KeyError
  end.

(** The sum computed for one nonterminal in the first loop. *)
Definition initial_cost (nonterminal : string) : Result Z :=
  fold_left
    (fun acc tree =>
       rbind acc (fun total =>
       rbind (nonterminal_expansions (value tree)) (fun n =>
       Ok (total + n)%Z)))
    (List.filter (fun tree => is_nonterminal (value tree))
       (tree_nodes (probe_tree nonterminal)))
    (Ok 0%Z).

Definition initial_costs : Result (gmap string Z) :=
  fold_left
    (fun acc nonterminal =>
       rbind acc (fun result =>
       rbind (initial_cost nonterminal) (fun c =>
       Ok (<[nonterminal := c]> result))))
    (map fst canonical_grammar)
    (Ok ∅).

(** The body of [for child in p[-1].children]. *)
Definition visit_children (cycles_allowed : nat) (p : list string)
    (children : list string)
    (visited : gmap string nat) (queue : list (list string))
  : gmap string nat * list (list string) :=
  fold_left
    (fun '(visited, queue) child =>
       match gg.get_node graph child with
       | Some node =>
           if negb (gg.isinstance_NonterminalNode node)
              || (cycles_allowed + 1 <? default 0 (visited !! child))%nat
           then (visited, queue)
           else (<[child := S (default 0 (visited !! child))]> visited,
                 queue ++ [p ++ [child]])
       | None => (visited, queue)
       end)
    children (visited, queue).

(** The [while queue] loop of [all_paths]; [None] when the fuel runs
    out before the queue is empty. *)
Fixpoint all_paths_loop (fuel : nat) (to_node : string) (cycles_allowed : nat)
    (queue : list (list string)) (visited : gmap string nat)
    (result : list (list string)) : option (list (list string)) :=
  match queue with
  | [] => Some result
  | p :: queue' =>
      match fuel with
      | O => None
      | S fuel' =>
          match last p with
          | None => None
          | Some node =>
              if String.eqb node to_node then
                all_paths_loop fuel' to_node cycles_allowed queue' visited
                  (result ++ [p])
              else
                let '(visited', queue'') :=
                  visit_children cycles_allowed p
                    (match gg.get_node graph node with
                     | Some n => gg.children n
                     | None => []
                     end)
                    visited queue' in
                all_paths_loop fuel' to_node cycles_allowed queue'' visited'
                  result
          end
      end
  end.

(** Every node is appended at most [cycles_allowed + 2] times, so the
    queue sees at most that many paths per node, plus the first one. *)
Definition all_paths_fuel (cycles_allowed : nat) : nat :=
  S ((cycles_allowed + 2) * length (gg.all_nodes graph)).

Definition drop_choice_nodes (p : list string) : list string :=
  List.filter (fun sym =>
            match gg.get_node graph sym with
            | Some n => negb (gg.isinstance_ChoiceNode n)
            | None => true
            end) p.

Definition all_paths (from_node to_node : string) (cycles_allowed : nat)
  : option (list (list string)) :=
  match all_paths_loop (all_paths_fuel cycles_allowed) to_node cycles_allowed
          [[from_node]] ∅ [] with
  | Some result => Some (map drop_choice_nodes result)
  | None => None
  end.

Definition nonterminal_parents : list string :=
  map fst
    (List.filter (fun '(nonterminal, expansions) =>
               existsb (fun expansion => existsb is_nonterminal expansion)
                 expansions)
       canonical_grammar).

(** One round of the innermost loop: compare [path[idx - 1]] with
    [path[idx]] and raise the former when needed. *)
Definition correct_edge (result : gmap string Z) (source target : string)
  : Result (gmap string Z) :=
  match result !! source, result !! target with
  | Some cs, Some ct =>
      Ok (if (cs <=? ct)%Z then <[source := (ct + 1)%Z]> result else result)
  | _, _ => Raise KeyError
  end.

(** [(path[idx - 1], path[idx])] for [idx] in [range(1, len(path))]. *)
Fixpoint edges (path : list string) : list (string * string) :=
  match path with
  | source :: ((target :: _) as rest) => (source, target) :: edges rest
  | _ => []
  end.

(** [for idx in reversed(range(1, len(path)))] *)
Definition correct_path (result : gmap string Z) (path : list string)
  : Result (gmap string Z) :=
  fold_left
    (fun acc '(source, target) =>
       rbind acc (fun result => correct_edge result source target))
    (rev (edges path)) (Ok result).

Definition correct_paths (result : gmap string Z) (paths : list (list string))
  : Result (gmap string Z) :=
  fold_left (fun acc path => rbind acc (fun result => correct_path result path))
    paths (Ok result).

(** The outer loop over [nonterminal_parents]; [None] only if some
    call of [all_paths] ran out of fuel. *)
Fixpoint correct_parents (result : gmap string Z) (parents : list string)
  : option (Result (gmap string Z)) :=
  match parents with
  | [] => Some (Ok result)
  | nonterminal_parent :: parents' =>
      match all_paths (gg.root graph) nonterminal_parent 1 with
      | None => None
      | Some paths =>
          match correct_paths result paths with
          | Ok result' => correct_parents result' parents'
          | Raise e => Some (Raise e)
          end
      end
  end.

Definition compute_symbol_costs : option (Result (gmap string Z)) :=
  match initial_costs with
  | Ok result => correct_parents result nonterminal_parents
  | Raise e => Some (Raise e)
  end.
End ComputeSymbolCosts.

(** A path through the grammar: every symbol occurs in some alternative
    of its predecessor. *)
Definition grammar_edge (g : CanonicalGrammar) (source target : string) : bool :=
  match grammar_get g source with
  | Some expansions =>
      existsb (fun expansion => existsb (String.eqb target) expansion) expansions
  | None => false
  end.

Definition root_path (g : CanonicalGrammar) (start : string)
    (path : list string) : bool :=
  match path with
  | first :: _ =>
      String.eqb first start &&
      forallb (fun '(source, target) => grammar_edge g source target)
        ((fix pairs (p : list string) : list (string * string) :=
            match p with
            | a :: ((b :: _) as rest) => (a, b) :: pairs rest
            | _ => []
            end) path)
  | [] => false
  end.

(** Costs fall strictly along a path: each parent is at least its child
    plus one. *)
Definition strictly_decreasing (costs : gmap string Z) (path : list string)
  : Prop :=
  forall i source target,
    path !! i = Some source -> path !! S i = Some target ->
    exists cs ct,
      costs !! source = Some cs /\ costs !! target = Some ct /\
      (cs >= ct + 1)%Z.

(** ** A grammar with a nonterminal shared by four alternatives

    [<start> ::= <a> | <b> | <c> | <d>], [<a> ::= <x> | "a"] and likewise
    for [<b>], [<c>], [<d>], [<x> ::= <y>], [<y> ::= "y"]. *)

Module SharedNonterminal.
Definition canonical_grammar : CanonicalGrammar :=
  [("<start>", [["<a>"]; ["<b>"]; ["<c>"]; ["<d>"]]);
   ("<a>", [["<x>"]; ["a"]]);
   ("<b>", [["<x>"]; ["b"]]);
   ("<c>", [["<x>"]; ["c"]]);
   ("<d>", [["<x>"]; ["d"]]);
   ("<x>", [["<y>"]]);
   ("<y>", [["y"]])].

Definition nt (s : string) (cs : list string) : gg.Node :=
  {| gg.symbol := s; gg.class := gg.NonterminalNode; gg.children := cs |}.
Definition choice (s : string) (cs : list string) : gg.Node :=
  {| gg.symbol := s; gg.class := gg.ChoiceNode; gg.children := cs |}.
Definition term (s : string) : gg.Node :=
  {| gg.symbol := s; gg.class := gg.TerminalNode; gg.children := [] |}.

(** The graph with one choice node per alternative. *)
Definition graph : gg.GrammarGraph :=
  {| gg.root := "<start>";
     gg.all_nodes :=
       [nt "<start>" ["<start>-choice-1"; "<start>-choice-2";
                      "<start>-choice-3"; "<start>-choice-4"];
        choice "<start>-choice-1" ["<a>"];
        choice "<start>-choice-2" ["<b>"];
        choice "<start>-choice-3" ["<c>"];
        choice "<start>-choice-4" ["<d>"];
        nt "<a>" ["<a>-choice-1"; "<a>-choice-2"];
        choice "<a>-choice-1" ["<x>"]; choice "<a>-choice-2" ["a"];
        nt "<b>" ["<b>-choice-1"; "<b>-choice-2"];
        choice "<b>-choice-1" ["<x>"]; choice "<b>-choice-2" ["b"];
        nt "<c>" ["<c>-choice-1"; "<c>-choice-2"];
        choice "<c>-choice-1" ["<x>"]; choice "<c>-choice-2" ["c"];
        nt "<d>" ["<d>-choice-1"; "<d>-choice-2"];
        choice "<d>-choice-1" ["<x>"]; choice "<d>-choice-2" ["d"];
        nt "<x>" ["<x>-choice-1"];
        choice "<x>-choice-1" ["<y>"];
        nt "<y>" ["<y>-choice-1"];
        choice "<y>-choice-1" ["y"];
        term "a"; term "b"; term "c"; term "d"; term "y"] |}.

(** The same grammar drawn without choice nodes: the symbols of all
    alternatives hang directly below their nonterminal. *)
Definition flat_graph : gg.GrammarGraph :=
  {| gg.root := "<start>";
     gg.all_nodes :=
       [nt "<start>" ["<a>"; "<b>"; "<c>"; "<d>"];
        nt "<a>" ["<x>"; "a"]; nt "<b>" ["<x>"; "b"];
        nt "<c>" ["<x>"; "c"]; nt "<d>" ["<x>"; "d"];
        nt "<x>" ["<y>"]; nt "<y>" ["y"];
        term "a"; term "b"; term "c"; term "d"; term "y"] |}.

Definition leaf (s : string) : DerivationTree := DTree s (Some []) 0.
Definition node (s : string) (cs : list DerivationTree) : DerivationTree :=
  DTree s (Some cs) 0.

(** Minimal-cost expansions: every one of [<a>] to [<d>] closes with
    its terminal, [<start>] goes through [<a>]. *)
#[local] Instance probe : CostProbe :=
  {| probe_tree nonterminal :=
       if String.eqb nonterminal "<start>"
       then node "<start>" [node "<a>" [leaf "a"]]
       else if String.eqb nonterminal "<a>" then node "<a>" [leaf "a"]
       else if String.eqb nonterminal "<b>" then node "<b>" [leaf "b"]
       else if String.eqb nonterminal "<c>" then node "<c>" [leaf "c"]
       else if String.eqb nonterminal "<d>" then node "<d>" [leaf "d"]
       else if String.eqb nonterminal "<x>"
       then node "<x>" [node "<y>" [leaf "y"]]
       else node "<y>" [leaf "y"] |}.

(** The costs of [<start>], [<a>], [<b>], [<c>], [<d>], [<x>], [<y>]
    at the end. *)
Definition final_costs : list (option Z) :=
  [Some 5; Some 2; Some 2; Some 2; Some 1; Some 1; Some 0]%Z.
End SharedNonterminal.

(** ** Decidable equality of the data model *)

#[global] Instance DerivationTree_eq_dec : EqDecision DerivationTree.
Proof.
  refine (
    fix go (t1 t2 : DerivationTree) {struct t1} : Decision (t1 = t2) :=
      let _ : EqDecision DerivationTree := @go in
      match t1, t2 with
      | DTree v1 c1 i1, DTree v2 c2 i2 =>
          cast_if_and3 (decide (v1 = v2)) (decide (c1 = c2)) (decide (i1 = i2))
      end); abstract congruence.
Defined.

#[global] Instance ReRef_eq_dec : EqDecision z3.ReRef.
Proof.
  refine (
    fix go (r1 r2 : z3.ReRef) {struct r1} : Decision (r1 = r2) :=
      let _ : EqDecision z3.ReRef := @go in
      match r1, r2 with
      | z3.Re s1, z3.Re s2 => cast_if (decide (s1 = s2))
      | z3.Range a1 b1, z3.Range a2 b2 =>
          cast_if_and (decide (a1 = a2)) (decide (b1 = b2))
      | z3.Star a1, z3.Star a2 => cast_if (decide (a1 = a2))
      | z3.Union a1 b1, z3.Union a2 b2 =>
          cast_if_and (decide (a1 = a2)) (decide (b1 = b2))
      | z3.Concat l1, z3.Concat l2 => cast_if (decide (l1 = l2))
      | z3.Converted s1 n1, z3.Converted s2 n2 =>
          cast_if_and (decide (s1 = s2)) (decide (n1 = n2))
      | _, _ => right _
      end); abstract congruence.
Defined.

#[global] Instance ExprRef_eq_dec : EqDecision z3.ExprRef.
Proof.
  refine (
    fix go (e1 e2 : z3.ExprRef) {struct e1} : Decision (e1 = e2) :=
      let _ : EqDecision z3.ExprRef := @go in
      match e1, e2 with
      | z3.BoolVal b1, z3.BoolVal b2 => cast_if (decide (b1 = b2))
      | z3.StringVal s1, z3.StringVal s2 => cast_if (decide (s1 = s2))
      | z3.String s1, z3.String s2 => cast_if (decide (s1 = s2))
      | z3.Eq a1 b1, z3.Eq a2 b2 =>
          cast_if_and (decide (a1 = a2)) (decide (b1 = b2))
      | z3.Not a1, z3.Not a2 => cast_if (decide (a1 = a2))
      | z3.Or l1, z3.Or l2 => cast_if (decide (l1 = l2))
      | z3.And l1, z3.And l2 => cast_if (decide (l1 = l2))
      | z3.InRe a1 r1, z3.InRe a2 r2 =>
          cast_if_and (decide (a1 = a2)) (decide (r1 = r2))
      | z3.App f1 l1, z3.App f2 l2 =>
          cast_if_and (decide (f1 = f2)) (decide (l1 = l2))
      | _, _ => right _
      end); abstract congruence.
Defined.

#[global] Instance SMTFormula_eq_dec : EqDecision SMTFormula.
Proof. solve_decision. Defined.

(** ** Formulas

    Modelled from the spec: the classes of the formula language live in
    [isla/isla.py].  The variants are the ones the solver tests with
    [isinstance]; the binary connectives are what [&] and [|] build. *)

(** An argument of a predicate, or the [in_variable] of a quantifier:
    a variable, a derivation tree, or a literal. *)
Inductive Arg :=
| ArgVariable (v : IslaVariable)
| ArgTree (t : DerivationTree)
| ArgLiteral (s : string).

#[global] Instance Arg_eq_dec : EqDecision Arg.
Proof. solve_decision. Defined.

(** A match expression: literal text interleaved with bound variables. *)
Definition BindExpression : Type := list (string + IslaVariable).

Inductive Formula :=
| SMT (f : SMTFormula)
| StructuralPredicateFormula (predicate : string) (args : list Arg)
| SemanticPredicateFormula (predicate : string) (args : list Arg) (order : Z)
| ForallFormula (bound_variable : IslaVariable) (in_variable : Arg)
    (inner_formula : Formula) (bind_expression : option BindExpression)
    (already_matched : list Z) (qid : Z)
| ExistsFormula (bound_variable : IslaVariable) (in_variable : Arg)
    (inner_formula : Formula) (bind_expression : option BindExpression)
| IntroduceNumericConstantFormula (bound_variable : IslaVariable)
    (inner_formula : Formula)
| ConjunctiveFormula (a b : Formula)
| DisjunctiveFormula (a b : Formula)
| NegatedFormula (a : Formula).

#[global] Instance Formula_eq_dec : EqDecision Formula.
Proof. solve_decision. Defined.

(** [f == g] on formulas *)
Definition formula_eqb (f g : Formula) : bool := bool_decide (f = g).

Definition isinstance_DisjunctiveFormula (f : Formula) : bool :=
  match f with DisjunctiveFormula _ _ => true | _ => false end.
Definition isinstance_ConjunctiveFormula (f : Formula) : bool :=
  match f with ConjunctiveFormula _ _ => true | _ => false end.
Definition isinstance_ForallFormula (f : Formula) : bool :=
  match f with ForallFormula _ _ _ _ _ _ => true | _ => false end.
Definition isinstance_ExistsFormula (f : Formula) : bool :=
  match f with ExistsFormula _ _ _ _ => true | _ => false end.
Definition isinstance_SMTFormula (f : Formula) : bool :=
  match f with SMT _ => true | _ => false end.
Definition isinstance_StructuralPredicateFormula (f : Formula) : bool :=
  match f with StructuralPredicateFormula _ _ => true | _ => false end.
Definition isinstance_SemanticPredicateFormula (f : Formula) : bool :=
  match f with SemanticPredicateFormula _ _ _ => true | _ => false end.
Definition isinstance_IntroduceNumericConstantFormula (f : Formula) : bool :=
  match f with IntroduceNumericConstantFormula _ _ => true | _ => false end.

(** [isla_shortcuts] *)
Module sc.
Definition smt_atom (e : z3.ExprRef) : Formula :=
  SMT {| formula := e; free_variables_ := [];
         instantiated_variables := []; substitutions := [] |}.
Definition true : Formula := smt_atom (z3.BoolVal true).
Definition false : Formula := smt_atom (z3.BoolVal false).
End sc.

(** Modelled from the spec: [Formula.__and__], [__or__] and [__neg__]
    live in [isla/isla.py].  Conjunction and disjunction absorb the
    constants [true] and [false] and equal operands. *)
Definition formula_and (a b : Formula) : Formula :=
  if formula_eqb a b then a
  else if formula_eqb a sc.false || formula_eqb b sc.false then sc.false
  else if formula_eqb a sc.true then b
  else if formula_eqb b sc.true then a
  else ConjunctiveFormula a b.

Definition formula_or (a b : Formula) : Formula :=
  if formula_eqb a b then a
  else if formula_eqb a sc.true || formula_eqb b sc.true then sc.true
  else if formula_eqb a sc.false then b
  else if formula_eqb b sc.false then a
  else DisjunctiveFormula a b.

Definition formula_neg (a : Formula) : Formula :=
  if formula_eqb a sc.true then sc.false
  else if formula_eqb a sc.false then sc.true
  else NegatedFormula a.

Infix "&" := formula_and (at level 40, left associativity).
Infix "|'" := formula_or (at level 50, left associativity).

(** Modelled from the spec: [split_conjunction], [split_disjunction] and
    [get_conjuncts] live in [isla/isla.py]; they flatten nested
    conjunctions, nested disjunctions, and the conjuncts of all
    disjuncts. *)
Fixpoint split_conjunction (f : Formula) : list Formula :=
  match f with
  | ConjunctiveFormula a b => split_conjunction a ++ split_conjunction b
  | _ => [f]
  end.

Fixpoint split_disjunction (f : Formula) : list Formula :=
  match f with
  | DisjunctiveFormula a b => split_disjunction a ++ split_disjunction b
  | _ => [f]
  end.

Definition get_conjuncts (f : Formula) : list Formula :=
  concat (map split_conjunction (split_disjunction f)).

(** Modelled from the spec: [convert_to_nnf] lives in [isla/isla.py];
    it pushes negations inwards, through connectives and quantifiers. *)
Fixpoint convert_to_nnf_aux (negate : bool) (f : Formula) : Formula :=
  match f with
  | NegatedFormula a => convert_to_nnf_aux (negb negate) a
  | ConjunctiveFormula a b =>
      if negate
      then convert_to_nnf_aux negate a |' convert_to_nnf_aux negate b
      else convert_to_nnf_aux negate a & convert_to_nnf_aux negate b
  | DisjunctiveFormula a b =>
      if negate
      then convert_to_nnf_aux negate a & convert_to_nnf_aux negate b
      else convert_to_nnf_aux negate a |' convert_to_nnf_aux negate b
  | ForallFormula v t inner bind matched q =>
      if negate
      then ExistsFormula v t (convert_to_nnf_aux negate inner) bind
      else f
  | ExistsFormula v t inner bind =>
      if negate
      then ForallFormula v t (convert_to_nnf_aux negate inner) bind [] 0
      else f
  | SMT s =>
      if negate
      then SMT {| formula := z3.Not (formula s);
                  free_variables_ := free_variables_ s;
                  instantiated_variables := instantiated_variables s;
                  substitutions := substitutions s |}
      else f
  | _ => if negate then NegatedFormula f else f
  end.

Definition convert_to_nnf (f : Formula) : Formula :=
  convert_to_nnf_aux false f.

(** Modelled from the spec: [convert_to_dnf] lives in [isla/isla.py].
    A conjunction becomes the disjunction, over all ways of picking one
    disjunct from each operand, of the conjunction of the picks. *)
Fixpoint convert_to_dnf (f : Formula) : Formula :=
  match f with
  | ConjunctiveFormula a b =>
      fold_left formula_or
        (flat_map
           (fun x => map (fun y => (sc.true & x) & y)
                       (split_disjunction (convert_to_dnf b)))
           (split_disjunction (convert_to_dnf a)))
        sc.false
  | DisjunctiveFormula a b =>
      fold_left formula_or [convert_to_dnf a; convert_to_dnf b] sc.false
  | ForallFormula v t inner bind matched q =>
      ForallFormula v t (convert_to_dnf inner) bind matched q
  | ExistsFormula v t inner bind =>
      ExistsFormula v t (convert_to_dnf inner) bind
  | _ => f
  end.

(** Modelled from the spec: [replace_formula] lives in [isla/isla.py];
    it replaces every occurrence of a subformula and rebuilds the
    connectives on the way up. *)
Fixpoint replace_formula (in_formula to_replace replace_with : Formula)
  : Formula :=
  if formula_eqb in_formula to_replace then replace_with
  else
    match in_formula with
    | ConjunctiveFormula a b =>
        replace_formula a to_replace replace_with
        & replace_formula b to_replace replace_with
    | DisjunctiveFormula a b =>
        replace_formula a to_replace replace_with
        |' replace_formula b to_replace replace_with
    | NegatedFormula a =>
        formula_neg (replace_formula a to_replace replace_with)
    | ForallFormula v t inner bind matched q =>
        ForallFormula v t (replace_formula inner to_replace replace_with)
          bind matched q
    | ExistsFormula v t inner bind =>
        ExistsFormula v t (replace_formula inner to_replace replace_with) bind
    | IntroduceNumericConstantFormula v inner =>
        IntroduceNumericConstantFormula v
          (replace_formula inner to_replace replace_with)
    | _ => in_formula
    end.

(** Modelled from the spec: [FilterVisitor(f).collect] lives in
    [isla/isla.py]; it gathers the subformulas that pass the filter. *)
Fixpoint FilterVisitor_collect (keep : Formula -> bool) (f : Formula)
  : list Formula :=
  (if keep f then [f] else []) ++
  match f with
  | ConjunctiveFormula a b | DisjunctiveFormula a b =>
      FilterVisitor_collect keep a ++ FilterVisitor_collect keep b
  | NegatedFormula a => FilterVisitor_collect keep a
  | ForallFormula _ _ inner _ _ _ | ExistsFormula _ _ inner _
  | IntroduceNumericConstantFormula _ inner =>
      FilterVisitor_collect keep inner
  | _ => []
  end.

(** Modelled from the spec: [VariablesCollector.collect] lives in
    [isla/isla.py]; it returns the variables that occur in a formula. *)
Definition arg_variables (a : Arg) : list IslaVariable :=
  match a with ArgVariable v => [v] | _ => [] end.

Definition bind_variables (b : option BindExpression) : list IslaVariable :=
  match b with
  | Some elements =>
      flat_map (fun e => match e with inr v => [v] | inl _ => [] end) elements
  | None => []
  end.

Fixpoint VariablesCollector_collect (f : Formula) : list IslaVariable :=
  match f with
  | SMT s => free_variables_ s
  | StructuralPredicateFormula _ args | SemanticPredicateFormula _ args _ =>
      flat_map arg_variables args
  | ForallFormula v t inner bind _ _ | ExistsFormula v t inner bind =>
      v :: arg_variables t ++ bind_variables bind
        ++ VariablesCollector_collect inner
  | IntroduceNumericConstantFormula v inner =>
      v :: VariablesCollector_collect inner
  | ConjunctiveFormula a b | DisjunctiveFormula a b =>
      VariablesCollector_collect a ++ VariablesCollector_collect b
  | NegatedFormula a => VariablesCollector_collect a
  end.

(** ** Operations on derivation trees

    Modelled from the spec: the class [DerivationTree] lives in
    [isla/isla.py].  Paths are tuples of child indices; a node is open
    when it carries the open marker; a tree is complete when no node is
    open; substitution replaces the nodes whose identifier is a key. *)

Definition Path : Type := list nat.

Fixpoint open_leaves_from (prefix : Path) (t : DerivationTree) {struct t}
  : list (Path * DerivationTree) :=
  match t with
  | DTree _ None _ => [(prefix, t)]
  | DTree _ (Some l) _ =>
      (fix go (l : list DerivationTree) (idx : nat)
         : list (Path * DerivationTree) :=
         match l with
         | [] => []
         | x :: xs => open_leaves_from (prefix ++ [idx]) x ++ go xs (S idx)
         end) l 0%nat
  end.

Definition open_leaves (t : DerivationTree) : list (Path * DerivationTree) :=
  open_leaves_from [] t.

Definition is_open (t : DerivationTree) : bool :=
  match open_leaves t with [] => false | _ => true end.

Definition is_complete (t : DerivationTree) : bool := negb (is_open t).

Fixpoint paths_from (prefix : Path) (t : DerivationTree) {struct t}
  : list (Path * DerivationTree) :=
  (prefix, t) ::
  match t with
  | DTree _ None _ => []
  | DTree _ (Some l) _ =>
      (fix go (l : list DerivationTree) (idx : nat)
         : list (Path * DerivationTree) :=
         match l with
         | [] => []
         | x :: xs => paths_from (prefix ++ [idx]) x ++ go xs (S idx)
         end) l 0%nat
  end.

Definition paths (t : DerivationTree) : list (Path * DerivationTree) :=
  paths_from [] t.

Fixpoint get_subtree (t : DerivationTree) (path : Path) : option DerivationTree :=
  match path with
  | [] => Some t
  | idx :: path' =>
      match children t with
      | Some l =>
          match l !! idx with
          | Some child => get_subtree child path'
          | None => None
          end
      | None => None
      end
  end.

Definition is_valid_path (t : DerivationTree) (path : Path) : bool :=
  bool_decide (is_Some (get_subtree t path)).

Fixpoint replace_path (t : DerivationTree) (path : Path)
    (replacement : DerivationTree) : DerivationTree :=
  match path with
  | [] => replacement
  | idx :: path' =>
      match t with
      | DTree v (Some l) i =>
          match l !! idx with
          | Some child =>
              DTree v (Some (<[idx := replace_path child path' replacement]> l)) i
          | None => t
          end
      | DTree _ None _ => t
      end
  end.

Fixpoint tree_substitute (t : DerivationTree)
    (subst : list (DerivationTree * DerivationTree)) {struct t}
  : DerivationTree :=
  match List.find (fun '(old, _) => Z.eqb (id old) (id t)) subst with
  | Some (_, new) => new
  | None =>
      match t with
      | DTree v None i => t
      | DTree v (Some l) i =>
          DTree v
            (Some ((fix go (l : list DerivationTree) : list DerivationTree :=
                      match l with
                      | [] => []
                      | x :: xs => tree_substitute x subst :: go xs
                      end) l))
            i
      end
  end.

(** The shape of a tree: symbols and structure, no identifiers. *)
Inductive Shape :=
| ShapeNode (value : string) (children : option (list Shape)).

Fixpoint shape (t : DerivationTree) {struct t} : Shape :=
  match t with
  | DTree v None _ => ShapeNode v None
  | DTree v (Some l) _ =>
      ShapeNode v
        (Some ((fix go (l : list DerivationTree) : list Shape :=
                  match l with
                  | [] => []
                  | x :: xs => shape x :: go xs
                  end) l))
  end.

#[global] Instance Shape_eq_dec : EqDecision Shape.
Proof.
  refine (
    fix go (s1 s2 : Shape) {struct s1} : Decision (s1 = s2) :=
      let _ : EqDecision Shape := @go in
      match s1, s2 with
      | ShapeNode v1 c1, ShapeNode v2 c2 =>
          cast_if_and (decide (v1 = v2)) (decide (c1 = c2))
      end); abstract congruence.
Defined.

Definition structurally_equal (t1 t2 : DerivationTree) : bool :=
  bool_decide (shape t1 = shape t2).

(** ** Solution states *)

Record SolutionState := {
  constraint : Formula;
  tree : DerivationTree;
  level : Z;
}.

(** [SolutionState(constraint, tree)], with the default level *)
Definition new_state (constraint : Formula) (tree : DerivationTree)
  : SolutionState :=
  {| constraint := constraint; tree := tree; level := 0 |}.

(** [SolutionState.__eq__] *)
Definition state_eqb (s1 s2 : SolutionState) : bool :=
  formula_eqb (constraint s1) (constraint s2)
  && structurally_equal (tree s1) (tree s2).

(** ** Collaborators of the solver core *)

Inductive ThreeValuedTruth := TruthTrue | TruthFalse | TruthUnknown.

Definition truth_is_true (t : ThreeValuedTruth) : bool :=
  match t with TruthTrue => true | _ => false end.

(** The result of evaluating a semantic predicate: not ready, a Boolean,
    or a substitution of trees. *)
Inductive SemPredEvalResult :=
| NotReady
| Decided (b : bool)
| Binding (result : list (DerivationTree * DerivationTree)).

Definition Substitution : Type := list (SolutionKey * DerivationTree).

(** A match of a quantified formula: each variable with the path and
    the tree it is bound to. *)
Definition Match : Type := list (IslaVariable * (Path * DerivationTree)).

(** The formula language and the matcher ([isla/isla.py]), the
    predicate evaluators, and tree insertion
    ([isla/existential_helpers.py]). *)
Class IslaLanguage := {
  parse_isla : string -> Formula;
  ensure_unique_bound_variables : Formula -> Formula;
  substitute_expressions : Formula -> Substitution -> Formula;
  substitute_variables : Formula -> list (IslaVariable * IslaVariable) -> Formula;
  fresh_constant : list IslaVariable -> IslaVariable -> IslaVariable;
  evaluate : Formula -> DerivationTree -> CanonicalGrammar -> ThreeValuedTruth;
  structural_predicate_evaluate :
    string -> list Arg -> DerivationTree -> bool;
  semantic_predicate_evaluate :
    string -> list Arg -> CanonicalGrammar -> SemPredEvalResult;
  binds_tree : Formula -> DerivationTree -> bool;
  matches_for_quantified_formula : Formula -> CanonicalGrammar -> list Match;
  quantified_formula_might_match :
    Formula -> Path -> DerivationTree -> CanonicalGrammar ->
    (string -> string -> bool) -> bool;
  to_tree_prefix :
    BindExpression -> string -> CanonicalGrammar ->
    list (DerivationTree * list (IslaVariable * Path));
  insert_tree :
    CanonicalGrammar -> DerivationTree -> Arg -> gg.GrammarGraph -> nat ->
    list DerivationTree;
  instantiate_top_constant : Formula -> DerivationTree -> Formula;
  (** the identifiers gathered in [vacuously_satisfied] by
      [eliminate_quantifiers] *)
  vacuously_satisfied :
    Formula -> CanonicalGrammar -> gg.GrammarGraph -> list Z;
}.

(** What the solver asks of the grammar graph beyond its nodes. *)
Class GraphQueries := {
  graph_k_paths : gg.GrammarGraph -> nat -> gset (list string);
  tree_k_paths : DerivationTree -> gg.GrammarGraph -> nat -> gset (list string);
  (** [tree.k_coverage(graph, k)]: the share of the k-paths of the graph
      that the tree has; [RuntimeError] from [grammar_graph] for a tree
      that is no derivation of the grammar, [ZeroDivisionError] for a
      graph without k-paths *)
  k_coverage : DerivationTree -> gg.GrammarGraph -> nat -> Result Q;
  (** [graph.dijkstra(from, to)[0][to]], [None] when a node is missing *)
  dijkstra_distance : gg.GrammarGraph -> string -> string -> option Z;
  (** [GrammarGraph.from_grammar] *)
  from_grammar : CanonicalGrammar -> gg.GrammarGraph;
  (** [graph.shortest_distances(infinity=sys.maxsize)], restricted to
      the symbols that are not choice nodes *)
  shortest_distances : gg.GrammarGraph -> list (string * list (string * Z));
}.

(** The Python runtime and [isla.helpers]: hashes, the clock, floating
    point arithmetic (a finite float is kept as the rational it
    denotes), the base fuzzer, and clustering. *)
Class Runtime := {
  hash_shape : Shape -> Z;
  hash_state : SolutionState -> Z;
  (** the value of [int(time.time())] at the n-th reading *)
  time_time : nat -> Z;
  (** rounding of a rational to the nearest float *)
  fl : Q -> Q;
  weighted_geometric_mean : list Q -> list Q -> Result Q;
  (** [math.prod(xs) ** e] *)
  prod_pow : list Q -> Q -> Q;
  (** [GrammarCoverageFuzzer(grammar).expand_tree((symbol, None))] read
      through [from_parse_tree]: the fuzzer created in the n-th
      iteration of the main loop, at its m-th call *)
  fuzzer_expand_tree : nat -> nat -> string -> DerivationTree;
  cluster_by_common_elements :
    list SMTFormula -> (SMTFormula -> list SolutionKey) -> list (list SMTFormula);
  z3_subst : z3.ExprRef -> list (z3.ExprRef * z3.ExprRef) -> z3.ExprRef;
  sys_maxsize : Z;
  (** the identifier the class counter hands to a node the solver
      builds itself, by the place of the allocation *)
  fresh_id : list nat -> Z;
}.

Definition structural_hash `{Runtime} (t : DerivationTree) : Z :=
  hash_shape (shape t).

(** ** Cost settings *)

Record CostWeightVector := {
  tree_closing_cost : Q;
  vacuous_penalty : Q;
  constraint_cost : Q;
  derivation_depth_penalty : Q;
  low_k_coverage_penalty : Q;
  low_global_k_path_coverage_penalty : Q;
}.

(** [list(cost_weight_vector)] *)
Definition weights (w : CostWeightVector) : list Q :=
  [tree_closing_cost w; vacuous_penalty w; constraint_cost w;
   derivation_depth_penalty w; low_k_coverage_penalty w;
   low_global_k_path_coverage_penalty w].

Record CostSettings := {
  weight_vectors : list CostWeightVector;
  cost_phase_lengths : list Z;
  k : nat;
}.

Definition STD_COST_SETTINGS : CostSettings :=
  {| weight_vectors :=
       [{| tree_closing_cost := 11; vacuous_penalty := 0;
           constraint_cost := 3; derivation_depth_penalty := 5;
           low_k_coverage_penalty := 20;
           low_global_k_path_coverage_penalty := 10 |}];
     cost_phase_lengths := [200%Z];
     k := 3 |}.

(** ** The solver object *)

Record ISLaSolver := {
  grammar : CanonicalGrammar;
  graph : gg.GrammarGraph;
  symbol_costs : gmap string Z;
  timeout_seconds : option Z;
  orig_formula : Formula;
  top_constant : IslaVariable;
  quantifier_chains : list (list Formula);
  max_number_free_instantiations : nat;
  max_number_smt_instantiations : nat;
  max_number_tree_insertion_results : nat;
  enforce_unique_trees_in_queue : bool;
  cost_settings : CostSettings;
  precompute_reachability : bool;
  node_distances : list (string * list (string * Z));
  debug : bool;
  assertions_activated : bool;
  current_cost_phase : nat;
  current_cost_phase_since : Z;
  covered_k_paths : gset (list string);
  queue : list (Q * SolutionState);
  tree_hashes_in_queue : gset Z;
  current_level : Z;
}.

Definition set_queue (q : list (Q * SolutionState)) (self : ISLaSolver)
  : ISLaSolver :=
  {| grammar := grammar self; graph := graph self;
     symbol_costs := symbol_costs self; timeout_seconds := timeout_seconds self;
     orig_formula := orig_formula self; top_constant := top_constant self;
     quantifier_chains := quantifier_chains self;
     max_number_free_instantiations := max_number_free_instantiations self;
     max_number_smt_instantiations := max_number_smt_instantiations self;
     max_number_tree_insertion_results := max_number_tree_insertion_results self;
     enforce_unique_trees_in_queue := enforce_unique_trees_in_queue self;
     cost_settings := cost_settings self;
     precompute_reachability := precompute_reachability self;
     node_distances := node_distances self;
     debug := debug self; assertions_activated := assertions_activated self;
     current_cost_phase := current_cost_phase self;
     current_cost_phase_since := current_cost_phase_since self;
     covered_k_paths := covered_k_paths self;
     queue := q;
     tree_hashes_in_queue := tree_hashes_in_queue self;
     current_level := current_level self |}.

Definition set_tree_hashes_in_queue (hs : gset Z) (self : ISLaSolver)
  : ISLaSolver :=
  {| grammar := grammar self; graph := graph self;
     symbol_costs := symbol_costs self; timeout_seconds := timeout_seconds self;
     orig_formula := orig_formula self; top_constant := top_constant self;
     quantifier_chains := quantifier_chains self;
     max_number_free_instantiations := max_number_free_instantiations self;
     max_number_smt_instantiations := max_number_smt_instantiations self;
     max_number_tree_insertion_results := max_number_tree_insertion_results self;
     enforce_unique_trees_in_queue := enforce_unique_trees_in_queue self;
     cost_settings := cost_settings self;
     precompute_reachability := precompute_reachability self;
     node_distances := node_distances self;
     debug := debug self; assertions_activated := assertions_activated self;
     current_cost_phase := current_cost_phase self;
     current_cost_phase_since := current_cost_phase_since self;
     covered_k_paths := covered_k_paths self;
     queue := queue self;
     tree_hashes_in_queue := hs;
     current_level := current_level self |}.

Definition set_covered_k_paths (c : gset (list string)) (self : ISLaSolver)
  : ISLaSolver :=
  {| grammar := grammar self; graph := graph self;
     symbol_costs := symbol_costs self; timeout_seconds := timeout_seconds self;
     orig_formula := orig_formula self; top_constant := top_constant self;
     quantifier_chains := quantifier_chains self;
     max_number_free_instantiations := max_number_free_instantiations self;
     max_number_smt_instantiations := max_number_smt_instantiations self;
     max_number_tree_insertion_results := max_number_tree_insertion_results self;
     enforce_unique_trees_in_queue := enforce_unique_trees_in_queue self;
     cost_settings := cost_settings self;
     precompute_reachability := precompute_reachability self;
     node_distances := node_distances self;
     debug := debug self; assertions_activated := assertions_activated self;
     current_cost_phase := current_cost_phase self;
     current_cost_phase_since := current_cost_phase_since self;
     covered_k_paths := c;
     queue := queue self;
     tree_hashes_in_queue := tree_hashes_in_queue self;
     current_level := current_level self |}.

Definition set_current_level (l : Z) (self : ISLaSolver) : ISLaSolver :=
  {| grammar := grammar self; graph := graph self;
     symbol_costs := symbol_costs self; timeout_seconds := timeout_seconds self;
     orig_formula := orig_formula self; top_constant := top_constant self;
     quantifier_chains := quantifier_chains self;
     max_number_free_instantiations := max_number_free_instantiations self;
     max_number_smt_instantiations := max_number_smt_instantiations self;
     max_number_tree_insertion_results := max_number_tree_insertion_results self;
     enforce_unique_trees_in_queue := enforce_unique_trees_in_queue self;
     cost_settings := cost_settings self;
     precompute_reachability := precompute_reachability self;
     node_distances := node_distances self;
     debug := debug self; assertions_activated := assertions_activated self;
     current_cost_phase := current_cost_phase self;
     current_cost_phase_since := current_cost_phase_since self;
     covered_k_paths := covered_k_paths self;
     queue := queue self;
     tree_hashes_in_queue := tree_hashes_in_queue self;
     current_level := l |}.

Definition set_cost_phase (phase : nat) (since : Z) (self : ISLaSolver)
  : ISLaSolver :=
  {| grammar := grammar self; graph := graph self;
     symbol_costs := symbol_costs self; timeout_seconds := timeout_seconds self;
     orig_formula := orig_formula self; top_constant := top_constant self;
     quantifier_chains := quantifier_chains self;
     max_number_free_instantiations := max_number_free_instantiations self;
     max_number_smt_instantiations := max_number_smt_instantiations self;
     max_number_tree_insertion_results := max_number_tree_insertion_results self;
     enforce_unique_trees_in_queue := enforce_unique_trees_in_queue self;
     cost_settings := cost_settings self;
     precompute_reachability := precompute_reachability self;
     node_distances := node_distances self;
     debug := debug self; assertions_activated := assertions_activated self;
     current_cost_phase := phase;
     current_cost_phase_since := since;
     covered_k_paths := covered_k_paths self;
     queue := queue self;
     tree_hashes_in_queue := tree_hashes_in_queue self;
     current_level := current_level self |}.

(** ** Methods as state transformers that may raise *)

Definition M (A : Type) : Type := ISLaSolver -> Result (A * ISLaSolver).

Definition ret {A} (a : A) : M A := fun self => Ok (a, self).

Definition bind {A B} (m : M A) (k : A -> M B) : M B :=
  fun self =>
    match m self with
    | Ok (a, self') => k a self'
    | Raise e => Raise e
    end.

Definition lift {A} (r : Result A) : M A :=
  fun self =>
    match r with
    | Ok a => Ok (a, self)
    | Raise e => Raise e
    end.

Definition get : M ISLaSolver := fun self => Ok (self, self).
Definition modify (f : ISLaSolver -> ISLaSolver) : M unit :=
  fun self => Ok (tt, f self).

Notation "'let*' x := m 'in' k" := (bind m (fun x => k))
  (at level 10, x name, m at level 100, k at level 200).
Notation "'let*' ' p := m 'in' k" := (bind m (fun p => k))
  (at level 10, p strict pattern, m at level 100, k at level 200).
Notation "'let?' x := r 'in' k" := (rbind r (fun x => k))
  (at level 10, x name, r at level 100, k at level 200).
Notation "'let?' ' p := r 'in' k" := (rbind r (fun p => k))
  (at level 10, p strict pattern, r at level 100, k at level 200).

(** [for x in xs: ...] collecting the results of the body *)
Fixpoint for_each {A B} (xs : list A) (body : A -> M B) : M (list B) :=
  match xs with
  | [] => ret []
  | x :: xs' =>
      bind (body x) (fun b =>
      bind (for_each xs' body) (fun bs => ret (b :: bs)))
  end.

(** ** Quantifier chains *)

(** Modelled from the spec: [get_toplevel_quantified_formulas] lives in
    [isla/isla.py]; it returns the outermost quantified formulas, the
    introductions of numeric constants among them. *)
Fixpoint get_toplevel_quantified_formulas (f : Formula) : list Formula :=
  match f with
  | ForallFormula _ _ _ _ _ _ | ExistsFormula _ _ _ _
  | IntroduceNumericConstantFormula _ _ => [f]
  | ConjunctiveFormula a b | DisjunctiveFormula a b =>
      get_toplevel_quantified_formulas a ++ get_toplevel_quantified_formulas b
  | NegatedFormula a => get_toplevel_quantified_formulas a
  | _ => []
  end.

Definition inner_formula_of (f : Formula) : option Formula :=
  match f with
  | ForallFormula _ _ inner _ _ _ | ExistsFormula _ _ inner _
  | IntroduceNumericConstantFormula _ inner => Some inner
  | _ => None
  end.

(** [get_quantifier_chains]: every top-level quantified formula,
    followed by each chain of its inner formula (or by nothing when
    there is none).  The recursion runs over the formula itself. *)
Fixpoint get_quantifier_chains (f : Formula) : list (list Formula) :=
  match f with
  | ForallFormula _ _ inner _ _ _ | ExistsFormula _ _ inner _
  | IntroduceNumericConstantFormula _ inner =>
      map (cons f)
        (match get_quantifier_chains inner with
         | [] => [[]]
         | chains => chains
         end)
  | ConjunctiveFormula a b | DisjunctiveFormula a b =>
      get_quantifier_chains a ++ get_quantifier_chains b
  | NegatedFormula a => get_quantifier_chains a
  | _ => []
  end.

Definition formula_id (f : Formula) : Z :=
  match f with ForallFormula _ _ _ _ _ q => q | _ => 0%Z end.

(** ** Costs *)

Section Costs.
Context `{IslaLanguage, GraphQueries, Runtime}.
Local Open Scope Q_scope.

Definition compute_tree_closing_cost (tree : DerivationTree)
    (symbol_costs : gmap string Z) : Result Z :=
  let nonterminals := map (fun '(_, leaf) => value leaf) (open_leaves tree) in
  fold_left
    (fun acc nonterminal =>
       let? total := acc in
       match symbol_costs !! nonterminal with
       | Some c => Ok (total + c)%Z
       | None => Raise KeyError
       end)
    nonterminals (Ok 0%Z).

Definition compute_global_k_coverage_cost
    (covered_k_paths : gset (list string)) (graph : gg.GrammarGraph)
    (k : nat) (state : SolutionState) : Result Q :=
  let num_contributed_k_paths :=
    size (filter (fun path => path ∈ tree_k_paths (tree state) graph k
                              /\ path ∉ covered_k_paths)
            (graph_k_paths graph k)) in
  let num_missing_k_paths :=
    (Z.of_nat (size (graph_k_paths graph k))
     - Z.of_nat (size covered_k_paths))%Z in
  if (num_missing_k_paths =? 0)%Z then Raise ZeroDivisionError
  else Ok (fl (1 - fl (inject_Z (Z.of_nat num_contributed_k_paths)
                       / inject_Z num_missing_k_paths))).

Definition compute_k_coverage_cost (graph : gg.GrammarGraph) (k : nat)
    (state : SolutionState) : Result Q :=
  let? coverages :=
    collect (map (fun i => k_coverage (tree state) graph i) (seq 1 k)) in
  if (k =? 0)%nat then Raise ZeroDivisionError
  else Ok (prod_pow (map (fun coverage => fl (1 - coverage)) coverages)
             (fl (1 / inject_Z (Z.of_nat k)))).

Definition compute_vacuous_penalty
    (grammar : CanonicalGrammar) (graph : gg.GrammarGraph)
    (orig_formula : Formula) (tree : DerivationTree)
    (quantifier_chains : list (list Formula)) : Result Q :=
  let formula := instantiate_top_constant orig_formula tree in
  let toplevel_qfrs := get_toplevel_quantified_formulas formula in
  match quantifier_chains with
  | [] => Ok 0
  | _ =>
      let vacuously_matched_quantifiers :=
        vacuously_satisfied formula grammar graph in
      let vacuous_chains :=
        remove_dups
          (List.filter
             (fun c =>
                forallb (fun f =>
                           existsb (Z.eqb (formula_id f))
                             vacuously_matched_quantifiers) c)
             quantifier_chains) in
      (* one chain per top-level quantifier *)
      let heads :=
        remove_dups
          (flat_map (fun c => match c with
                              | f :: _ => [formula_id f]
                              | [] => []
                              end) vacuous_chains) in
      let? _ := (if forallb (fun c => match c with [] => false | _ => true end)
                      vacuous_chains
                 then Ok tt else Raise IndexError) in
      match toplevel_qfrs with
      | [] => Raise ZeroDivisionError
      | _ =>
          let vacuous_penalty :=
            fl (inject_Z (Z.of_nat (length heads))
                / inject_Z (Z.of_nat (length toplevel_qfrs))) in
          let? _ := py_assert (Qle_bool 0 vacuous_penalty
                               && Qle_bool vacuous_penalty 1) in
          Ok vacuous_penalty
      end
  end.

Definition chain_cost (c : list Formula) : Z :=
  fold_left Z.add
    (imap (fun idx f =>
             (Z.of_nat idx * (if isinstance_ExistsFormula f then 2 else 1) + 1)%Z)
       c)
    0%Z.

(** The module-level [compute_cost] *)
Definition compute_cost
    (state : SolutionState) (symbol_costs : gmap string Z)
    (cost_weight_vector : CostWeightVector) (k : nat)
    (covered_k_paths : gset (list string)) (orig_formula : Formula)
    (grammar : CanonicalGrammar) (graph : gg.GrammarGraph)
    (quantifier_chains : list (list Formula)) : Result Q :=
  let? tree_closing_cost := compute_tree_closing_cost (tree state) symbol_costs in
  let constraint_cost :=
    fold_left Z.add (map chain_cost (get_quantifier_chains (constraint state)))
      0%Z in
  let? vacuous_penalty :=
    (if Qeq_bool (vacuous_penalty cost_weight_vector) 0 then Ok 0
     else compute_vacuous_penalty grammar graph orig_formula (tree state)
            quantifier_chains) in
  let? k_cov_cost := compute_k_coverage_cost graph k state in
  let? global_k_path_cost :=
    compute_global_k_coverage_cost covered_k_paths graph k state in
  let costs :=
    [inject_Z tree_closing_cost; vacuous_penalty; inject_Z constraint_cost;
     inject_Z (level state); k_cov_cost; global_k_path_cost] in
  let? _ := py_assert (forallb (fun c => Qle_bool 0 c) costs) in
  weighted_geometric_mean costs (weights cost_weight_vector).

(** [ISLaSolver.compute_cost] *)
Definition ISLaSolver_compute_cost (state : SolutionState) : M Q :=
  fun self =>
    if formula_eqb (constraint state) sc.true then Ok (0, self)
    else
      let settings := cost_settings self in
      match cost_phase_lengths settings !! current_cost_phase self with
      | None => Raise IndexError
      | Some phase_length =>
          let? self' :=
            (if (Z.of_nat (length (queue self)) - current_cost_phase_since self
                 >? phase_length)%Z
             then
               match length (weight_vectors settings) with
               | O => Raise ZeroDivisionError
               | n =>
                   Ok (set_cost_phase
                         ((current_cost_phase self + 1) mod n)%nat
                         (Z.of_nat (length (queue self))) self)
               end
             else Ok self) in
          match weight_vectors settings !! current_cost_phase self' with
          | None => Raise IndexError
          | Some cost_weight_vector =>
              let? cost :=
                compute_cost state (symbol_costs self') cost_weight_vector
                  (k settings) (covered_k_paths self') (orig_formula self')
                  (grammar self') (graph self') (quantifier_chains self') in
              Ok (cost, self')
          end
      end.
End Costs.

(** ** The solver core: states, invariant, queue *)

Section Core.
Context `{IslaLanguage, GraphQueries, Runtime, SMTBridge}.

(** [SolutionState.formula_satisfied] *)
Definition formula_satisfied (state : SolutionState)
    (grammar : CanonicalGrammar) : ThreeValuedTruth :=
  if is_open (tree state) then TruthUnknown
  else evaluate (constraint state) (tree state) grammar.

(** [SolutionState.complete] *)
Definition complete (state : SolutionState) : bool :=
  if negb (is_complete (tree state)) then false
  else formula_eqb (constraint state) sc.true.

Definition is_variable (a : Arg) : bool :=
  match a with ArgVariable _ => true | _ => false end.

Definition predicate_args (f : Formula) : list Arg :=
  match f with
  | StructuralPredicateFormula _ args | SemanticPredicateFormula _ args _ => args
  | _ => []
  end.

(** [predicate_formula.evaluate(tree)] *)
Definition evaluate_predicate (f : Formula) (tree : DerivationTree) : bool :=
  match f with
  | StructuralPredicateFormula predicate args =>
      structural_predicate_evaluate predicate args tree
  | _ => false
  end.

Definition instantiate_structural_predicates (state : SolutionState)
  : SolutionState :=
  let predicate_formulas :=
    List.filter
      (fun pred_formula =>
         isinstance_StructuralPredicateFormula pred_formula
         && forallb (fun arg => negb (is_variable arg))
              (predicate_args pred_formula))
      (FilterVisitor_collect isinstance_StructuralPredicateFormula
         (constraint state)) in
  let formula :=
    fold_left
      (fun formula predicate_formula =>
         let instantiation :=
           sc.smt_atom (z3.BoolVal (evaluate_predicate predicate_formula
                                      (tree state))) in
         replace_formula formula predicate_formula instantiation)
      predicate_formulas (constraint state) in
  new_state formula (tree state).

Definition establish_invariant (state : SolutionState) : list SolutionState :=
  let formula := convert_to_dnf (convert_to_nnf (constraint state)) in
  map (fun disjunct => new_state disjunct (tree state))
    (split_disjunction formula).

(** [ISLaSolver.node_distance] and [ISLaSolver.reachable]; a missing
    entry counts as unreachable. *)
Definition node_distance (self : ISLaSolver) (nonterminal to_nonterminal : string)
  : option Z :=
  if precompute_reachability self then
    match dict_get String.eqb (node_distances self) nonterminal with
    | Some row => dict_get String.eqb row to_nonterminal
    | None => None
    end
  else dijkstra_distance (graph self) nonterminal to_nonterminal.

Definition reachable (self : ISLaSolver) (nonterminal to_nonterminal : string)
  : bool :=
  match node_distance self nonterminal to_nonterminal with
  | Some d => (d <? sys_maxsize)%Z
  | None => false
  end.

Definition ISLaSolver_quantified_formula_might_match (self : ISLaSolver)
    (qfd_formula : Formula) (path_to_nonterminal : Path)
    (tree : DerivationTree) : bool :=
  quantified_formula_might_match qfd_formula path_to_nonterminal tree
    (grammar self) (reachable self).

Definition in_variable_of (f : Formula) : option Arg :=
  match f with
  | ForallFormula _ t _ _ _ _ | ExistsFormula _ t _ _ => Some t
  | _ => None
  end.

Definition bound_variable_of (f : Formula) : option IslaVariable :=
  match f with
  | ForallFormula v _ _ _ _ _ | ExistsFormula v _ _ _
  | IntroduceNumericConstantFormula v _ => Some v
  | _ => None
  end.

(** The tree a quantifier ranges over; a variable there has none of
    the tree methods. *)
Definition in_tree (f : Formula) : Result DerivationTree :=
  match in_variable_of f with
  | Some (ArgTree t) => Ok t
  | _ => Raise AttributeError
  end.

(** [universal_formula.is_already_matched(tree)] *)
Definition is_already_matched (f : Formula) (t : DerivationTree) : bool :=
  match f with
  | ForallFormula _ _ _ _ matched _ => existsb (Z.eqb (id t)) matched
  | _ => false
  end.

(** [match[universal_formula.bound_variable][1]] *)
Definition bound_match (f : Formula) (m : Match) : Result DerivationTree :=
  match bound_variable_of f with
  | Some v =>
      match dict_get var_eqb m v with
      | Some (_, t) => Ok t
      | None => Raise KeyError
      end
  | None => Raise AttributeError
  end.

(** The matches whose bound tree has not been matched before. *)
Definition unmatched_matches (self : ISLaSolver) (universal_formula : Formula)
  : Result (list Match) :=
  let? pairs :=
    collect
      (map (fun m => let? t := bound_match universal_formula m in Ok (m, t))
         (matches_for_quantified_formula universal_formula (grammar self))) in
  Ok (map fst
        (List.filter
           (fun '(_, t) => negb (is_already_matched universal_formula t))
           pairs)).

Definition remove_nonmatching_universal_quantifiers (self : ISLaSolver)
    (state : SolutionState) : Result SolutionState :=
  fold_left
    (fun acc universal_formula =>
       let? result := acc in
       let? in_variable := in_tree universal_formula in
       if is_complete in_variable
          && match matches_for_quantified_formula universal_formula
                     (grammar self) with
             | [] => true
             | _ => false
             end
       then Ok (new_state
                  (replace_formula (constraint result) universal_formula
                     sc.true)
                  (tree result))
       else Ok result)
    (List.filter isinstance_ForallFormula (get_conjuncts (constraint state)))
    (Ok state).

Definition remove_infeasible_universal_quantifiers (self : ISLaSolver)
    (state : SolutionState) : Result SolutionState :=
  fold_left
    (fun acc universal_formula =>
       let? result := acc in
       if negb (isinstance_ForallFormula universal_formula) then Ok result
       else
         let? in_variable := in_tree universal_formula in
         if existsb
              (fun '(leaf_path, _) =>
                 ISLaSolver_quantified_formula_might_match self
                   universal_formula leaf_path in_variable)
              (open_leaves in_variable)
         then Ok result
         else
           let? unmatched := unmatched_matches self universal_formula in
           match unmatched with
           | [] =>
               Ok (new_state
                     (replace_formula (constraint result) universal_formula
                        sc.true)
                     (tree result))
           | _ => Ok result
           end)
    (get_conjuncts (constraint state))
    (Ok state).

Definition arg_trees (args : list Arg) : list DerivationTree :=
  flat_map (fun a => match a with ArgTree t => [t] | _ => [] end) args.

(** The checks behind [assertions_activated() or self.debug]: no tree
    named by a structural predicate or an SMT atom may be missing
    from the state's tree. *)
Definition no_dangling_arguments (state : SolutionState) : bool :=
  forallb
    (fun predicate_formula =>
       forallb (fun arg => bool_decide (is_Some (find_node (tree state) arg)))
         (arg_trees (predicate_args predicate_formula)))
    (FilterVisitor_collect isinstance_StructuralPredicateFormula
       (constraint state))
  && forallb
       (fun smt_formula =>
          match smt_formula with
          | SMT f =>
              forallb
                (fun arg => bool_decide (is_Some (find_node (tree state) arg)))
                (values (substitutions f))
          | _ => true
          end)
       (FilterVisitor_collect isinstance_SMTFormula (constraint state)).

(** [heapq.heappush]: the queue is kept as the list of its entries. *)
Definition heappush (entry : Q * SolutionState) : M unit :=
  modify (fun self => set_queue (queue self ++ [entry]) self).

Definition state_is_valid_or_enqueue (state : SolutionState) : M bool :=
  let* self := get in
  if complete state then
    let* _ := lift (py_assert (truth_is_true
                                 (formula_satisfied state (grammar self)))) in
    ret true
  else
    let* _ := lift (if assertions_activated self || debug self
                    then py_assert (no_dangling_arguments state)
                    else Ok tt) in
    if enforce_unique_trees_in_queue self
       && bool_decide (structural_hash (tree state) ∈ tree_hashes_in_queue self)
    then ret false
    else if formula_eqb (constraint state) sc.false then ret false
    else
      let state := {| constraint := constraint state; tree := tree state;
                      level := (current_level self + 1)%Z |} in
      let* cost := ISLaSolver_compute_cost state in
      let* _ := heappush (cost, state) in
      let* _ := modify (fun self =>
                  set_tree_hashes_in_queue
                    (tree_hashes_in_queue self
                       ∪ {[structural_hash (tree state)]}) self) in
      ret false.

Definition process_new_state (new_state : SolutionState)
  : M (list DerivationTree) :=
  let* self := get in
  let new_state := instantiate_structural_predicates new_state in
  let new_states := establish_invariant new_state in
  let* new_states :=
    lift (collect (map (remove_nonmatching_universal_quantifiers self)
                     new_states)) in
  let* new_states :=
    lift (collect (map (remove_infeasible_universal_quantifiers self)
                     new_states)) in
  let* valid := for_each new_states
                  (fun new_state =>
                     let* ok := state_is_valid_or_enqueue new_state in
                     ret (if ok then [tree new_state] else [])) in
  ret (concat valid).

Definition process_new_states (new_states : list SolutionState)
  : M (list DerivationTree) :=
  let* result := for_each new_states process_new_state in
  let* _ := modify (fun self =>
              set_covered_k_paths
                (fold_left
                   (fun covered tree =>
                      covered ∪ tree_k_paths tree (graph self)
                                  (k (cost_settings self)))
                   (map tree new_states) (covered_k_paths self))
                self) in
  let* _ := modify (fun self =>
              if bool_decide (covered_k_paths self
                              = graph_k_paths (graph self)
                                  (k (cost_settings self)))
              then set_covered_k_paths ∅ self
              else self) in
  ret (concat result).
End Core.

(** ** The rules of the main loop *)

(** [isla.helpers.dict_of_lists_to_list_of_dicts]: all ways of picking
    one value per key. *)
Fixpoint dict_of_lists_to_list_of_dicts {K V} (d : list (K * list V))
  : list (list (K * V)) :=
  match d with
  | [] => [[]]
  | (key, vs) :: d' =>
      flat_map (fun v => map (cons (key, v)) (dict_of_lists_to_list_of_dicts d'))
        vs
  end.

(** [sorted(xs, key=...)] with integer keys.  The sort is stable:
    elements with the same key keep their order. *)
Fixpoint insert_sorted {A} (key : A -> Z) (x : A) (sorted : list A) : list A :=
  match sorted with
  | [] => [x]
  | y :: ys =>
      if (key x <=? key y)%Z then x :: y :: ys
      else y :: insert_sorted key x ys
  end.

Definition sorted_by {A} (key : A -> Z) (xs : list A) : list A :=
  foldr (insert_sorted key) [] xs.

Section Rules.
Context `{IslaLanguage, GraphQueries, Runtime, SMTBridge}.

Definition instantiate_numeric_constant_intros (state : SolutionState)
  : option SolutionState :=
  let numeric_constant_introductions :=
    List.filter isinstance_IntroduceNumericConstantFormula
      (get_conjuncts (constraint state)) in
  match numeric_constant_introductions with
  | [] => None
  | _ =>
      let formula :=
        fold_left
          (fun formula numeric_constant_introduction =>
             match numeric_constant_introduction with
             | IntroduceNumericConstantFormula bound_variable inner_formula =>
                 let used_vars :=
                   remove_dups (VariablesCollector_collect formula) in
                 let fresh :=
                   fresh_constant used_vars
                     (Constant (name bound_variable) (n_type bound_variable)) in
                 let instantiation :=
                   substitute_variables inner_formula
                     [(bound_variable, fresh)] in
                 replace_formula formula numeric_constant_introduction
                   instantiation
             | _ => formula
             end)
          numeric_constant_introductions (constraint state) in
      Some (new_state formula (tree state))
  end.

(** [universal_formula.add_already_matched(trees)] *)
Definition add_already_matched (f : Formula) (trees : list DerivationTree)
  : Formula :=
  match f with
  | ForallFormula v t inner bind matched q =>
      ForallFormula v t inner bind
        (remove_dups (matched ++ map id trees)) q
  | _ => f
  end.

(** [{variable: match_tree for variable, (_, match_tree) in match.items()}] *)
Definition match_substitution (m : Match) : Substitution :=
  map (fun '(variable, (_, match_tree)) => (KeyConstant variable, match_tree)) m.

Definition match_universal_formulas (self : ISLaSolver)
    (universal_formulas : list Formula) (state : SolutionState)
  : Result (list SolutionState) :=
  let? '(number_matches, context_formula) :=
    fold_left
      (fun acc universal_formula =>
         let? '(number_matches, context_formula) := acc in
         let? matches := unmatched_matches self universal_formula in
         let? matched_trees :=
           collect (map (bound_match universal_formula) matches) in
         let universal_formula_with_matches :=
           add_already_matched universal_formula matched_trees in
         Ok (fold_left
               (fun '(number_matches, context_formula) m =>
                  let inst_formula :=
                    substitute_expressions
                      (default sc.true
                         (inner_formula_of universal_formula_with_matches))
                      (match_substitution m) in
                  (S number_matches,
                   inst_formula
                   & replace_formula context_formula universal_formula
                       universal_formula_with_matches))
               matches (number_matches, context_formula)))
      universal_formulas (Ok (0%nat, constraint state)) in
  match number_matches with
  | O => Ok []
  | _ => Ok [new_state context_formula (tree state)]
  end.

Definition match_all_universal_formulas (self : ISLaSolver)
    (state : SolutionState) : Result (option (list SolutionState)) :=
  let universal_formulas :=
    List.filter isinstance_ForallFormula
      (split_conjunction (constraint state)) in
  match universal_formulas with
  | [] => Ok None
  | _ =>
      let? result := match_universal_formulas self universal_formulas state in
      match result with
      | [] => Ok None
      | _ => Ok (Some result)
      end
  end.

Definition expand_tree (self : ISLaSolver) (iteration : nat)
    (state : SolutionState) : Result (list SolutionState) :=
  let? nonterminal_expansions :=
    collect
      (map
         (fun '(leaf_path, leaf_node) =>
            match grammar_get (grammar self) (value leaf_node) with
            | None => Raise KeyError
            | Some expansions =>
                Ok (leaf_path,
                    imap
                      (fun e expansion =>
                         imap
                           (fun c child =>
                              DTree child
                                (if is_nonterminal child then None else Some [])
                                (fresh_id (iteration :: length leaf_path
                                             :: leaf_path ++ [e; c])))
                           expansion)
                      expansions)
            end)
         (List.filter
            (fun '(leaf_path, _) =>
               existsb
                 (fun formula =>
                    ISLaSolver_quantified_formula_might_match self formula
                      leaf_path (tree state))
                 (List.filter isinstance_ForallFormula
                    (get_conjuncts (constraint state))))
            (open_leaves (tree state)))) in
  let possible_expansions :=
    dict_of_lists_to_list_of_dicts nonterminal_expansions in
  let? _ :=
    py_assert
      (Nat.eqb (length possible_expansions)
         (fold_left Nat.mul
            (map (fun '(_, vs) => length vs) nonterminal_expansions) 1%nat)) in
  match possible_expansions with
  | [[]] => Ok []
  | _ =>
      collect
        (map
           (fun possible_expansion =>
              let? expanded_tree :=
                fold_left
                  (fun acc '(path, new_children) =>
                     let? expanded_tree := acc in
                     match get_subtree expanded_tree path with
                     | None => Raise IndexError
                     | Some leaf_node =>
                         let expanded_tree :=
                           replace_path expanded_tree path
                             (DTree (value leaf_node) (Some new_children)
                                (id leaf_node)) in
                         let? _ :=
                           py_assert
                             (negb (tree_eqb expanded_tree (tree state))
                              && negb (Z.eqb (structural_hash expanded_tree)
                                         (structural_hash (tree state)))) in
                         Ok expanded_tree
                     end)
                  possible_expansion (Ok (tree state)) in
              let? substitution :=
                collect
                  (flat_map
                     (fun '(path, _) =>
                        map
                          (fun idx =>
                             match get_subtree (tree state) (take idx path),
                                   get_subtree expanded_tree (take idx path) with
                             | Some old, Some new => Ok (KeyTree old, new)
                             | _, _ => Raise IndexError
                             end)
                          (seq 0 (length path + 1)))
                     possible_expansion) in
              let updated_constraint :=
                substitute_expressions (constraint state)
                  (dict_of_items key_eqb substitution) in
              Ok (new_state updated_constraint expanded_tree))
           possible_expansions)
  end.

Definition rename_instantiated_variables_in_smt_formulas
    (smt_formulas : list SMTFormula) : list SMTFormula :=
  map
    (fun subformula =>
       let '(new_smt_formula, new_substitutions, new_instantiated_variables) :=
         fold_left
           (fun '(new_smt_formula, new_substitutions,
                  new_instantiated_variables) '(subst_var, subst_tree) =>
              let new_name :=
                value subst_tree +:+ "_" +:+ pretty (id subst_tree) in
              let new_var := BoundVariable new_name (n_type subst_var) in
              (z3_subst new_smt_formula [(to_smt subst_var, to_smt new_var)],
               dict_of_items var_eqb
                 (map (fun '(key, v) =>
                         (if var_eqb key subst_var then new_var else key, v))
                    new_substitutions),
               remove_dups
                 (map (fun v => if var_eqb v subst_var then new_var else v)
                    new_instantiated_variables)))
           (substitutions subformula)
           (formula subformula, substitutions subformula,
            instantiated_variables subformula) in
       {| formula := new_smt_formula;
          free_variables_ := free_variables_ subformula;
          instantiated_variables := new_instantiated_variables;
          substitutions := new_substitutions |})
    smt_formulas.

Definition smt_conjuncts (f : Formula) : list SMTFormula :=
  flat_map (fun c => match c with SMT s => [s] | _ => [] end) (get_conjuncts f).

Definition tree_part (solution : Substitution)
  : list (DerivationTree * DerivationTree) :=
  flat_map (fun '(key, v) => match key with
                             | KeyTree t => [(t, v)]
                             | KeyConstant _ => []
                             end) solution.

(** The loop that lifts a solution to all subtrees of the trees it
    replaces. *)
Definition with_subtrees (solution : Substitution) : Result Substitution :=
  fold_left
    (fun acc '(orig, subst) =>
       let? solution_with_subtrees := acc in
       match orig with
       | KeyConstant c =>
           if isinstance_Constant c
           then Ok (dict_set key_eqb solution_with_subtrees orig subst)
           else Raise AssertionError
       | KeyTree orig_tree =>
           fold_left
             (fun acc '(path, tree) =>
                let? d := acc in
                match get_subtree subst path with
                | None => Raise AssertionError
                | Some sub => Ok (dict_set key_eqb d (KeyTree tree) sub)
                end)
             (List.filter
                (fun '(_, t) =>
                   negb (bool_decide
                           (is_Some (dict_get key_eqb solution_with_subtrees
                                       (KeyTree t)))))
                (paths orig_tree))
             (Ok solution_with_subtrees)
       end)
    solution (Ok []).

Definition eliminate_semantic_formula (self : ISLaSolver)
    (semantic_formula : Formula) (state : SolutionState)
  : Result (list SolutionState) :=
  let? _ := py_assert (forallb isinstance_SMTFormula
                         (get_conjuncts semantic_formula)) in
  let smt_formulas :=
    rename_instantiated_variables_in_smt_formulas
      (smt_conjuncts semantic_formula) in
  let formula_clusters :=
    cluster_by_common_elements smt_formulas
      (fun smt_formula =>
         map KeyConstant (free_variables smt_formula
                          ++ instantiated_variables smt_formula)
         ++ map KeyTree
              (flat_map (fun tree => map snd (paths tree))
                 (values (substitutions smt_formula)))) in
  let? _ :=
    py_assert
      (forallb
         (fun smt_formula =>
            existsb
              (fun cluster =>
                 existsb (fun g => bool_decide (g = smt_formula)) cluster)
              formula_clusters)
         smt_formulas) in
  let? all_solutions :=
    collect
      (map (solve_quantifier_free_formula (max_number_smt_instantiations self))
         formula_clusters) in
  let solutions :=
    match all_solutions with
    | [only] => only
    | _ =>
        flat_map
          (fun '(i, solutions_1) =>
             flat_map
               (fun '(j, solutions_2) =>
                  if Nat.eqb i j then []
                  else map (fun '(solution_1, solution_2) =>
                              dict_union key_eqb solution_1 solution_2)
                         (zip solutions_1 solutions_2))
               (imap (fun j l => (j, l)) all_solutions))
          (imap (fun i l => (i, l)) all_solutions)
    end in
  let? solutions_with_subtrees := collect (map with_subtrees solutions) in
  Ok (map
        (fun solution =>
           match solution with
           | [] =>
               new_state
                 (replace_formula (constraint state) semantic_formula sc.true)
                 (tree state)
           | _ =>
               new_state
                 (substitute_expressions (constraint state) solution)
                 (tree_substitute (tree state) (tree_part solution))
           end)
        solutions_with_subtrees).

Definition is_true_smt (f : Formula) : bool :=
  match f with SMT s => z3.is_true (formula s) | _ => false end.

Definition eliminate_all_semantic_formulas (self : ISLaSolver)
    (state : SolutionState) : Result (option (list SolutionState)) :=
  let conjuncts := split_conjunction (constraint state) in
  let semantic_formulas :=
    List.filter
      (fun conjunct => isinstance_SMTFormula conjunct
                       && negb (is_true_smt conjunct))
      conjuncts in
  match semantic_formulas with
  | [] => Ok None
  | _ =>
      let prefix_conjunction := fold_left formula_and semantic_formulas sc.true in
      let new_disjunct :=
        prefix_conjunction
        & fold_left formula_and
            (List.filter
               (fun conjunct =>
                  negb (py_in formula_eqb conjunct semantic_formulas))
               conjuncts)
            sc.true in
      let? result :=
        eliminate_semantic_formula self prefix_conjunction
          (new_state new_disjunct (tree state)) in
      Ok (Some result)
  end.

Definition formula_order (f : Formula) : Z :=
  match f with SemanticPredicateFormula _ _ o => o | _ => 0%Z end.

Definition evaluate_semantic (f : Formula) (grammar : CanonicalGrammar)
  : SemPredEvalResult :=
  match f with
  | SemanticPredicateFormula predicate args _ =>
      semantic_predicate_evaluate predicate args grammar
  | _ => NotReady
  end.

Definition tree_substitution_keys
    (subst : list (DerivationTree * DerivationTree)) : Substitution :=
  map (fun '(old, new) => (KeyTree old, new)) subst.

(** The [for idx, semantic_predicate_formula in enumerate(...)] loop.
    A substitution found on the way is applied to the formulas still
    to come ([semantic_predicate_formulas[k]] for the later [k]); here
    they are kept in [pending] and applied, oldest first, when the
    formula is reached.  [inl] is the early return. *)
Fixpoint ready_predicates_loop (self : ISLaSolver)
    (semantic_predicate_formulas : list Formula)
    (pending : list Substitution)
    (result : SolutionState) (changed : bool)
  : SolutionState + SolutionState * bool :=
  match semantic_predicate_formulas with
  | [] => inr (result, changed)
  | listed :: rest =>
      let semantic_predicate_formula :=
        fold_left substitute_expressions pending listed in
      match evaluate_semantic semantic_predicate_formula (grammar self) with
      | NotReady => ready_predicates_loop self rest pending result changed
      | Decided false => inl (new_state sc.false (tree result))
      | Decided true =>
          ready_predicates_loop self rest pending
            (new_state
               (replace_formula (constraint result)
                  semantic_predicate_formula sc.true)
               (tree result))
            true
      | Binding evaluation_result =>
          let new_constraint :=
            substitute_expressions
              (replace_formula (constraint result)
                 semantic_predicate_formula sc.true)
              (tree_substitution_keys evaluation_result) in
          ready_predicates_loop self rest
            (pending ++ [tree_substitution_keys evaluation_result])
            (new_state new_constraint
               (tree_substitute (tree result) evaluation_result))
            true
      end
  end.

Definition eliminate_all_ready_semantic_predicate_formulas
    (self : ISLaSolver) (state : SolutionState) : option SolutionState :=
  let semantic_predicate_formulas :=
    List.filter
      (fun pred_formula =>
         isinstance_SemanticPredicateFormula pred_formula
         && forallb (fun arg => negb (is_variable arg))
              (predicate_args pred_formula))
      (FilterVisitor_collect isinstance_SemanticPredicateFormula
         (constraint state)) in
  let semantic_predicate_formulas :=
    sorted_by formula_order semantic_predicate_formulas in
  match semantic_predicate_formulas with
  | [] => None
  | _ =>
      match ready_predicates_loop self semantic_predicate_formulas [] state
              false with
      | inl early => Some early
      | inr (result, changed) => if changed then Some result else None
      end
  end.

Definition match_existential_formula (self : ISLaSolver)
    (existential_formula : Formula) (state : SolutionState)
  : list SolutionState :=
  map
    (fun m =>
       let inst_formula :=
         substitute_expressions
           (default sc.true (inner_formula_of existential_formula))
           (match_substitution m) in
       new_state
         (inst_formula
          & replace_formula (constraint state) existential_formula sc.true)
         (tree state))
    (matches_for_quantified_formula existential_formula (grammar self)).

Definition bind_expression_of (f : Formula) : option BindExpression :=
  match f with
  | ForallFormula _ _ _ b _ _ | ExistsFormula _ _ _ b => b
  | _ => None
  end.

(** The trees named by structural predicates and SMT atoms among the
    conjuncts that the tree no longer contains. *)
Definition lost_arguments (state : SolutionState) : bool :=
  existsb
    (fun invstate =>
       existsb
         (fun conjunct =>
            match conjunct with
            | StructuralPredicateFormula _ args =>
                existsb (fun arg => bool_decide
                                      (find_node (tree invstate) arg = None))
                  (arg_trees args)
            | _ => false
            end)
         (get_conjuncts (constraint invstate))
       || existsb
            (fun conjunct =>
               match conjunct with
               | SMT f =>
                   existsb (fun arg => bool_decide
                                         (find_node (tree invstate) arg = None))
                     (values (substitutions f))
               | _ => false
               end)
            (get_conjuncts (constraint state)))
    (establish_invariant state).

Definition eliminate_existential_formula (self : ISLaSolver)
    (iteration : nat) (existential_formula : Formula) (state : SolutionState)
  : Result (list SolutionState) :=
  match existential_formula with
  | ExistsFormula bound_variable in_variable inner_formula bind_expression =>
      let inserted_trees_and_bind_paths :=
        match bind_expression with
        | Some b => to_tree_prefix b (n_type bound_variable) (grammar self)
        | None =>
            [(DTree (n_type bound_variable) None (fresh_id [iteration]), [])]
        end in
      let? per_tree :=
        collect
          (map
             (fun '(inserted_tree, bind_expr_paths) =>
                let insertion_results :=
                  insert_tree (grammar self) inserted_tree in_variable
                    (graph self)
                    (max_number_tree_insertion_results self * 2) in
                let? keyed :=
                  collect
                    (map (fun t =>
                            let? c := compute_tree_closing_cost t
                                        (symbol_costs self) in
                            Ok (c, t))
                       insertion_results) in
                let insertion_results :=
                  take (max_number_tree_insertion_results self)
                    (map snd (sorted_by fst keyed)) in
                collect
                  (map
                     (fun insertion_result =>
                        let? in_tree :=
                          match in_variable with
                          | ArgTree t => Ok t
                          | _ => Raise AttributeError
                          end in
                        let? position :=
                          match find_node (tree state) in_tree with
                          | Some p => Ok p
                          | None => Raise AttributeError
                          end in
                        let resulting_tree :=
                          replace_path (tree state) position insertion_result in
                        let tree_substitution :=
                          flat_map
                            (fun '(original_path, original_tree) =>
                               match get_subtree resulting_tree original_path with
                               | Some sub =>
                                   if String.eqb (value original_tree) (value sub)
                                      && negb (structurally_equal sub
                                                 original_tree)
                                   then [(original_tree, sub)]
                                   else []
                               | None => []
                               end)
                            (paths (tree state)) in
                        let? _ :=
                          py_assert
                            (bool_decide
                               (is_Some (find_node insertion_result
                                           inserted_tree))) in
                        let bound := bind_variables bind_expression in
                        let? _ :=
                          (if assertions_activated self
                           then
                             py_assert
                               (forallb
                                  (fun '(var, path) =>
                                     negb (bool_decide (var ∈ bound))
                                     || match get_subtree inserted_tree path with
                                        | Some sub =>
                                            bool_decide
                                              (is_Some
                                                 (find_node insertion_result sub))
                                        | None => false
                                        end)
                                  bind_expr_paths)
                           else Ok tt) in
                        let? bound_substitutions :=
                          collect
                            (map
                               (fun '(var, path) =>
                                  match get_subtree inserted_tree path with
                                  | Some sub => Ok (KeyConstant var, sub)
                                  | None => Raise IndexError
                                  end)
                               (List.filter
                                  (fun '(var, _) => bool_decide (var ∈ bound))
                                  bind_expr_paths)) in
                        let variable_substitutions :=
                          dict_of_items key_eqb
                            ((KeyConstant bound_variable, inserted_tree)
                               :: bound_substitutions) in
                        let instantiated_formula :=
                          substitute_expressions inner_formula
                            variable_substitutions in
                        let new_tree :=
                          tree_substitute (tree state) tree_substitution in
                        let new_formula :=
                          instantiated_formula
                          & substitute_expressions (orig_formula self)
                              [(KeyConstant (top_constant self), new_tree)]
                          & substitute_expressions
                              (replace_formula (constraint state)
                                 existential_formula sc.true)
                              (tree_substitution_keys tree_substitution) in
                        let result_state := new_state new_formula new_tree in
                        let? _ :=
                          (if assertions_activated self || debug self
                           then py_assert (negb (lost_arguments result_state))
                           else Ok tt) in
                        Ok result_state)
                     insertion_results))
             inserted_trees_and_bind_paths) in
      Ok (concat per_tree)
  | _ => Raise AttributeError
  end.

Definition eliminate_first_match_all_existential_formulas
    (self : ISLaSolver) (iteration : nat) (state : SolutionState)
  : Result (option (list SolutionState)) :=
  let existential_formulas :=
    List.filter isinstance_ExistsFormula
      (split_conjunction (constraint state)) in
  match existential_formulas with
  | [] => Ok None
  | first :: _ =>
      let new_states :=
        fold_left
          (fun new_states existential_formula =>
             flat_map
               (fun s =>
                  match match_existential_formula self existential_formula s with
                  | [] => [s]
                  | match_result => match_result
                  end)
               (rev new_states))
          existential_formulas [state] in
      let new_states :=
        match new_states with
        | [only] => if state_eqb only state then [] else new_states
        | _ => new_states
        end in
      let complete_states :=
        List.filter
          (fun s => complete s || formula_eqb (constraint s) sc.true)
          new_states in
      match complete_states with
      | [] =>
          let? elimination_result :=
            eliminate_existential_formula self iteration first state in
          Ok (Some (new_states ++ elimination_result))
      | _ => Ok (Some complete_states)
      end
  end.

(** The last step of the loop body: complete the open leaves with the
    fuzzer, [max_number_free_instantiations] times.  Each inner list
    is handed to [process_new_states] in a call of its own. *)
Definition free_instantiations (self : ISLaSolver) (iteration : nat)
    (state : SolutionState) : Result (list (list SolutionState)) :=
  let? _ :=
    py_assert
      (formula_eqb (constraint state) sc.true
       || forallb isinstance_SemanticPredicateFormula
            (get_conjuncts (constraint state))) in
  let? _ :=
    py_assert
      (formula_eqb (constraint state) sc.true
       || forallb
            (fun pred_formula =>
               forallb (fun '(_, leaf) => negb (binds_tree pred_formula leaf))
                 (open_leaves (tree state)))
            (List.filter isinstance_SemanticPredicateFormula
               (get_conjuncts (constraint state)))) in
  let leaves := open_leaves (tree state) in
  let instance round idx leaf :=
    fuzzer_expand_tree iteration (round * length leaves + idx) (value leaf) in
  if formula_eqb (constraint state) sc.true then
    Ok (map
          (fun round =>
             let result :=
               fold_left
                 (fun result '(idx, (path, leaf)) =>
                    replace_path result path (instance round idx leaf))
                 (imap (fun idx pl => (idx, pl)) leaves) (tree state) in
             [new_state (constraint state) result])
          (seq 0 (max_number_free_instantiations self)))
  else
    Ok (flat_map
          (fun round =>
             let substitutions :=
               imap (fun idx '(path, subtree) =>
                       (subtree, instance round idx subtree))
                 leaves in
             match substitutions with
             | [] => []
             | _ =>
                 [[new_state
                     (substitute_expressions (constraint state)
                        (tree_substitution_keys substitutions))
                     (tree_substitute (tree state) substitutions)]]
             end)
          (seq 0 (max_number_free_instantiations self))).
End Rules.

(** ** The main loop *)

(** The rules of the loop body, in the order of the source. *)
Inductive Rule :=
| StructuralPredicates
| NumericConstantIntroduction
| UniversalMatching
| Expansion
| SMTElimination
| SemanticPredicates
| ExistentialElimination
| FreeFuzzing.

#[global] Instance Rule_eq_dec : EqDecision Rule.
Proof. solve_decision. Defined.

(** What a rule hands on: one state for [process_new_state], or lists
    of states, each for one call of [process_new_states]. *)
Inductive Successors :=
| ForProcessNewState (state : SolutionState)
| ForProcessNewStates (batches : list (list SolutionState)).

Section MainLoop.
Context `{IslaLanguage, GraphQueries, Runtime, SMTBridge}.

(** Tuple comparison of heap entries: by cost, then by the hash of
    the state. *)
Definition entry_lt (a b : Q * SolutionState) : bool :=
  negb (Qle_bool (fst b) (fst a))
  || (Qeq_bool (fst a) (fst b)
      && (hash_state (snd a) <? hash_state (snd b))%Z).

(** The position of a least entry (the first one, if there are
    several). *)
Definition least_index (q : list (Q * SolutionState)) : option nat :=
  match q with
  | [] => None
  | e :: rest =>
      let '(best_idx, _, _) :=
        fold_left
          (fun '(best_idx, best, idx) entry =>
             if entry_lt entry best then (idx, entry, S idx)
             else (best_idx, best, S idx))
          rest (0%nat, e, 1%nat) in
      Some best_idx
  end.

(** [heapq.heappop] *)
Definition heappop (q : list (Q * SolutionState))
  : option ((Q * SolutionState) * list (Q * SolutionState)) :=
  match least_index q with
  | Some idx =>
      match q !! idx with
      | Some entry => Some (entry, delete idx q)
      | None => None
      end
  | None => None
  end.

(** The chain of [if ... continue] in the loop body, applied to the
    state left by [instantiate_structural_predicates]. *)
Definition apply_rules (self : ISLaSolver) (iteration : nat)
    (state : SolutionState) : Result (Rule * Successors) :=
  match instantiate_numeric_constant_intros state with
  | Some result_state =>
      Ok (NumericConstantIntroduction, ForProcessNewState result_state)
  | None =>
      let? result_states := match_all_universal_formulas self state in
      match result_states with
      | Some result_states =>
          Ok (UniversalMatching, ForProcessNewStates [result_states])
      | None =>
          if existsb isinstance_ForallFormula
               (get_conjuncts (constraint state))
          then
            let? expanded_states := expand_tree self iteration state in
            let? _ := py_assert (0 <? length expanded_states)%nat in
            Ok (Expansion, ForProcessNewStates [expanded_states])
          else
            let? result_states := eliminate_all_semantic_formulas self state in
            match result_states with
            | Some result_states =>
                Ok (SMTElimination, ForProcessNewStates [result_states])
            | None =>
                match eliminate_all_ready_semantic_predicate_formulas
                        self state with
                | Some result_state =>
                    Ok (SemanticPredicates, ForProcessNewState result_state)
                | None =>
                    let? result_states :=
                      eliminate_first_match_all_existential_formulas
                        self iteration state in
                    match result_states with
                    | Some result_states =>
                        Ok (ExistentialElimination,
                            ForProcessNewStates [result_states])
                    | None =>
                        let? batches :=
                          free_instantiations self iteration state in
                        Ok (FreeFuzzing, ForProcessNewStates batches)
                    end
                end
            end
      end
  end.

(** [yield from self.process_new_state(...)] and
    [yield from self.process_new_states(...)] *)
Definition process_successors (successors : Successors)
  : M (list DerivationTree) :=
  match successors with
  | ForProcessNewState state => process_new_state state
  | ForProcessNewStates batches =>
      let* yielded := for_each batches process_new_states in
      ret (concat yielded)
  end.

(** One round of [while self.queue], past the timeout check: the rule
    that produced the successors (none if the state was dropped) and
    the trees yielded. *)
Definition solve_iteration (iteration : nat)
  : M (option Rule * list DerivationTree) :=
  let* self := get in
  match heappop (queue self) with
  | None => lift (Raise IndexError)
  | Some ((cost, state), rest) =>
      let* _ := modify (set_queue rest) in
      let* _ := modify (set_current_level (level state)) in
      let* _ := modify (fun self =>
                  set_tree_hashes_in_queue
                    (tree_hashes_in_queue self
                       ∖ {[structural_hash (tree state)]}) self) in
      let* _ := lift (py_assert
                        (negb (isinstance_DisjunctiveFormula
                                 (constraint state)))) in
      let state := instantiate_structural_predicates state in
      if formula_eqb (constraint state) sc.false then ret (None, [])
      else
        let* self := get in
        let* '(rule, successors) := lift (apply_rules self iteration state) in
        let* yielded := process_successors successors in
        ret (Some rule, yielded)
  end.

(** The generator [solve], run for at most [rounds] rounds of its
    loop: the trees it yields on the way, in order. *)
Fixpoint solve_loop (rounds : nat) (iteration : nat) (start_time : Z)
  : M (list DerivationTree) :=
  match rounds with
  | O => ret []
  | S rounds' =>
      let* self := get in
      match queue self with
      | [] => ret []
      | _ =>
          if match timeout_seconds self with
             | Some timeout =>
                 (time_time (S iteration) - start_time >? timeout)%Z
             | None => false
             end
          then ret []
          else
            let* '(_, yielded) := solve_iteration iteration in
            let* later := solve_loop rounds' (S iteration) start_time in
            ret (yielded ++ later)
      end
  end.

Definition solve (rounds : nat) : M (list DerivationTree) :=
  solve_loop rounds 0 (time_time 0).
End MainLoop.

(** ** Construction *)

Section Construction.
Context `{IslaLanguage, GraphQueries, Runtime, SMTBridge, CostProbe}.

(** The distinct non-numeric constants of a formula. *)
Definition top_constants (formula : Formula) : list IslaVariable :=
  remove_dups
    (List.filter (fun c => isinstance_Constant c && negb (is_numeric c))
       (VariablesCollector_collect formula)).

(** [ISLaSolver.__init__]; the outer [option] is [None] only if
    [compute_symbol_costs] ran out of fuel. *)
Definition ISLaSolver_init
    (grammar : CanonicalGrammar) (formula : Formula + string)
    (max_number_free_instantiations max_number_smt_instantiations
       max_number_tree_insertion_results : nat)
    (enforce_unique_trees_in_queue precompute_reachability debug
       assertions_activated : bool)
    (cost_settings : CostSettings) (timeout_seconds : option Z)
  : option (Result ISLaSolver) :=
  let graph := from_grammar grammar in
  match compute_symbol_costs grammar graph with
  | None => None
  | Some (Raise e) => Some (Raise e)
  | Some (Ok symbol_costs) =>
      Some (
        let formula :=
          match formula with
          | inl f => f
          | inr text => parse_isla text
          end in
        let self_formula := ensure_unique_bound_variables formula in
        let top_constants := top_constants self_formula in
        let? _ := py_assert (Nat.eqb (length top_constants) 1) in
        match top_constants with
        | [] => Raise IndexError
        | top_constant :: _ =>
            let quantifier_chains :=
              List.filter (fun c => match c with [] => false | _ => true end)
                (map (List.filter isinstance_ForallFormula)
                   (get_quantifier_chains formula)) in
            let initial_tree :=
              DTree (n_type top_constant) None (fresh_id []) in
            let initial_formula :=
              substitute_expressions self_formula
                [(KeyConstant top_constant, initial_tree)] in
            let initial_state := new_state initial_formula initial_tree in
            let initial_states := establish_invariant initial_state in
            let self :=
              {| grammar := grammar; graph := graph;
                 symbol_costs := symbol_costs;
                 timeout_seconds := timeout_seconds;
                 orig_formula := self_formula;
                 top_constant := top_constant;
                 quantifier_chains := quantifier_chains;
                 max_number_free_instantiations :=
                   max_number_free_instantiations;
                 max_number_smt_instantiations :=
                   max_number_smt_instantiations;
                 max_number_tree_insertion_results :=
                   max_number_tree_insertion_results;
                 enforce_unique_trees_in_queue :=
                   enforce_unique_trees_in_queue;
                 cost_settings := cost_settings;
                 precompute_reachability := precompute_reachability;
                 node_distances :=
                   if precompute_reachability
                   then shortest_distances graph else [];
                 debug := debug;
                 assertions_activated := assertions_activated;
                 current_cost_phase := 0;
                 current_cost_phase_since := 0;
                 covered_k_paths := ∅;
                 queue := [];
                 tree_hashes_in_queue := {[structural_hash initial_tree]};
                 current_level := 0 |} in
            let? '(_, self) :=
              for_each initial_states
                (fun state =>
                   let* cost := ISLaSolver_compute_cost state in
                   heappush (cost, state))
                self in
            Ok self
        end)
  end.
End Construction.

(** ** A small world to run the solver in

    Grammar [<start> ::= "a"] and the constraint
    [same_position(start, start)], where [same_position] is a structural
    predicate supplied by the user that compares the paths of its two
    arguments (the repository ships [before] and [after], written the
    same way).  The collaborators are the simplest
    ones that behave like the real ones on this grammar: the matcher
    binds the variable of a quantifier without match expression to the
    nodes of its type, substitution moves the variables of an SMT atom
    to the trees they stand for and evaluates an atom that has become
    ground, the fuzzer closes [<start>] with its only alternative, and
    a k-path runs over [k] symbols along the edges of the grammar
    graph, with the choice nodes between them. *)

Module TinyWorld.
(** [str(tree)] *)
Fixpoint tree_text (t : DerivationTree) {struct t} : string :=
  match t with
  | DTree v None _ => v
  | DTree v (Some []) _ => if is_nonterminal v then "" else v
  | DTree _ (Some l) _ =>
      (fix go (l : list DerivationTree) : string :=
         match l with
         | [] => ""
         | x :: xs => tree_text x +:+ go xs
         end) l
  end.

(** [z3.substitute]: the subterms that are keys of the pairs become
    their values. *)
Fixpoint z3_substitute (e : z3.ExprRef)
    (pairs : list (z3.ExprRef * z3.ExprRef)) {struct e} : z3.ExprRef :=
  match List.find (fun '(old, _) => bool_decide (old = e)) pairs with
  | Some (_, new) => new
  | None =>
      match e with
      | z3.Eq a b => z3.Eq (z3_substitute a pairs) (z3_substitute b pairs)
      | z3.Not a => z3.Not (z3_substitute a pairs)
      | z3.Or args =>
          z3.Or ((fix go (l : list z3.ExprRef) : list z3.ExprRef :=
                    match l with
                    | [] => []
                    | x :: xs => z3_substitute x pairs :: go xs
                    end) args)
      | z3.And args =>
          z3.And ((fix go (l : list z3.ExprRef) : list z3.ExprRef :=
                     match l with
                     | [] => []
                     | x :: xs => z3_substitute x pairs :: go xs
                     end) args)
      | z3.InRe a re => z3.InRe (z3_substitute a pairs) re
      | z3.App fn args =>
          z3.App fn ((fix go (l : list z3.ExprRef) : list z3.ExprRef :=
                        match l with
                        | [] => []
                        | x :: xs => z3_substitute x pairs :: go xs
                        end) args)
      | _ => e
      end
  end.

(** [is_valid] on a ground formula built from equalities between
    string literals; [None] for anything else. *)
Fixpoint ground_value (e : z3.ExprRef) {struct e} : option bool :=
  match e with
  | z3.BoolVal b => Some b
  | z3.Eq (z3.StringVal a) (z3.StringVal b) => Some (String.eqb a b)
  | z3.Not a => option_map negb (ground_value a)
  | z3.And args =>
      (fix go (l : list z3.ExprRef) : option bool :=
         match l with
         | [] => Some true
         | x :: xs =>
             match ground_value x, go xs with
             | Some b, Some b' => Some (b && b')
             | _, _ => None
             end
         end) args
  | z3.Or args =>
      (fix go (l : list z3.ExprRef) : option bool :=
         match l with
         | [] => Some false
         | x :: xs =>
             match ground_value x, go xs with
             | Some b, Some b' => Some (b || b')
             | _, _ => None
             end
         end) args
  | _ => None
  end.

(** [SMTFormula.substitute_expressions]: a free variable that is a key
    becomes an instantiated variable with its tree, the trees of the
    instantiated variables are updated, a closed tree is written into
    the formula as its string, and a formula left without variables is
    evaluated. *)
Definition substitute_smt (s : SMTFormula) (subst : Substitution) : Formula :=
  let tree_subst_map :=
    flat_map (fun '(key, v) => match key with
                               | KeyTree t => [(t, v)]
                               | KeyConstant _ => []
                               end) subst in
  let var_subst_map :=
    flat_map (fun v => match dict_get key_eqb subst (KeyConstant v) with
                       | Some t => [(v, t)]
                       | None => []
                       end) (free_variables_ s) in
  let updated_substitutions :=
    map (fun '(v, t) => (v, tree_substitute t tree_subst_map))
      (substitutions s) in
  let new_substitutions :=
    dict_union var_eqb updated_substitutions var_subst_map in
  let complete_substitutions :=
    List.filter (fun '(_, t) => is_complete t) new_substitutions in
  let new_substitutions :=
    List.filter (fun '(_, t) => negb (is_complete t)) new_substitutions in
  let new_instantiated_variables :=
    List.filter
      (fun v => negb (existsb (var_eqb v) (map fst complete_substitutions)))
      (remove_dups (instantiated_variables s ++ map fst new_substitutions)) in
  let new_smt_formula :=
    z3_substitute (formula s)
      (map (fun '(v, t) => (to_smt v, z3.StringVal (tree_text t)))
         complete_substitutions) in
  let new_free_variables :=
    List.filter
      (fun v => negb (bool_decide
                        (is_Some (dict_get key_eqb subst (KeyConstant v)))))
      (free_variables_ s) in
  match new_free_variables, new_instantiated_variables,
        ground_value new_smt_formula with
  | [], [], Some b => sc.smt_atom (z3.BoolVal b)
  | _, _, _ =>
      SMT {| formula := new_smt_formula;
             free_variables_ := new_free_variables;
             instantiated_variables := new_instantiated_variables;
             substitutions := new_substitutions |}
  end.

Definition grammar : CanonicalGrammar := [("<start>", [["a"]])].

Definition graph : gg.GrammarGraph :=
  {| gg.root := "<start>";
     gg.all_nodes :=
       [{| gg.symbol := "<start>"; gg.class := gg.NonterminalNode;
           gg.children := ["<start>-choice-1"] |};
        {| gg.symbol := "<start>-choice-1"; gg.class := gg.ChoiceNode;
           gg.children := ["a"] |};
        {| gg.symbol := "a"; gg.class := gg.TerminalNode;
           gg.children := [] |}] |}.

Definition start : IslaVariable := Constant "start" "<start>".

Definition formula : Formula :=
  StructuralPredicateFormula "same_position"
    [ArgVariable start; ArgVariable start].

Definition substitute_arg (subst : Substitution) (a : Arg) : Arg :=
  match a with
  | ArgVariable v =>
      match dict_get key_eqb subst (KeyConstant v) with
      | Some t => ArgTree t
      | None => a
      end
  | ArgTree t =>
      match List.find (fun '(key, _) =>
                         match key with
                         | KeyTree old => Z.eqb (id old) (id t)
                         | KeyConstant _ => false
                         end) subst with
      | Some (_, new) => ArgTree new
      | None => a
      end
  | ArgLiteral _ => a
  end.

Fixpoint substitute (f : Formula) (subst : Substitution) : Formula :=
  match f with
  | StructuralPredicateFormula p args =>
      StructuralPredicateFormula p (map (substitute_arg subst) args)
  | SemanticPredicateFormula p args o =>
      SemanticPredicateFormula p (map (substitute_arg subst) args) o
  | ForallFormula v t inner bind matched q =>
      ForallFormula v (substitute_arg subst t) (substitute inner subst)
        bind matched q
  | ExistsFormula v t inner bind =>
      ExistsFormula v (substitute_arg subst t) (substitute inner subst) bind
  | IntroduceNumericConstantFormula v inner =>
      IntroduceNumericConstantFormula v (substitute inner subst)
  | ConjunctiveFormula a b =>
      ConjunctiveFormula (substitute a subst) (substitute b subst)
  | DisjunctiveFormula a b =>
      DisjunctiveFormula (substitute a subst) (substitute b subst)
  | NegatedFormula a => NegatedFormula (substitute a subst)
  | SMT s => substitute_smt s subst
  end.

(** [matches_for_quantified_formula] without match expression: one
    match for every node of the tree that carries the type of the bound
    variable. *)
Definition matches (f : Formula) : list Match :=
  match f with
  | ForallFormula v (ArgTree t) _ None _ _ | ExistsFormula v (ArgTree t) _ None =>
      map (fun '(path, subtree) => [(v, (path, subtree))])
        (List.filter
           (fun '(_, subtree) => String.eqb (value subtree) (n_type v))
           (paths t))
  | _ => []
  end.

(** [quantified_formula_might_match] without match expression: the
    node lies in the tree the quantifier ranges over, has not been
    matched, and carries or reaches the type of the bound variable. *)
Definition might_match (f : Formula) (path_to_nonterminal : Path)
    (tree : DerivationTree) (reachable : string -> string -> bool) : bool :=
  match get_subtree tree path_to_nonterminal, f with
  | Some node, ForallFormula v (ArgTree t) _ _ _ _
  | Some node, ExistsFormula v (ArgTree t) _ _ =>
      bool_decide (is_Some (find_node t node))
      && negb (is_already_matched f node)
      && (String.eqb (n_type v) (value node) || reachable (value node) (n_type v))
  | _, _ => false
  end.

#[local] Instance language : IslaLanguage :=
  {| parse_isla _ := formula;
     ensure_unique_bound_variables f := f;
     substitute_expressions := substitute;
     substitute_variables f _ := f;
     fresh_constant _ c := c;
     evaluate f _ _ :=
       if formula_eqb f sc.true then TruthTrue
       else if formula_eqb f sc.false then TruthFalse
       else TruthUnknown;
     structural_predicate_evaluate predicate args tree :=
       String.eqb predicate "same_position"
       && match args with
          | [ArgTree t1; ArgTree t2] =>
              bool_decide (find_node tree t1 = find_node tree t2)
          | _ => false
          end;
     semantic_predicate_evaluate _ _ _ := NotReady;
     binds_tree _ _ := false;
     matches_for_quantified_formula f _ := matches f;
     quantified_formula_might_match f path tree _ reachable :=
       might_match f path tree reachable;
     to_tree_prefix _ _ _ := [];
     insert_tree _ _ _ _ _ := [];
     instantiate_top_constant f t := substitute f [(KeyConstant start, t)];
     vacuously_satisfied _ _ _ := [] |}.

(** All sequences of [n] nodes that follow the edges of the graph from
    the given node. *)
Fixpoint walks (g : gg.GrammarGraph) (n : nat) (from : string)
  : list (list string) :=
  match n with
  | O => [[]]
  | S n' =>
      map (cons from)
        (match n' with
         | O => [[]]
         | _ =>
             flat_map (walks g n')
               (match gg.get_node g from with
                | Some node => gg.children node
                | None => []
                end)
         end)
  end.

(** [graph.k_paths(k)]: a k-path has [k] symbols and the [k - 1] choice
    nodes between them, and starts at a symbol. *)
Definition k_paths_of_graph (g : gg.GrammarGraph) (k : nat)
  : gset (list string) :=
  match k with
  | O => ∅
  | S _ =>
      list_to_set
        (flat_map (fun node => walks g (2 * k - 1) (gg.symbol node))
           (List.filter (fun node => negb (gg.isinstance_ChoiceNode node))
              (gg.all_nodes g)))
  end.

(** The choice node a node of a tree went through: the alternative of
    its symbol that expands to the symbols of its children. *)
Definition choice_of (g : gg.GrammarGraph) (t : DerivationTree)
  : option string :=
  match children t, gg.get_node g (value t) with
  | Some cs, Some node =>
      List.find
        (fun choice =>
           match gg.get_node g choice with
           | Some choice_node =>
               bool_decide (gg.children choice_node = map value cs)
           | None => false
           end)
        (gg.children node)
  | _, _ => None
  end.

(** Every node of the tree is a symbol of the graph, and every expanded
    nonterminal went through one of its alternatives. *)
Definition is_derivation (g : gg.GrammarGraph) (t : DerivationTree) : bool :=
  forallb
    (fun node =>
       match gg.get_node g (value node), children node with
       | None, _ => false
       | Some _, None => true
       | Some graph_node, Some cs =>
           match gg.class graph_node with
           | gg.TerminalNode => bool_decide (cs = [])
           | _ => bool_decide (is_Some (choice_of g node))
           end
       end)
    (tree_nodes t).

(** The paths of [k] symbols down the tree from the given node, the
    choice nodes written between the symbols. *)
Fixpoint tree_walks (g : gg.GrammarGraph) (k : nat) (t : DerivationTree)
  : list (list string) :=
  match k with
  | O => []
  | S k' =>
      match k' with
      | O => [[value t]]
      | _ =>
          match children t, choice_of g t with
          | Some cs, Some choice =>
              map (fun walk => value t :: choice :: walk)
                (flat_map (tree_walks g k') cs)
          | _, _ => []
          end
      end
  end.

Definition k_paths_of_tree (t : DerivationTree) (g : gg.GrammarGraph) (k : nat)
  : gset (list string) :=
  k_paths_of_graph g k
  ∩ list_to_set (flat_map (tree_walks g k) (tree_nodes t)).

(** The length of a shortest path along the edges, within so many
    steps. *)
Fixpoint distance_within (g : gg.GrammarGraph) (steps : nat)
    (from to : string) : option Z :=
  if String.eqb from to then Some 0%Z
  else
    match steps with
    | O => None
    | S steps' =>
        match omap (fun child => distance_within g steps' child to)
                (match gg.get_node g from with
                 | Some node => gg.children node
                 | None => []
                 end) with
        | [] => None
        | d :: ds => Some (1 + fold_left Z.min ds d)%Z
        end
    end.

#[local] Instance queries : GraphQueries :=
  {| graph_k_paths := k_paths_of_graph;
     tree_k_paths := k_paths_of_tree;
     k_coverage t g k :=
       if negb (is_derivation g t) then Raise RuntimeError
       else if (size (k_paths_of_graph g k) =? 0)%nat
       then Raise ZeroDivisionError
       else Ok (Qred (inject_Z (Z.of_nat (size (k_paths_of_tree t g k)))
                      / inject_Z (Z.of_nat (size (k_paths_of_graph g k)))));
     dijkstra_distance g from to :=
       match gg.get_node g from, gg.get_node g to with
       | Some _, Some _ =>
           Some (default 9223372036854775807%Z
                   (distance_within g (length (gg.all_nodes g)) from to))
       | _, _ => None
       end;
     from_grammar _ := graph;
     shortest_distances _ := [] |}.

Fixpoint shape_size (s : Shape) {struct s} : Z :=
  match s with
  | ShapeNode v None => Z.of_nat (String.length v)
  | ShapeNode v (Some l) =>
      (fix go (l : list Shape) : Z :=
         match l with
         | [] => 1 + Z.of_nat (String.length v)
         | x :: xs => 31 * shape_size x + go xs
         end)%Z l
  end.

#[local] Instance runtime : Runtime :=
  {| hash_shape := shape_size;
     hash_state s := shape_size (shape (tree s));
     time_time _ := 0%Z;
     fl q := Qred q;
     weighted_geometric_mean costs ws :=
       if forallb (fun w => Qle_bool 0 w) ws
       then Ok (Qred (fold_left Qplus (zip_with Qmult costs ws) 0%Q))
       else Raise AssertionError;
     prod_pow xs _ := Qred (fold_left Qmult xs 1%Q);
     fuzzer_expand_tree iteration call symbol :=
       DTree symbol
         (Some [DTree "a" (Some [])
                  (1000 * Z.of_nat iteration + 2 * Z.of_nat call + 101)%Z])
         (1000 * Z.of_nat iteration + 2 * Z.of_nat call + 100)%Z;
     cluster_by_common_elements fs _ := [fs];
     z3_subst := z3_substitute;
     sys_maxsize := 9223372036854775807%Z;
     fresh_id site := Z.of_nat (length site) |}.

#[local] Instance probe : CostProbe :=
  {| probe_tree nonterminal :=
       DTree nonterminal (Some [DTree "a" (Some []) 0%Z]) 0%Z |}.

#[local] Instance bridge : SMTBridge := ScenarioS1.bridge.

Definition cost_settings (k : nat) : CostSettings :=
  {| weight_vectors := weight_vectors STD_COST_SETTINGS;
     cost_phase_lengths := cost_phase_lengths STD_COST_SETTINGS;
     k := k |}.

(** [ISLaSolver(grammar, formula)] with the default arguments, the
    value of [k] apart. *)
Definition solver (k : nat) : option (Result ISLaSolver) :=
  ISLaSolver_init grammar (inl formula) 10 10 5 true false false true
    (cost_settings k) None.

Definition a_tree (i : Z) : DerivationTree :=
  DTree "<start>" (Some [DTree "a" (Some []) (i + 1)%Z]) i.

(** Build the solver and run its main loop for some rounds. *)
Definition run (k rounds : nat)
  : option (Result (list DerivationTree * ISLaSolver)) :=
  match solver k with
  | Some (Ok self) => Some (solve rounds self)
  | Some (Raise e) => Some (Raise e)
  | None => None
  end.
End TinyWorld.

(** ** Vocabulary of the statements *)

Functional Scheme smt_loop_ind := Induction for smt_loop Sort Prop.

Section SolveQuantifierFreeVocabulary.
Context `{SMTBridge}.

(** The formulas the loop works on: the conflicting ones, if any. *)
Definition solved_formulas (smt_formulas : list SMTFormula) : list SMTFormula :=
  match get_conflicts smt_formulas with
  | [] => smt_formulas
  | conflicts => conflicts
  end.

(** [q] was answered sat with a model from which [s] was built. *)
Definition answered_with
    (ts : list (IslaVariable * DerivationTree)) (cs : list IslaVariable)
    (q : list z3.ExprRef) (s : Solution) : Prop :=
  exists model round,
    z3_solve q = (z3.sat, Some model) /\
    new_solution_of round ts cs model = Ok s.

(** No earlier solution compares equal to a later one. *)
Definition pairwise_distinct (sols : list Solution) : Prop :=
  forall i j si sj,
    (i < j)%nat -> sols !! i = Some si -> sols !! j = Some sj ->
    solution_eqb si sj = false.

(** The solution vector of a model: the strings it gives the
    constants. *)
Definition assignment_vector (constants : list IslaVariable)
    (model : z3.ModelRef) : list string :=
  map (fun constant => model (name constant)) constants.

(** The exclusion clause of an earlier model: one disjunction, over all
    the constants, of the inequalities between a constant and the
    string that model gave it. *)
Definition exclusion_clause (constants : list IslaVariable)
    (model : z3.ModelRef) : z3.ExprRef :=
  z3_or (map (fun constant =>
                z3.Not (z3.Eq (to_smt constant)
                          (z3.StringVal (model (name constant)))))
           constants).

(** What an exclusion clause says of a model: it gives some constant
    another string than the one excluded. *)
Definition satisfies_exclusion (model : z3.ModelRef)
    (assignment : InternalSolution) : Prop :=
  Exists (fun '(constant, string_val) =>
            z3.StringVal (model (name constant)) <> string_val)
    assignment.

(** The models of the backend satisfy the exclusion clauses of the
    queries they answer. *)
Definition honours_exclusions : Prop :=
  forall q model assignment,
    z3_solve q = (z3.sat, Some model) ->
    blocking_clause assignment ∈ q ->
    satisfies_exclusion model assignment.

(** [s] is built from the model, as [new_solution] is in some round. *)
Definition solution_of_model
    (ts : list (IslaVariable * DerivationTree)) (cs : list IslaVariable)
    (model : z3.ModelRef) (s : Solution) : Prop :=
  exists round, new_solution_of round ts cs model = Ok s.
End SolveQuantifierFreeVocabulary.

(** If [m] returns from a state that satisfies [P], the result and the
    state left behind satisfy [Q]. *)
Definition hoare {A} (P : ISLaSolver -> Prop) (m : M A)
    (Q : A -> ISLaSolver -> Prop) : Prop :=
  forall s a s', P s -> m s = Ok (a, s') -> Q a s'.

(** The solver after [state_is_valid_or_enqueue] has pushed [state]
    with the given cost. *)
Definition enqueued `{Runtime} (cost : Q) (state : SolutionState)
    (s : ISLaSolver) : ISLaSolver :=
  set_tree_hashes_in_queue
    (tree_hashes_in_queue s ∪ {[structural_hash (tree state)]})
    (set_queue
       (queue s ++ [(cost, {| constraint := constraint state;
                              tree := tree state;
                              level := (current_level s + 1)%Z |})])
       s).

(** The solver after the loop body has taken [entry] off the queue. *)
Definition popped `{Runtime} (entry : Q * SolutionState)
    (rest : list (Q * SolutionState)) (s : ISLaSolver) : ISLaSolver :=
  set_tree_hashes_in_queue
    (tree_hashes_in_queue
       (set_current_level (level (snd entry)) (set_queue rest s))
       ∖ {[structural_hash (tree (snd entry))]})
    (set_current_level (level (snd entry)) (set_queue rest s)).

(** The solver after [process_new_states] has recorded the k-paths of
    the given trees, and emptied the record if it is full. *)
Definition recorded `{GraphQueries} (trees : list DerivationTree)
    (s : ISLaSolver) : ISLaSolver :=
  let s1 :=
    set_covered_k_paths
      (fold_left
         (fun covered tree =>
            covered ∪ tree_k_paths tree (graph s) (k (cost_settings s)))
         trees (covered_k_paths s))
      s in
  if bool_decide (covered_k_paths s1
                  = graph_k_paths (graph s1) (k (cost_settings s1)))
  then set_covered_k_paths ∅ s1
  else s1.

(** The states [process_new_state] hands to
    [state_is_valid_or_enqueue]. *)
Definition prepared `{IslaLanguage, GraphQueries, Runtime}
    (self : ISLaSolver) (new_state : SolutionState)
  : Result (list SolutionState) :=
  let? new_states :=
    collect (map (remove_nonmatching_universal_quantifiers self)
               (establish_invariant
                  (instantiate_structural_predicates new_state))) in
  collect (map (remove_infeasible_universal_quantifiers self) new_states).

(** A property [I] of the solver that every step of the main loop
    keeps, given that every state about to be enqueued satisfies [P]. *)
Record SolverInvariant `{GraphQueries, Runtime}
    (I : ISLaSolver -> Prop) (P : SolutionState -> Prop) : Prop := {
  inv_cost_phase : forall s phase since, I s -> I (set_cost_phase phase since s);
  inv_enqueued :
    forall s cost state,
      I s -> P state ->
      (enforce_unique_trees_in_queue s = true ->
       structural_hash (tree state) ∉ tree_hashes_in_queue s) ->
      I (enqueued cost state s);
  inv_recorded : forall s trees, I s -> I (recorded trees s);
  inv_popped :
    forall s entry rest,
      I s -> entry ∈ queue s ->
      (exists idx, queue s !! idx = Some entry /\ rest = delete idx (queue s)) ->
      I (popped entry rest s);
}.

(** A conjunction of formulas none of which is a disjunction: the
    shape of one disjunct of a disjunctive normal form. *)
Fixpoint single_disjunct (f : Formula) : bool :=
  match f with
  | ConjunctiveFormula a b => single_disjunct a && single_disjunct b
  | DisjunctiveFormula _ _ => false
  | _ => true
  end.

(** Every queued state holds a single disjunct. *)
Definition queue_of_disjuncts (s : ISLaSolver) : Prop :=
  Forall (fun entry => single_disjunct (constraint (snd entry)) = true)
    (queue s).

(** No two queued states have trees of the same structural hash, and
    the hash of every queued tree is on record. *)
Definition queue_of_unique_trees `{Runtime} (s : ISLaSolver) : Prop :=
  enforce_unique_trees_in_queue s = true /\
  NoDup (map (fun entry => structural_hash (tree (snd entry))) (queue s)) /\
  forall entry,
    entry ∈ queue s ->
    structural_hash (tree (snd entry)) ∈ tree_hashes_in_queue s.


(** The covered k-paths are k-paths of the graph, but not all of
    them. *)
Definition covered_strictly `{GraphQueries} (s : ISLaSolver) : Prop :=
  covered_k_paths s ⊆ graph_k_paths (graph s) (k (cost_settings s)) /\
  covered_k_paths s <> graph_k_paths (graph s) (k (cost_settings s)).

(** The formula [__init__] works on, parsed if it came as text. *)
Definition given_formula `{IslaLanguage} (formula : Formula + string)
  : Formula :=
  match formula with
  | inl f => f
  | inr text => parse_isla text
  end.

(** The open tree the search starts from. *)
Definition initial_tree_for `{Runtime} (c : IslaVariable) : DerivationTree :=
  DTree (n_type c) None (fresh_id []).

(** ** The order of the rules *)

(** The first attempt that applies; an attempt that raises ends the
    search. *)
Fixpoint first_applicable {A} (attempts : list (Result (option A)))
  : Result (option A) :=
  match attempts with
  | [] => Ok None
  | attempt :: rest =>
      let? r := attempt in
      match r with
      | Some a => Ok (Some a)
      | None => first_applicable rest
      end
  end.

Section RuleOrder.
Context `{IslaLanguage, GraphQueries, Runtime, SMTBridge}.

(** The rules after the instantiation of structural predicates, each
    as an attempt on the same state: numeric constants, universal
    matching, expansion (whenever a universal formula is among the
    conjuncts; an empty expansion fails the assertion), SMT formulas,
    ready semantic predicates, existential formulas, free fuzzing. *)
Definition rule_attempts (self : ISLaSolver) (iteration : nat)
    (state : SolutionState) : list (Result (option (Rule * Successors))) :=
  [ Ok (option_map
          (fun s => (NumericConstantIntroduction, ForProcessNewState s))
          (instantiate_numeric_constant_intros state));
    (let? r := match_all_universal_formulas self state in
     Ok (option_map (fun rs => (UniversalMatching, ForProcessNewStates [rs])) r));
    (if existsb isinstance_ForallFormula (get_conjuncts (constraint state))
     then
       let? expanded := expand_tree self iteration state in
       let? _ := py_assert (0 <? length expanded)%nat in
       Ok (Some (Expansion, ForProcessNewStates [expanded]))
     else Ok None);
    (let? r := eliminate_all_semantic_formulas self state in
     Ok (option_map (fun rs => (SMTElimination, ForProcessNewStates [rs])) r));
    Ok (option_map
          (fun s => (SemanticPredicates, ForProcessNewState s))
          (eliminate_all_ready_semantic_predicate_formulas self state));
    (let? r := eliminate_first_match_all_existential_formulas
                 self iteration state in
     Ok (option_map
           (fun rs => (ExistentialElimination, ForProcessNewStates [rs])) r));
    (let? batches := free_instantiations self iteration state in
     Ok (Some (FreeFuzzing, ForProcessNewStates batches))) ].

(** One round of the main loop, told by priorities: take the least
    entry, instantiate the structural predicates, drop the state if its
    constraint is [false], and otherwise let the first applicable rule
    of [rule_attempts] supply the successors. *)
Definition iteration_by_priority (iteration : nat)
  : M (option Rule * list DerivationTree) :=
  fun self =>
    match heappop (queue self) with
    | None => Raise IndexError
    | Some (entry, rest) =>
        let self1 := popped entry rest self in
        let? _ := py_assert (negb (isinstance_DisjunctiveFormula
                                     (constraint (snd entry)))) in
        let state := instantiate_structural_predicates (snd entry) in
        if formula_eqb (constraint state) sc.false then Ok (None, [], self1)
        else
          let? chosen := first_applicable (rule_attempts self1 iteration state) in
          match chosen with
          | None => Raise AssertionError
          | Some (rule, successors) =>
              let? '(yielded, self2) := process_successors successors self1 in
              Ok (Some rule, yielded, self2)
          end
    end.

(** The rules as the specification lists them, each as an attempt on
    the popped state: the instantiation of structural predicates is the
    first of them and makes progress when it changes the constraint;
    expansion applies when a universal formula remains and some open
    leaf can be expanded for it. *)
Definition specified_attempts (self : ISLaSolver) (iteration : nat)
    (state : SolutionState) : list (Result (option (Rule * Successors))) :=
  [ (let instantiated := instantiate_structural_predicates state in
     Ok (if formula_eqb (constraint instantiated) (constraint state)
         then None
         else Some (StructuralPredicates, ForProcessNewState instantiated)));
    Ok (option_map
          (fun s => (NumericConstantIntroduction, ForProcessNewState s))
          (instantiate_numeric_constant_intros state));
    (let? r := match_all_universal_formulas self state in
     Ok (option_map (fun rs => (UniversalMatching, ForProcessNewStates [rs])) r));
    (if existsb isinstance_ForallFormula (get_conjuncts (constraint state))
     then
       let? expanded := expand_tree self iteration state in
       match expanded with
       | [] => Ok None
       | _ => Ok (Some (Expansion, ForProcessNewStates [expanded]))
       end
     else Ok None);
    (let? r := eliminate_all_semantic_formulas self state in
     Ok (option_map (fun rs => (SMTElimination, ForProcessNewStates [rs])) r));
    Ok (option_map
          (fun s => (SemanticPredicates, ForProcessNewState s))
          (eliminate_all_ready_semantic_predicate_formulas self state));
    (let? r := eliminate_first_match_all_existential_formulas
                 self iteration state in
     Ok (option_map
           (fun rs => (ExistentialElimination, ForProcessNewStates [rs])) r));
    (let? batches := free_instantiations self iteration state in
     Ok (Some (FreeFuzzing, ForProcessNewStates batches))) ].

(** One round of the main loop as the specification tells it: the
    first rule of [specified_attempts] that makes progress supplies the
    successors and ends the round. *)
Definition iteration_as_specified (iteration : nat)
  : M (option Rule * list DerivationTree) :=
  fun self =>
    match heappop (queue self) with
    | None => Raise IndexError
    | Some (entry, rest) =>
        let self1 := popped entry rest self in
        let? chosen :=
          first_applicable (specified_attempts self1 iteration (snd entry)) in
        match chosen with
        | None => Ok (None, [], self1)
        | Some (rule, successors) =>
            let? '(yielded, self2) := process_successors successors self1 in
            Ok (Some rule, yielded, self2)
        end
    end.
End RuleOrder.

(** ** The structural predicates that come with the solver

    [input_constraints/isla_predicates.py]: [before] and [after] decide
    on the paths of their two arguments in the tree; [count] compares
    the number of nodes that carry a symbol with a numeral, or binds a
    constant to that number. *)

Module isla_predicates.
Fixpoint is_before (path_1 path_2 : Path) : bool :=
  match path_1, path_2 with
  | [], _ | _, [] =>
      (* Note: (1,) is not before (1,0), since it's a prefix!
         Also, (1,) cannot be before ().
         But (1,0) would be before (1,1). *)
      false
  | car_1 :: cdr_1, car_2 :: cdr_2 =>
      if (car_1 <? car_2)%nat then true
      else if (car_2 <? car_1)%nat then false
      else is_before cdr_1 cdr_2
  end.

Record StructuralPredicate := {
  predicate_name : string;
  arity : nat;
  evaluator : Path -> Path -> bool;
}.

Definition BEFORE_PREDICATE : StructuralPredicate :=
  {| predicate_name := "before"; arity := 2; evaluator := is_before |}.

Definition AFTER_PREDICATE : StructuralPredicate :=
  {| predicate_name := "after";
     arity := 2;
     evaluator := fun path_1 path_2 =>
       negb (is_before path_1 path_2)
       && negb (bool_decide (path_1 = take (length path_1) path_2))
         (* No prefix *) |}.
(** What the evaluation of a predicate can raise. *)
Inductive Error := AssertionError | AttributeError | ValueError.

Inductive Outcome (A : Type) :=
| Returns (a : A)
| Raises (e : Error).
Arguments Returns {A} a.
Arguments Raises {A} e.

(** [SemPredEvalResult(None)], [SemPredEvalResult(True)] or
    [SemPredEvalResult(False)], and [SemPredEvalResult({...})]. *)
Inductive SemPredEvalResult :=
| NotReady
| Decided (b : bool)
| Binding (result : list (SolutionKey * DerivationTree)).

(** What [count] takes from elsewhere: [f_node.reachable(t_node)] on
    the graph of the grammar, by symbol; [insert_tree] for the
    canonical grammar; [str.isnumeric] and [int]; the structural hash;
    the identifier of the tree built after so many others. *)
Class PredicateServices := {
  reachable : string -> string -> Outcome bool;
  insert_tree : DerivationTree -> DerivationTree -> list DerivationTree;
  isnumeric : string -> bool;
  int : string -> Outcome Z;
  structural_hash : DerivationTree -> Z;
  next_id : nat -> Z;
}.

Section Count.
Context `{PredicateServices}.

(** [len(tree.filter(lambda t: t.value == needle))] *)
Definition num_needles (needle : string) (candidate : DerivationTree) : Z :=
  Z.of_nat (length (List.filter (fun t => String.eqb (value t) needle)
                      (tree_nodes candidate))).

(** [any(reachable(leaf_nonterminal, needle) for leaf_nonterminal in ...)] *)
Fixpoint any_reachable (leaf_nonterminals : list string) (needle : string)
  : Outcome bool :=
  match leaf_nonterminals with
  | [] => Returns false
  | leaf_nonterminal :: rest =>
      match reachable leaf_nonterminal needle with
      | Raises e => Raises e
      | Returns true => Returns true
      | Returns false => any_reachable rest needle
      end
  end.

Definition more_needles_possible (needle : string) (tree : DerivationTree)
  : Outcome bool :=
  any_reachable (map (fun '(_, node) => value node) (open_leaves tree)) needle.

(** The [while candidates] loop; [None] when the fuel runs out before
    the queue of candidates is empty. *)
Fixpoint search (fuel : nat) (in_tree : DerivationTree) (needle : string)
    (target_num_needle_occurrences : Z) (built : nat)
    (candidates : list DerivationTree) (already_seen : gset Z)
  : option (Outcome SemPredEvalResult) :=
  match candidates with
  | [] => Some (Returns (Decided false))
  | candidate :: candidates =>
      match fuel with
      | O => None
      | S fuel' =>
          let candidate_needle_occurrences := num_needles needle candidate in
          match more_needles_possible needle candidate with
          | Raises e => Some (Raises e)
          | Returns candidate_more_needles_possible =>
              if negb candidate_more_needles_possible
                 && (candidate_needle_occurrences
                     =? target_num_needle_occurrences)%Z
              then Some (Returns (Binding [(KeyTree in_tree, candidate)]))
              else if (candidate_needle_occurrences
                       <? target_num_needle_occurrences)%Z
              then
                let new_candidates :=
                  List.filter
                    (fun new_candidate =>
                       (num_needles needle new_candidate
                        <=? target_num_needle_occurrences)%Z
                       && negb (bool_decide
                                  (structural_hash new_candidate
                                   ∈ already_seen)))
                    (insert_tree (DTree needle None (next_id built))
                       candidate) in
                search fuel' in_tree needle target_num_needle_occurrences
                  (S built) (candidates ++ new_candidates)
                  (already_seen
                   ∪ list_to_set (map structural_hash new_candidates))
              else
                search fuel' in_tree needle target_num_needle_occurrences
                  built candidates already_seen
          end
      end
  end.

Definition count (fuel : nat) (in_tree : DerivationTree) (needle : string)
    (num : SolutionKey) : option (Outcome SemPredEvalResult) :=
  let num_needle_occurrences := num_needles needle in_tree in
  match more_needles_possible needle in_tree with
  | Raises e => Some (Raises e)
  | Returns more_needles_possible =>
      match num with
      | KeyConstant (Constant _ _) =>
          (* Return the number of needle occurrences in in_tree, or
             not ready if more needle occurrences can yet occur *)
          if more_needles_possible then Some (Returns NotReady)
          else
            Some (Returns
                    (Binding [(num, DTree (pretty num_needle_occurrences)
                                      None (next_id 0))]))
      | KeyConstant (BoundVariable _ _) => Some (Raises AttributeError)
      | KeyTree num =>
          match children num with
          | Some (_ :: _) => Some (Raises AssertionError)
          | _ =>
              if negb (isnumeric (value num)) then Some (Raises AssertionError)
              else
                match int (value num) with
                | Raises e => Some (Raises e)
                | Returns target_num_needle_occurrences =>
                    if (target_num_needle_occurrences
                        <? num_needle_occurrences)%Z
                    then Some (Returns (Decided false))
                    else if negb more_needles_possible then
                      Some (Returns
                              (Decided (num_needle_occurrences
                                        =? target_num_needle_occurrences)%Z))
                    else if (num_needle_occurrences
                             =? target_num_needle_occurrences)%Z
                    then Some (Returns NotReady)
                    else
                      (* assert num_needle_occurrences
                                < target_num_needle_occurrences
                         holds here *)
                      let candidates :=
                        List.filter
                          (fun candidate =>
                             (num_needles needle candidate
                              <=? target_num_needle_occurrences)%Z)
                          (insert_tree (DTree needle None (next_id 0))
                             in_tree) in
                      search fuel in_tree needle target_num_needle_occurrences
                        1 candidates
                        (list_to_set (map structural_hash candidates))
                end
          end
      end
  end.
End Count.
End isla_predicates.

(** ** A small world for the predicate [count]

    Grammar [<start> ::= "a" | <x>], [<x> ::= "x"], and decimal numerals
    in ASCII.  [graph.get_node] asserts that it is asked for a
    nonterminal, and answers [None] for one the grammar does not have;
    a node reaches the nodes below it, not itself. *)

Definition count_grammar : CanonicalGrammar :=
  [("<start>", [["a"]; ["<x>"]]); ("<x>", [["x"]])].

(** Some expansion of [fr] leads to [to] within so many steps. *)
Fixpoint reaches (g : CanonicalGrammar) (steps : nat) (fr to : string) : bool :=
  match steps with
  | O => false
  | S steps' =>
      existsb
        (fun expansion =>
           existsb (fun sym => String.eqb sym to || reaches g steps' sym to)
             expansion)
        (default [] (grammar_get g fr))
  end.

Definition digit_of (c : ascii) : option Z :=
  let n := nat_of_ascii c in
  if (48 <=? n)%nat && (n <=? 57)%nat then Some (Z.of_nat (n - 48)) else None.

Fixpoint decimal (acc : Z) (s : string) : option Z :=
  match s with
  | EmptyString => Some acc
  | String c s' =>
      match digit_of c with
      | Some d => decimal (10 * acc + d)%Z s'
      | None => None
      end
  end.

Definition tiny_services : isla_predicates.PredicateServices :=
  {| isla_predicates.reachable fr to :=
       if negb (is_nonterminal fr) || negb (is_nonterminal to)
       then isla_predicates.Raises isla_predicates.AssertionError
       else
         match grammar_get count_grammar fr with
         | None => isla_predicates.Raises isla_predicates.AttributeError
         | Some _ =>
             isla_predicates.Returns
               (reaches count_grammar (length count_grammar) fr to)
         end;
     (* the one insertion this grammar allows: an open [<start>] takes
        an [<x>] as its only child *)
     isla_predicates.insert_tree needle in_tree :=
       match in_tree, needle with
       | DTree "<start>" None i, DTree "<x>" _ _ =>
           [DTree "<start>" (Some [needle]) i]
       | _, _ => []
       end;
     isla_predicates.isnumeric s :=
       negb (String.eqb s "") && bool_decide (is_Some (decimal 0 s));
     isla_predicates.int s :=
       match decimal 0 s with
       | Some z =>
           if String.eqb s ""
           then isla_predicates.Raises isla_predicates.ValueError
           else isla_predicates.Returns z
       | None => isla_predicates.Raises isla_predicates.ValueError
       end;
     isla_predicates.structural_hash t := TinyWorld.shape_size (shape t);
     isla_predicates.next_id n := (50 + Z.of_nat n)%Z |}.

(** ** Vocabulary of the invariants of the main loop *)

(** A tree without open leaves. *)
Definition closed_tree (t : DerivationTree) : Prop := is_complete t = true.

(** The level the search is at and the levels of the queued states are
    not negative. *)
Definition levels_from_zero (s : ISLaSolver) : Prop :=
  (0 <= current_level s)%Z /\
  Forall (fun entry => (0 <= level (snd entry))%Z) (queue s).

(** A state of the small world that is not settled: its tree is the
    closed derivation [<start>(a)], its constraint still speaks of the
    constant. *)
Definition tiny_pending_state : SolutionState :=
  new_state TinyWorld.formula (TinyWorld.a_tree 5).

(** ** Vocabulary of the further properties *)

(** One cost table lies above another: the same symbols, none cheaper. *)
Definition raised (before after : gmap string Z) : Prop :=
  forall sym,
    match before !! sym, after !! sym with
    | Some c, Some c' => (c <= c')%Z
    | None, None => True
    | _, _ => False
    end.

(** The symbols that have a node in the graph. *)
Definition graph_symbols (graph : gg.GrammarGraph) : list string :=
  remove_dups (map gg.symbol (gg.all_nodes graph)).

(** How often [all_paths] may still append the symbols of the graph. *)
Definition appends_left (graph : gg.GrammarGraph) (cycles_allowed : nat)
    (visited : gmap string nat) : nat :=
  sum_list (map (fun sym => cycles_allowed + 2 - default 0 (visited !! sym))%nat
              (graph_symbols graph)).

(** [isinstance(f, isla.QuantifiedFormula)], the introductions of
    numeric constants counted in. *)
Definition isinstance_QuantifiedFormula (f : Formula) : bool :=
  isinstance_ForallFormula f || isinstance_ExistsFormula f
  || isinstance_IntroduceNumericConstantFormula f.

(** The cost phase names one of the weight vectors, and each weight
    vector has its phase length. *)
Definition phase_in_range (s : ISLaSolver) : Prop :=
  length (weight_vectors (cost_settings s))
  = length (cost_phase_lengths (cost_settings s)) /\
  (current_cost_phase s < length (weight_vectors (cost_settings s)))%nat.

(** The clusters [eliminate_semantic_formula] hands to the SMT loop,
    one call each. *)
Definition formula_clusters `{Runtime} (semantic_formula : Formula)
  : list (list SMTFormula) :=
  cluster_by_common_elements
    (rename_instantiated_variables_in_smt_formulas
       (smt_conjuncts semantic_formula))
    (fun smt_formula =>
       map KeyConstant (free_variables smt_formula
                        ++ instantiated_variables smt_formula)
       ++ map KeyTree
            (flat_map (fun tree => map snd (paths tree))
               (values (substitutions smt_formula)))).

(** A state of scenario S1: the atom over the open tree of the
    variable. *)
Definition tiny_smt_state : SolutionState :=
  new_state (SMT ScenarioS1.atom) ScenarioS1.var_tree.

(** A solved state of the small world, its tree still open. *)
Definition tiny_solved_state : SolutionState :=
  new_state sc.true (DTree "<start>" None 0).

(** The semantic predicate formulas that
    [eliminate_all_ready_semantic_predicate_formulas] evaluates, in the
    order in which it does. *)
Definition concrete_semantic_predicates (state : SolutionState)
  : list Formula :=
  sorted_by formula_order
    (List.filter
       (fun pred_formula =>
          isinstance_SemanticPredicateFormula pred_formula
          && forallb (fun arg => negb (is_variable arg))
               (predicate_args pred_formula))
       (FilterVisitor_collect isinstance_SemanticPredicateFormula
          (constraint state))).

(** Two states of the small world: one under a universal formula, one
    under a semantic predicate. *)
Definition tiny_universal_state : SolutionState :=
  new_state
    (ForallFormula (BoundVariable "x" "<start>")
       (ArgTree (DTree "<start>" None 0)) sc.true None [] 1)
    (DTree "<start>" None 0).

Definition tiny_predicate_state : SolutionState :=
  new_state
    (SemanticPredicateFormula "count"
       [ArgTree (DTree "<start>" None 0); ArgTree (DTree "1" None 7)] 0)
    (DTree "<start>" None 0).

(** ** Vocabulary of the disjunctive normal form *)

(** What it takes to read a formula as true or false: a domain of
    assignments, the truth of the SMT atoms and of the predicate
    formulas under an assignment, and the assignments a quantifier
    ranges over. *)
Record Interpretation := {
  Assignment : Type;
  smt_holds : Assignment -> SMTFormula -> bool;
  predicate_holds : Assignment -> Formula -> bool;
  instances :
    Assignment -> IslaVariable -> Arg -> option BindExpression ->
    list Assignment;
}.

Fixpoint holds (I : Interpretation) (env : Assignment I) (f : Formula)
  : bool :=
  match f with
  | SMT s => smt_holds I env s
  | ForallFormula v t inner bind _ _ =>
      forallb (fun env' => holds I env' inner) (instances I env v t bind)
  | ExistsFormula v t inner bind =>
      existsb (fun env' => holds I env' inner) (instances I env v t bind)
  | ConjunctiveFormula a b => holds I env a && holds I env b
  | DisjunctiveFormula a b => holds I env a || holds I env b
  | NegatedFormula a => negb (holds I env a)
  | _ => predicate_holds I env f
  end.

(** The interpretation reads the SMT atoms as the backend does: the
    Boolean constants as themselves, a negated atom as the opposite of
    the atom. *)
Definition reads_smt (I : Interpretation) : Prop :=
  (forall env b, holds I env (sc.smt_atom (z3.BoolVal b)) = b) /\
  (forall env s,
     smt_holds I env
       {| formula := z3.Not (formula s);
          free_variables_ := free_variables_ s;
          instantiated_variables := instantiated_variables s;
          substitutions := substitutions s |}
     = negb (smt_holds I env s)).

(** [c] is [d] with some universal formulas replaced by [true], as
    [remove_nonmatching_universal_quantifiers] and
    [remove_infeasible_universal_quantifiers] leave it. *)
Inductive universals_removed (d : Formula) : Formula -> Prop :=
| universals_kept : universals_removed d d
| universal_removed c universal_formula :
    universals_removed d c ->
    isinstance_ForallFormula universal_formula = true ->
    universals_removed d (replace_formula c universal_formula sc.true).

(** The states that the loop of [process_new_state] pushes, given the
    hashes on record when it starts: those that are not complete, whose
    constraint is not [false] and, where unique trees are asked for,
    whose tree is not on record, each push putting its tree on
    record. *)
Fixpoint pushed_states `{Runtime} (enforce : bool) (hashes : gset Z)
    (states : list SolutionState) : list SolutionState :=
  match states with
  | [] => []
  | state :: states' =>
      if complete state
         || enforce && bool_decide (structural_hash (tree state) ∈ hashes)
         || formula_eqb (constraint state) sc.false
      then pushed_states enforce hashes states'
      else
        state
        :: pushed_states enforce (hashes ∪ {[structural_hash (tree state)]})
             states'
  end.

(** The state as it is pushed from a solver at the given level. *)
Definition one_level_below (current_level : Z) (state : SolutionState)
  : SolutionState :=
  {| constraint := constraint state; tree := tree state;
     level := (current_level + 1)%Z |}.

(** The formula of the disjunctive scenario: every [<start>] in the
    input is ["a"] or ["b"]. *)
Definition either_atom (word : string) : SMTFormula :=
  {| formula := z3.Eq (z3.String "s") (z3.StringVal word);
     free_variables_ := [BoundVariable "s" "<start>"];
     instantiated_variables := [];
     substitutions := [] |}.

Definition either_formula : Formula :=
  ForallFormula (BoundVariable "s" "<start>") (ArgVariable TinyWorld.start)
    (DisjunctiveFormula (SMT (either_atom "a")) (SMT (either_atom "b")))
    None [] 1.

(** [ISLaSolver(grammar, either_formula, enforce_unique_trees_in_queue=...)]
    in the small world, with [k = 1]. *)
Definition either_solver (enforce : bool) : option (Result ISLaSolver) :=
  @ISLaSolver_init TinyWorld.language TinyWorld.queries TinyWorld.runtime
    TinyWorld.probe TinyWorld.grammar (inl either_formula) 10 10 5 enforce
    false false true (TinyWorld.cost_settings 1) None.

(** A reading of the formulas of the scenario: the variables of an SMT
    atom are read through a model, predicates fail, and a quantifier
    ranges over the one node of the input. *)
Definition word_reading : Interpretation :=
  {| Assignment := z3.ModelRef;
     smt_holds model s := ScenarioS2.satisfies model (formula s);
     predicate_holds _ _ := false;
     instances model _ _ _ := [model] |}.

(** * Properties *)

Section SolveQuantifierFreeFacts.
Context `{SMTBridge}.
Variable max_number_smt_instantiations : nat.

Lemma smt_loop_unsat rounds fs ts cs sols isols k q :
  (smt_loop rounds fs ts cs sols isols).1 !! k = Some q ->
  (z3_solve q).1 <> z3.sat ->
  exists previous,
    Forall2 (answered_with ts cs)
      (take k (smt_loop rounds fs ts cs sols isols).1) previous /\
    (smt_loop rounds fs ts cs sols isols).2 = Ok (sols ++ previous).
Proof.
  revert k.
  functional induction (smt_loop rounds fs ts cs sols isols);
    intros k Hk Hq; simpl in *.
  all: try (destruct k as [|k]; simpl in Hk;
            [injection Hk as <-|by destruct k]).
  all: try discriminate.
  all: try (exfalso; rewrite e1 in Hq; simpl in Hq;
            apply negb_false_iff, bool_decide_eq_true in e2; done).
  - exists []. by rewrite take_0.
  - exists []. by rewrite take_0, app_nil_r.
  - apply negb_false_iff, bool_decide_eq_true in e2. subst solver_result.
    rewrite e6 in IHp. simpl in IHp.
    destruct k as [|k]; simpl in Hk.
    + injection Hk as <-. rewrite e1 in Hq. done.
    + destruct (IHp k Hk Hq) as (prev & Hprev & Hres).
      exists (new_solution :: prev). split.
      * constructor; [|done]. exists model, (length solutions). done.
      * rewrite Hres. by rewrite <- app_assoc.
Qed.

Lemma smt_loop_rounds rounds fs ts cs sols isols :
  length (smt_loop rounds fs ts cs sols isols).1 <= rounds.
Proof.
  functional induction (smt_loop rounds fs ts cs sols isols);
    simpl in *; try lia.
  rewrite e6 in IHp. simpl in IHp. lia.
Qed.

Lemma collect_length {A} (rs : list (Result A)) (l : list A) :
  collect rs = Ok l -> length l = length rs.
Proof.
  revert l. induction rs as [|r rs IH]; intros l; simpl.
  - by intros [= <-].
  - destruct r as [a|e]; simpl; [|done].
    destruct (collect rs) as [l'|e]; simpl; [|done].
    intros [= <-]. simpl. by rewrite (IH l').
Qed.

Lemma smt_query_shape fs ts cs isols q :
  smt_query fs ts cs isols = Ok q ->
  exists regex_formulas,
    length regex_formulas = length cs /\
    q = regex_formulas ++ map blocking_clause isols ++ map formula fs.
Proof.
  unfold smt_query.
  destruct (collect _) as [rf|e] eqn:E; simpl; [|done].
  intros [= <-]. exists rf. split; [|done].
  apply collect_length in E. by rewrite E, length_map.
Qed.

Lemma pairwise_distinct_snoc sols new :
  pairwise_distinct sols ->
  py_in solution_eqb new sols = false ->
  pairwise_distinct (sols ++ [new]).
Proof.
  intros Hp Hin i j si sj Hij Hi Hj.
  assert (Hj' := lookup_lt_Some _ _ _ Hj).
  rewrite length_app in Hj'. simpl in Hj'.
  destruct (decide (j < length sols)%nat) as [Hlt|Hge].
  - rewrite lookup_app_l in Hi by lia. rewrite lookup_app_l in Hj by lia.
    by apply (Hp i j).
  - assert (j = length sols) as -> by lia.
    rewrite lookup_app_l in Hi by lia.
    rewrite list_lookup_middle in Hj by done. injection Hj as <-.
    unfold py_in in Hin.
    destruct (solution_eqb si new) eqn:E; [|done].
    assert (existsb (fun y => solution_eqb y new) sols = true) as Hex.
    { apply existsb_exists. exists si. split; [|done].
      apply list_elem_of_In. by eapply list_elem_of_lookup_2. }
    congruence.
Qed.

Lemma smt_loop_distinct rounds fs ts cs sols isols r :
  pairwise_distinct sols ->
  (smt_loop rounds fs ts cs sols isols).2 = Ok r ->
  pairwise_distinct r.
Proof.
  revert r.
  functional induction (smt_loop rounds fs ts cs sols isols);
    intros res Hp Hr; simpl in *; try discriminate.
  all: try (injection Hr as <-; done).
  rewrite e6 in IHp. simpl in IHp.
  apply IHp; [|done]. by apply pairwise_distinct_snoc.
Qed.

Lemma dict_set_fresh (d : InternalSolution) c v :
  c ∉ map fst d -> dict_set var_eqb d c v = d ++ [(c, v)].
Proof.
  induction d as [|[c' v'] d IH]; simpl; [done|].
  intros Hnotin. apply not_elem_of_cons in Hnotin as [Hne Hnotin].
  unfold var_eqb at 1.
  rewrite bool_decide_eq_false_2 by congruence.
  by rewrite IH.
Qed.

Lemma dict_fold_fresh (items d : InternalSolution) :
  NoDup (map fst (d ++ items)) ->
  fold_left (fun d kv => dict_set var_eqb d kv.1 kv.2) items d = d ++ items.
Proof.
  revert d. induction items as [|[c v] items IH]; intros d Hnd; simpl.
  - by rewrite app_nil_r.
  - assert (c ∉ map fst d) as Hfresh.
    { rewrite map_app in Hnd. apply NoDup_app in Hnd as (_ & Hdisj & _).
      intros Hin. apply (Hdisj c Hin). simpl. left. }
    rewrite dict_set_fresh by done.
    rewrite IH.
    + by rewrite <- app_assoc.
    + by rewrite <- app_assoc.
Qed.

(** With pairwise different constants the internal solution of a model
    lists the constants in order, each with the string of the model. *)
Lemma new_internal_solution_entries (cs : list IslaVariable) model :
  NoDup cs ->
  new_internal_solution_of cs model
  = map (fun constant => (constant, z3.StringVal (model (name constant)))) cs.
Proof.
  intros Hnd. unfold new_internal_solution_of, dict_of_items.
  rewrite dict_fold_fresh; [done|].
  simpl. rewrite map_map. simpl. by rewrite map_id.
Qed.

Lemma blocking_clause_exclusion (cs : list IslaVariable) model :
  NoDup cs ->
  blocking_clause (new_internal_solution_of cs model)
  = exclusion_clause cs model.
Proof.
  intros Hnd. rewrite new_internal_solution_entries by done.
  unfold blocking_clause, exclusion_clause. by rewrite map_map.
Qed.

(** A model that satisfies the exclusion clause of another has another
    solution vector. *)
Lemma satisfies_exclusion_vector (cs : list IslaVariable) model earlier :
  NoDup cs ->
  satisfies_exclusion model (new_internal_solution_of cs earlier) ->
  assignment_vector cs model <> assignment_vector cs earlier.
Proof.
  intros Hnd. rewrite new_internal_solution_entries by done.
  unfold satisfies_exclusion, assignment_vector.
  intros Hex Heq. apply Exists_exists in Hex as ([c v] & Hin & Hne).
  apply list_elem_of_fmap in Hin as (c' & [= -> ->] & Hc).
  apply Hne. f_equal.
  assert (Forall2 eq (map (fun c => model (name c)) cs)
            (map (fun c => earlier (name c)) cs)) as H2 by (by rewrite Heq).
  clear -Hc Heq. induction cs as [|c0 cs IH]; [by apply elem_of_nil in Hc|].
  simpl in Heq. injection Heq as Hhead Htail.
  apply elem_of_cons in Hc as [->|Hc]; [done|by apply IH].
Qed.

Lemma smt_loop_query_models rounds fs ts cs sols isols k q :
  (smt_loop rounds fs ts cs sols isols).1 !! k = Some q ->
  exists models,
    Forall2 (fun earlier model => z3_solve earlier = (z3.sat, Some model))
      (take k (smt_loop rounds fs ts cs sols isols).1) models /\
    smt_query fs ts cs (isols ++ map (new_internal_solution_of cs) models)
    = Ok q.
Proof.
  revert k.
  functional induction (smt_loop rounds fs ts cs sols isols);
    intros k Hk; simpl in *.
  all: try (destruct k as [|k]; simpl in Hk;
            [injection Hk as <-|by destruct k]).
  all: try discriminate.
  all: try (exists []; rewrite take_0, app_nil_r; by split).
  rewrite e6 in IHp. simpl in IHp.
  apply negb_false_iff, bool_decide_eq_true in e2. subst solver_result.
  destruct k as [|k]; simpl in Hk.
  - injection Hk as <-. exists []. rewrite app_nil_r. by split.
  - destruct (IHp k Hk) as (models & Hall & Hquery).
    exists (model :: models). split.
    + simpl. by constructor.
    + simpl. by rewrite <- app_assoc in Hquery.
Qed.

Lemma smt_loop_models rounds fs ts cs sols isols models res :
  NoDup cs ->
  isols = map (new_internal_solution_of cs) models ->
  (smt_loop rounds fs ts cs sols isols).2 = Ok res ->
  exists later,
    Forall2 (fun q model => z3_solve q = (z3.sat, Some model))
      (take (length later) (smt_loop rounds fs ts cs sols isols).1) later /\
    Forall2 (solution_of_model ts cs) later (drop (length sols) res) /\
    take (length sols) res = sols /\
    (honours_exclusions ->
     NoDup (map (assignment_vector cs) models) ->
     NoDup (map (assignment_vector cs) (models ++ later))).
Proof.
  intros Hnd. revert models res.
  functional induction (smt_loop rounds fs ts cs sols isols);
    intros models res Hisols Hres; simpl in *; try discriminate.
  all: try (injection Hres as <-; exists []; simpl;
            rewrite ?drop_all, ?firstn_all, ?app_nil_r;
            repeat split; try done; constructor).
  rewrite e6 in IHp. simpl in IHp.
  apply negb_false_iff, bool_decide_eq_true in e2. subst solver_result.
  destruct (IHp Hnd (models ++ [model]) res) as (later & Hlog & Hsols & Htake & Hvec).
  { rewrite map_app. simpl. by rewrite Hisols. }
  { done. }
  rewrite length_app in Hsols, Htake. simpl in Hsols, Htake.
  assert (res = solutions ++ new_solution :: drop (length solutions + 1) res)
    as Hsplit.
  { rewrite <- (take_drop (length solutions + 1) res) at 1.
    rewrite Htake. by rewrite <- app_assoc. }
  exists (model :: later). split; [|split; [|split]].
  - simpl. by constructor.
  - rewrite Hsplit at 1. rewrite drop_app_length.
    constructor; [by exists (length solutions)|done].
  - rewrite Hsplit. by rewrite take_app_length.
  - intros Hhon Hmodels. rewrite <- app_assoc in Hvec. simpl in Hvec.
    apply Hvec; [done|].
    rewrite map_app. simpl. apply NoDup_app. split; [done|]. split.
    + intros vector Hin Hnew. apply list_elem_of_singleton in Hnew. subst vector.
      apply list_elem_of_fmap in Hin as (earlier & Heq & Hearlier).
      destruct (smt_query_shape _ _ _ _ _ e0) as (rf & _ & Hq).
      assert (blocking_clause (new_internal_solution_of constants earlier)
                ∈ formulas) as Hclause.
      { rewrite Hq, Hisols. apply elem_of_app. right. apply elem_of_app. left.
        apply list_elem_of_fmap. eexists. split; [done|].
        apply list_elem_of_fmap. by eexists. }
      pose proof (Hhon _ _ _ e1 Hclause) as Hex.
      by apply satisfies_exclusion_vector in Hex.
    + apply NoDup_singleton.
Qed.

Lemma traced_is_loop fs :
  (exists e, solve_quantifier_free_formula_traced
               max_number_smt_instantiations fs = ([], Raise e)) \/
  solve_quantifier_free_formula_traced max_number_smt_instantiations fs =
  smt_loop max_number_smt_instantiations (solved_formulas fs)
    (tree_substitutions_of (solved_formulas fs))
    (constants_of (solved_formulas fs)) [] [].
Proof.
  unfold solve_quantifier_free_formula_traced, solved_formulas.
  destruct (get_conflicts fs) as [|c cs] eqn:E; [by right|].
  destruct (get_conflicts (c :: cs)); simpl; [by right|].
  left. by eexists.
Qed.

(** C5.  When the SMT backend answers a query with anything but sat,
    [solve_quantifier_free_formula] returns the solutions gathered
    from the queries before it, and nothing else: the empty list when
    the query is the first one ([k = 0]), the [k] solutions built from
    the [k] earlier models otherwise. *)
Theorem solve_quantifier_free_formula_unsat fs k q :
  (solve_quantifier_free_formula_traced
     max_number_smt_instantiations fs).1 !! k = Some q ->
  (z3_solve q).1 <> z3.sat ->
  exists previous,
    length previous = k /\
    Forall2 (answered_with (tree_substitutions_of (solved_formulas fs))
               (constants_of (solved_formulas fs)))
      (take k (solve_quantifier_free_formula_traced
                 max_number_smt_instantiations fs).1) previous /\
    solve_quantifier_free_formula max_number_smt_instantiations fs =
    Ok previous /\
    (k = 0%nat ->
     solve_quantifier_free_formula max_number_smt_instantiations fs = Ok []).
Proof.
  intros Hk Hq. unfold solve_quantifier_free_formula.
  destruct (traced_is_loop fs) as [[e He]|Hloop].
  - rewrite He in Hk. simpl in Hk. by rewrite lookup_nil in Hk.
  - rewrite Hloop in *.
    destruct (smt_loop_unsat _ _ _ _ _ _ _ _ Hk Hq) as (prev & Hprev & Hres).
    simpl in Hres. exists prev.
    assert (length prev = k) as Hlen.
    { apply Forall2_length in Hprev. rewrite <- Hprev.
      apply length_take_le. apply lookup_lt_Some in Hk. lia. }
    repeat split; try done.
    intros ->. destruct prev; [done|discriminate].
Qed.

(** C6.  [solve_quantifier_free_formula] sends at most
    [max_number_smt_instantiations] queries to the SMT backend.  The
    query number [k] carries, after the regular-expression constraints
    of the constants, exactly [k] exclusion clauses, one for each of
    the models that answered the [k] queries before it, each a single
    disjunction, over all constants of the cluster, of the inequalities
    between a constant and the string that model gave it.  The
    solutions returned are built, in order, from the models that
    answered the first queries; no two of them compare equal; and with
    a backend whose models satisfy the exclusion clauses they were
    asked with, no two of these models give the constants the same
    vector of strings. *)
Theorem solve_quantifier_free_formula_enumerates fs :
  let log := (solve_quantifier_free_formula_traced
                max_number_smt_instantiations fs).1 in
  let constants := constants_of (solved_formulas fs) in
  let tree_substitutions := tree_substitutions_of (solved_formulas fs) in
  (length log <= max_number_smt_instantiations)%nat /\
  (forall k q, log !! k = Some q ->
     exists regex_formulas models,
       length regex_formulas = length constants /\
       length models = k /\
       Forall2 (fun earlier model => z3_solve earlier = (z3.sat, Some model))
         (take k log) models /\
       q = regex_formulas
             ++ map (exclusion_clause constants) models
             ++ map formula (solved_formulas fs)) /\
  (forall sols,
     solve_quantifier_free_formula max_number_smt_instantiations fs = Ok sols ->
     pairwise_distinct sols /\
     exists models,
       Forall2 (fun q model => z3_solve q = (z3.sat, Some model))
         (take (length sols) log) models /\
       Forall2 (solution_of_model tree_substitutions constants) models sols /\
       (honours_exclusions ->
        NoDup (map (assignment_vector constants) models))).
Proof.
  intros log constants tree_substitutions.
  subst log constants tree_substitutions.
  unfold solve_quantifier_free_formula.
  assert (NoDup (constants_of (solved_formulas fs))) as Hnd
    by apply NoDup_remove_dups.
  destruct (traced_is_loop fs)
    as [[e He]|Hloop].
  - rewrite He. simpl. split; [lia|]. split; [|done].
    intros k q Hk. by rewrite lookup_nil in Hk.
  - rewrite Hloop. split; [apply smt_loop_rounds|]. split.
    + intros k q Hk.
      destruct (smt_loop_query_models _ _ _ _ _ _ _ _ Hk)
        as (models & Hall & Hquery).
      simpl in Hquery.
      destruct (smt_query_shape _ _ _ _ _ Hquery) as (rf & Hrf & ->).
      exists rf, models. split; [done|]. split; [|split; [done|]].
      * apply Forall2_length in Hall. rewrite <- Hall.
        apply length_take_le. apply lookup_lt_Some in Hk. lia.
      * do 2 f_equal. rewrite map_map. apply map_ext.
        intros model. by apply blocking_clause_exclusion.
    + intros sols Hsols. split.
      * eapply smt_loop_distinct; [|exact Hsols].
        intros i j si sj _ Hi. by rewrite lookup_nil in Hi.
      * destruct (smt_loop_models _ _ _ _ _ _ [] _ Hnd eq_refl Hsols)
          as (later & Hlog & Hbuilt & _ & Hvec).
        simpl in Hbuilt. rewrite drop_0 in Hbuilt.
        exists later. split; [|split; [done|]].
        -- apply Forall2_length in Hbuilt. by rewrite <- Hbuilt.
        -- intros Hhon. apply (Hvec Hhon). constructor.
Qed.
End SolveQuantifierFreeFacts.

(** The second query of scenario S1 is answered unsat; the solver then
    returns the one solution found before. *)
Lemma solve_quantifier_free_formula_unsat_S1 :
  let bridge := ScenarioS1.bridge in
  let q := [z3.InRe (z3.String "<var>_1") (z3.Converted "<var>" 0);
            z3.Or [z3.Not (z3.Eq (z3.String "<var>_1") (z3.StringVal "x"))];
            z3.Eq (z3.String "<var>_1") (z3.StringVal "x")] in
  (solve_quantifier_free_formula_traced 10 [ScenarioS1.atom]).1 !! 1%nat
    = Some q /\
  (z3_solve q).1 <> z3.sat /\
  exists previous,
    length previous = 1%nat /\
    Forall2 (answered_with
               (tree_substitutions_of (solved_formulas [ScenarioS1.atom]))
               (constants_of (solved_formulas [ScenarioS1.atom])))
      (take 1 (solve_quantifier_free_formula_traced 10 [ScenarioS1.atom]).1)
      previous /\
    solve_quantifier_free_formula 10 [ScenarioS1.atom] = Ok previous /\
    (1%nat = 0%nat ->
     solve_quantifier_free_formula 10 [ScenarioS1.atom] = Ok []).
Proof.
  intros bridge q.
  assert ((solve_quantifier_free_formula_traced 10 [ScenarioS1.atom]).1
            !! 1%nat = Some q) as Hk by (vm_compute; reflexivity).
  assert ((z3_solve q).1 <> z3.sat) as Hq by (vm_compute; discriminate).
  split; [exact Hk|]. split; [exact Hq|].
  exact (solve_quantifier_free_formula_unsat 10 [ScenarioS1.atom] 1 q Hk Hq).
Defined.

(** The backend of scenario S2 answers with models that satisfy the
    query, its exclusion clauses among the rest. *)
Lemma S2_honours_exclusions : @honours_exclusions ScenarioS2.bridge.
Proof.
  intros q model assignment Hsolve Hin. simpl in Hsolve.
  apply list_elem_of_In in Hin.
  assert (ScenarioS2.satisfies model (blocking_clause assignment) = true)
    as Hsat.
  { destruct (forallb (ScenarioS2.satisfies (fun _ => "x")) q) eqn:Hx.
    - injection Hsolve as <-. rewrite forallb_forall in Hx. by apply Hx.
    - destruct (forallb (ScenarioS2.satisfies (fun _ => "y")) q) eqn:Hy;
        [|done].
      injection Hsolve as <-. rewrite forallb_forall in Hy. by apply Hy. }
  clear Hsolve Hin. rename Hsat into Hin.
  unfold blocking_clause, z3_or in Hin. unfold satisfies_exclusion.
  induction assignment as [|[c v] rest IH]; simpl in Hin; [done|].
  apply orb_true_iff in Hin as [Hhead|Hrest].
  - left. intros <-. simpl in Hhead. by rewrite String.eqb_refl in Hhead.
  - right. by apply IH.
Qed.

(** Scenario S2 asks three queries: two are answered with a model, the
    third, which excludes both, is not.  The two solutions come from
    the two models, and the models differ on the one constant. *)
Lemma solve_quantifier_free_formula_enumerates_S2 :
  let log := (@solve_quantifier_free_formula_traced ScenarioS2.bridge 10
                [ScenarioS2.atom]).1 in
  let constants := constants_of (solved_formulas [ScenarioS2.atom]) in
  @honours_exclusions ScenarioS2.bridge /\
  length log = 3%nat /\
  (exists q,
     log !! 2%nat = Some q /\
     exists regex_formulas models,
       length regex_formulas = length constants /\
       length models = 2%nat /\
       Forall2 (fun earlier model =>
                  @z3_solve ScenarioS2.bridge earlier = (z3.sat, Some model))
         (take 2 log) models /\
       q = regex_formulas
             ++ map (exclusion_clause constants) models
             ++ map formula (solved_formulas [ScenarioS2.atom])) /\
  exists sols,
    @solve_quantifier_free_formula ScenarioS2.bridge 10 [ScenarioS2.atom]
    = Ok sols /\
    length sols = 2%nat /\
    @pairwise_distinct sols /\
    exists models,
      Forall2 (fun q model =>
                 @z3_solve ScenarioS2.bridge q = (z3.sat, Some model))
        (take (length sols) log) models /\
      Forall2 (@solution_of_model ScenarioS2.bridge
                 (tree_substitutions_of (solved_formulas [ScenarioS2.atom]))
                 constants)
        models sols /\
      NoDup (map (assignment_vector constants) models).
Proof.
  intros log constants. split; [exact S2_honours_exclusions|].
  split; [vm_compute; reflexivity|].
  destruct (@solve_quantifier_free_formula_enumerates ScenarioS2.bridge 10
              [ScenarioS2.atom]) as (_ & Hqueries & Hsols).
  split.
  - eexists.
    match goal with
    | |- ?A /\ _ => assert A as Hk by (vm_compute; reflexivity)
    end.
    split; [exact Hk|]. exact (Hqueries 2%nat _ Hk).
  - eexists.
    match goal with
    | |- ?A /\ _ => assert A as Hrun by (vm_compute; reflexivity)
    end.
    split; [exact Hrun|]. split; [reflexivity|].
    destruct (Hsols _ Hrun) as (Hdistinct & models & Hlog & Hbuilt & Hvec).
    split; [exact Hdistinct|].
    exists models. split; [exact Hlog|]. split; [exact Hbuilt|].
    exact (Hvec S2_honours_exclusions).
Defined.

(** ** Symbol costs *)

(** C7, evaluated on the grammar of [SharedNonterminal].  [all_paths]
    appends [<x>] for the paths through [<a>], [<b>] and [<c>] and then
    refuses it for the path through [<d>], so the cost of [<d>] is never
    raised: the cycle-free path [<start>], [<d>], [<x>] ends with equal
    costs for [<d>] and [<x>].  The outcome is the same on both ways of
    drawing the grammar graph. *)
Theorem compute_symbol_costs_shared_nonterminal :
  let probe := SharedNonterminal.probe in
  let g := SharedNonterminal.canonical_grammar in
  root_path g "<start>" ["<start>"; "<d>"; "<x>"] = true /\
  NoDup ["<start>"; "<d>"; "<x>"] /\
  forall graph,
    graph = SharedNonterminal.graph \/ graph = SharedNonterminal.flat_graph ->
    exists costs,
      compute_symbol_costs g graph = Some (Ok costs) /\
      map (fun nonterminal => costs !! nonterminal) (map fst g)
        = SharedNonterminal.final_costs /\
      ~ strictly_decreasing costs ["<start>"; "<d>"; "<x>"].
Proof.
  intros probe g. split; [reflexivity|]. split.
  { repeat constructor; rewrite ?elem_of_cons, elem_of_nil;
      intros H; repeat destruct H as [H|H]; (discriminate || done). }
  assert (forall costs : gmap string Z,
             costs !! "<d>" = Some 1%Z -> costs !! "<x>" = Some 1%Z ->
             ~ strictly_decreasing costs ["<start>"; "<d>"; "<x>"]) as Hbad.
  { intros costs Hd Hx Hdec.
    destruct (Hdec 1%nat "<d>" "<x>" eq_refl eq_refl) as (cs & ct & Hcs & Hct & Hge).
    rewrite Hd in Hcs. rewrite Hx in Hct.
    injection Hcs as <-. injection Hct as <-. lia. }
  intros graph [-> | ->].
  - pose (r := compute_symbol_costs g SharedNonterminal.graph).
    assert (compute_symbol_costs g SharedNonterminal.graph = r) as Hr
      by reflexivity.
    vm_compute in r.
    match eval unfold r in r with
    | Some (Ok ?costs) => exists costs
    end.
    split; [exact Hr|].
    split; [vm_compute; reflexivity|].
    apply Hbad; vm_compute; reflexivity.
  - pose (r := compute_symbol_costs g SharedNonterminal.flat_graph).
    assert (compute_symbol_costs g SharedNonterminal.flat_graph = r) as Hr
      by reflexivity.
    vm_compute in r.
    match eval unfold r in r with
    | Some (Ok ?costs) => exists costs
    end.
    split; [exact Hr|].
    split; [vm_compute; reflexivity|].
    apply Hbad; vm_compute; reflexivity.
Qed.

(** ** Reasoning about methods *)

Lemma hoare_ret {A} (P : ISLaSolver -> Prop) (a : A) :
  hoare P (ret a) (fun b s => b = a /\ P s).
Proof. intros s b s' HP [= <- <-]. done. Qed.

Lemma hoare_bind {A B} (P : ISLaSolver -> Prop) (m : M A) (k : A -> M B)
    (Q : A -> ISLaSolver -> Prop) (R : B -> ISLaSolver -> Prop) :
  hoare P m Q -> (forall a, hoare (Q a) (k a) R) -> hoare P (bind m k) R.
Proof.
  intros Hm Hk s b s' HP. unfold bind.
  destruct (m s) as [[a s1]|e] eqn:E; [|done].
  intros Hrun. eapply Hk; [|exact Hrun]. by eapply Hm.
Qed.

Lemma hoare_weaken {A} (P P' : ISLaSolver -> Prop) (m : M A)
    (Q Q' : A -> ISLaSolver -> Prop) :
  hoare P' m Q' -> (forall s, P s -> P' s) ->
  (forall a s, Q' a s -> Q a s) -> hoare P m Q.
Proof. intros Hm HP HQ s a s' Hs Hrun. eapply HQ, Hm; eauto. Qed.

Lemma hoare_lift {A} (P : ISLaSolver -> Prop) (r : Result A) :
  hoare P (lift r) (fun a s => r = Ok a /\ P s).
Proof. intros s a s' HP. unfold lift. destruct r; [|done]. by intros [= <- <-]. Qed.

Lemma hoare_get (P : ISLaSolver -> Prop) :
  hoare P get (fun a s => a = s /\ P s).
Proof. intros s a s' HP [= <- <-]. done. Qed.

Lemma hoare_modify (P : ISLaSolver -> Prop) (f : ISLaSolver -> ISLaSolver) :
  hoare P (modify f) (fun _ s => exists s0, s = f s0 /\ P s0).
Proof. intros s a s' HP [= <- <-]. eauto. Qed.

(** A loop keeps what every round keeps. *)
Lemma hoare_for_each {A B} (I : ISLaSolver -> Prop) (xs : list A)
    (body : A -> M B) :
  (forall x, x ∈ xs -> hoare I (body x) (fun _ => I)) ->
  hoare I (for_each xs body) (fun _ => I).
Proof.
  induction xs as [|x xs IH]; intros Hbody; simpl.
  - intros s a s' HI [= <- <-]. done.
  - eapply hoare_bind; [apply Hbody; left|].
    intros b. eapply hoare_bind.
    + apply IH. intros y Hy. apply Hbody. by right.
    + intros bs s a s' HI [= <- <-]. done.
Qed.

(** ** Costs *)

Section CostFacts.
Context `{IslaLanguage, GraphQueries, Runtime}.

Lemma forallb_Qle_nonneg (costs : list Q) :
  forallb (fun c => Qle_bool 0 c) costs = true -> Forall (Qle 0) costs.
Proof.
  intros Hall. apply Forall_forall. intros c Hc.
  rewrite forallb_forall in Hall. apply Qle_bool_iff, Hall.
  by apply list_elem_of_In.
Qed.

Lemma compute_cost_nonneg state symbol_costs w k covered formula grammar graph
    chains c :
  (forall costs ws r,
     weighted_geometric_mean costs ws = Ok r -> Forall (Qle 0) costs ->
     (0 <= r)%Q) ->
  compute_cost state symbol_costs w k covered formula grammar graph chains
    = Ok c ->
  (0 <= c)%Q.
Proof.
  intros Hmean. unfold compute_cost.
  destruct (compute_tree_closing_cost _ _) as [tcc|]; simpl; [|done].
  destruct (if Qeq_bool _ _ then _ else _) as [vp|]; simpl; [|done].
  destruct (compute_k_coverage_cost _ _ _) as [kc|]; simpl; [|done].
  destruct (compute_global_k_coverage_cost _ _ _ _) as [gc|]; simpl; [|done].
  destruct (py_assert _) as [[]|] eqn:Hassert; simpl; [|done].
  intros Hr. eapply Hmean; [exact Hr|].
  apply forallb_Qle_nonneg. simpl.
  unfold py_assert in Hassert.
  by destruct (Qle_bool 0 (inject_Z tcc) && _).
Qed.

(** C8.  A state whose constraint is [true] costs [0], whatever the
    weight vector, the cost phase, the tree, the level and the covered
    k-paths are, and [compute_cost] leaves the solver as it found it.
    Every cost [compute_cost] returns is at least [0] (given that the
    weighted geometric mean of non-negative numbers is non-negative), so
    no queued state is ranked before a solved one. *)
Theorem compute_cost_solved_state (state : SolutionState) (self : ISLaSolver) :
  (forall costs ws r,
     weighted_geometric_mean costs ws = Ok r -> Forall (Qle 0) costs ->
     (0 <= r)%Q) ->
  formula_eqb (constraint state) sc.true = true ->
  ISLaSolver_compute_cost state self = Ok (0%Q, self) /\
  forall other self1 cost self2,
    ISLaSolver_compute_cost other self1 = Ok (cost, self2) ->
    (0 <= cost)%Q.
Proof.
  intros Hmean Htrue. split.
  - unfold ISLaSolver_compute_cost. by rewrite Htrue.
  - intros other self1 cost self2. unfold ISLaSolver_compute_cost.
    destruct (formula_eqb (constraint other) sc.true).
    { intros [= <- <-]. apply Qle_refl. }
    destruct (_ !! _) as [phase_length|]; [|done].
    destruct (if (_ >? _)%Z then _ else _) as [self'|]; simpl; [|done].
    destruct (_ !! _) as [w|]; [|done].
    destruct (compute_cost _ _ _ _ _ _ _ _ _) as [c|] eqn:Hc; simpl; [|done].
    intros [= <- <-]. by eapply compute_cost_nonneg.
Qed.
End CostFacts.

Lemma weighted_sum_nonneg (costs ws : list Q) (acc : Q) :
  (0 <= acc)%Q -> Forall (Qle 0) costs -> Forall (Qle 0) ws ->
  (0 <= fold_left Qplus (zip_with Qmult costs ws) acc)%Q.
Proof.
  intros Hacc Hcosts. revert ws acc Hacc.
  induction Hcosts as [|c costs Hc Hcosts IH]; intros ws acc Hacc Hws; simpl.
  - done.
  - destruct Hws as [|w ws Hw Hws]; simpl; [done|].
    apply IH; [|done].
    apply (Qle_trans _ (0 + 0)%Q); [apply Qle_refl|].
    apply Qplus_le_compat; [done|]. by apply Qmult_le_0_compat.
Qed.

Lemma tiny_mean_nonneg (costs ws : list Q) (r : Q) :
  @weighted_geometric_mean TinyWorld.runtime costs ws = Ok r ->
  Forall (Qle 0) costs -> (0 <= r)%Q.
Proof.
  simpl. destruct (forallb _ ws) eqn:Hws; [|done].
  intros [= <-] Hcosts. rewrite Qred_correct.
  apply weighted_sum_nonneg; [apply Qle_refl|done|].
  by apply forallb_Qle_nonneg.
Qed.

(** In the small world a solved state on a closed tree costs [0]. *)
Lemma compute_cost_solved_state_tiny :
  let state := new_state sc.true (TinyWorld.a_tree 100) in
  (forall costs ws r,
     @weighted_geometric_mean TinyWorld.runtime costs ws = Ok r ->
     Forall (Qle 0) costs -> (0 <= r)%Q) /\
  formula_eqb (constraint state) sc.true = true /\
  forall self,
    @ISLaSolver_compute_cost TinyWorld.language TinyWorld.queries
      TinyWorld.runtime state self = Ok (0%Q, self) /\
    forall other self1 cost self2,
      @ISLaSolver_compute_cost TinyWorld.language TinyWorld.queries
        TinyWorld.runtime other self1 = Ok (cost, self2) ->
      (0 <= cost)%Q.
Proof.
  intros state.
  split; [exact tiny_mean_nonneg|]. split; [reflexivity|].
  intros self.
  exact (@compute_cost_solved_state TinyWorld.language TinyWorld.queries
           TinyWorld.runtime state self tiny_mean_nonneg eq_refl).
Defined.

(** ** Every step of the main loop keeps a solver invariant *)

Section InvariantFacts.
Context `{IslaLanguage, GraphQueries, Runtime, SMTBridge}.

Lemma compute_cost_effect state s cost s' :
  ISLaSolver_compute_cost state s = Ok (cost, s') ->
  s' = s \/ exists phase since, s' = set_cost_phase phase since s.
Proof.
  unfold ISLaSolver_compute_cost.
  destruct (formula_eqb _ _); [intros [= _ <-]; by left|].
  destruct (_ !! _) as [phase_length|]; [|done].
  destruct (_ >? _)%Z.
  - destruct (length _) as [|n] eqn:Hlen; simpl; [done|].
    destruct (_ !! _) as [w|]; [|done].
    destruct (compute_cost _ _ _ _ _ _ _ _ _); simpl; [|done].
    intros [= _ <-]. right. eauto.
  - simpl. destruct (_ !! _) as [w|]; [|done].
    destruct (compute_cost _ _ _ _ _ _ _ _ _); simpl; [|done].
    intros [= _ <-]. by left.
Qed.

Lemma state_is_valid_or_enqueue_effect state s b s' :
  state_is_valid_or_enqueue state s = Ok (b, s') ->
  (b = true /\ s' = s /\ complete state = true) \/
  (b = false /\ complete state = false /\
   (s' = s \/
    exists cost s1,
      (s1 = s \/ exists phase since, s1 = set_cost_phase phase since s) /\
      s' = enqueued cost state s1 /\
      (enforce_unique_trees_in_queue s = true ->
       structural_hash (tree state) ∉ tree_hashes_in_queue s) /\
      formula_eqb (constraint state) sc.false = false)).
Proof.
  unfold state_is_valid_or_enqueue, bind, get, lift, ret. simpl.
  destruct (complete state) eqn:Hcomplete.
  { destruct (py_assert _); [|done]. intros [= <- <-]. left. done. }
  destruct (if _ || _ then _ else _) as [[]|]; [|done].
  destruct (enforce_unique_trees_in_queue s && _) eqn:Hdup.
  { intros [= <- <-]. right. repeat split; try done. by left. }
  destruct (formula_eqb (constraint state) sc.false) eqn:Hfalse.
  { intros [= <- <-]. right. repeat split; try done. by left. }
  destruct (ISLaSolver_compute_cost _ s) as [[cost s1]|] eqn:Hcost; [|done].
  unfold heappush, modify. simpl.
  intros [= <- <-]. right. repeat split; try done. right.
  apply compute_cost_effect in Hcost.
  exists cost, s1. split; [exact Hcost|]. split.
  - unfold enqueued. simpl.
    destruct Hcost as [->|(phase & since & ->)]; reflexivity.
  - split; [|done]. intros Henforce. rewrite Henforce in Hdup. simpl in Hdup.
    by apply bool_decide_eq_false in Hdup.
Qed.

Section Generic.
Variable I : ISLaSolver -> Prop.
Variable P : SolutionState -> Prop.
Hypothesis invariant : SolverInvariant I P.
Hypothesis prepared_states :
  forall self state states,
    prepared self state = Ok states -> Forall P states.

Lemma state_is_valid_or_enqueue_keeps state :
  P state -> hoare I (state_is_valid_or_enqueue state) (fun _ => I).
Proof.
  intros HP s b s' HI Hrun.
  apply state_is_valid_or_enqueue_effect in Hrun
    as [(_ & -> & _)|(_ & _ & [->|(cost & s1 & Hs1 & -> & Hfresh & _)])];
    try done.
  destruct Hs1 as [->|(phase & since & ->)].
  - by apply (inv_enqueued _ _ invariant).
  - apply (inv_enqueued _ _ invariant); [|done|done].
    by apply (inv_cost_phase _ _ invariant).
Qed.

Lemma process_new_state_keeps new_state :
  hoare I (process_new_state new_state) (fun _ => I).
Proof.
  intros s trees s' HI. unfold process_new_state, bind, get, lift. simpl.
  destruct (collect (map (remove_nonmatching_universal_quantifiers s) _))
    as [states1|] eqn:Hnm; [|done].
  destruct (collect (map (remove_infeasible_universal_quantifiers s) states1))
    as [states2|] eqn:Hinf; [|done].
  assert (Forall P states2) as HP.
  { apply (prepared_states s new_state). unfold prepared.
    rewrite Hnm. simpl. exact Hinf. }
  destruct (for_each states2 _ s) as [[valid s1]|] eqn:Hloop; [|done].
  unfold ret. intros [= _ <-].
  eapply (hoare_for_each I states2); [|exact HI|exact Hloop].
  intros state Hstate. eapply hoare_bind.
  - apply state_is_valid_or_enqueue_keeps.
    by eapply Forall_forall in HP.
  - intros ok s2 a s3 HI2 [= _ <-]. done.
Qed.

Lemma process_new_states_keeps new_states :
  hoare I (process_new_states new_states) (fun _ => I).
Proof.
  intros s trees s' HI. unfold process_new_states, bind.
  destruct (for_each new_states process_new_state s) as [[result s1]|] eqn:Hloop;
    [|done].
  unfold modify, ret. simpl. intros [= _ <-].
  assert (I s1) as HI1.
  { eapply (hoare_for_each I new_states); [|exact HI|exact Hloop].
    intros state _. apply process_new_state_keeps. }
  apply (inv_recorded _ _ invariant s1 (map tree new_states)) in HI1.
  exact HI1.
Qed.

Lemma process_successors_keeps successors :
  hoare I (process_successors successors) (fun _ => I).
Proof.
  destruct successors as [state|batches]; simpl.
  - apply process_new_state_keeps.
  - eapply hoare_bind.
    + apply hoare_for_each. intros batch _. apply process_new_states_keeps.
    + intros yielded s a s' HI [= _ <-]. done.
Qed.

Lemma heappop_entry (q : list (Q * SolutionState)) entry rest :
  heappop q = Some (entry, rest) ->
  entry ∈ q /\ exists idx, q !! idx = Some entry /\ rest = delete idx q.
Proof.
  unfold heappop. destruct (least_index q) as [idx|]; [|done].
  destruct (q !! idx) as [e|] eqn:Hidx; [|done].
  intros [= <- <-]. split; [|eauto].
  by eapply list_elem_of_lookup_2.
Qed.

Lemma solve_iteration_keeps iteration :
  hoare I (solve_iteration iteration) (fun _ => I).
Proof.
  intros s result s' HI. unfold solve_iteration, bind, get. simpl.
  destruct (heappop (queue s)) as [[[cost state] rest]|] eqn:Hpop; [|done].
  unfold modify, lift. simpl.
  destruct (py_assert _) as [[]|]; [|done].
  apply heappop_entry in Hpop as [Hin Hidx].
  pose proof (inv_popped _ _ invariant s (cost, state) rest HI Hin Hidx) as HI1.
  destruct (formula_eqb _ sc.false).
  { unfold ret. intros [= _ <-]. exact HI1. }
  destruct (apply_rules _ _ _) as [[rule successors]|]; [|done].
  destruct (process_successors successors _) as [[yielded s2]|] eqn:Hproc;
    [|done].
  unfold ret. intros [= _ <-].
  eapply process_successors_keeps; [exact HI1|exact Hproc].
Qed.

Lemma solve_loop_keeps rounds iteration start_time :
  hoare I (solve_loop rounds iteration start_time) (fun _ => I).
Proof.
  revert iteration. induction rounds as [|rounds IH]; intros iteration; simpl.
  - intros s a s' HI [= _ <-]. done.
  - intros s trees s' HI. unfold bind, get. simpl.
    destruct (queue s) eqn:Hq; [intros [= _ <-]; done|].
    destruct (match timeout_seconds s with Some _ => _ | None => _ end).
    { intros [= _ <-]. done. }
    destruct (solve_iteration iteration s) as [[[rule yielded] s1]|] eqn:Hit;
      [|done].
    destruct (solve_loop rounds (S iteration) start_time s1)
      as [[later s2]|] eqn:Hrest; [|done].
    unfold ret. intros [= _ <-].
    eapply IH; [|exact Hrest].
    eapply solve_iteration_keeps; [exact HI|exact Hit].
Qed.

Lemma solve_keeps rounds : hoare I (solve rounds) (fun _ => I).
Proof. apply solve_loop_keeps. Qed.
End Generic.
End InvariantFacts.

(** ** Disjunctive normal form: one disjunct per state *)

Lemma single_disjunct_not_disjunctive (f : Formula) :
  single_disjunct f = true -> isinstance_DisjunctiveFormula f = false.
Proof. by destruct f. Qed.

Lemma single_disjunct_split (f : Formula) :
  single_disjunct f = true -> split_disjunction f = [f].
Proof. by destruct f. Qed.

Lemma single_disjunct_true : single_disjunct sc.true = true.
Proof. reflexivity. Qed.

Lemma single_disjunct_false : single_disjunct sc.false = true.
Proof. reflexivity. Qed.

Lemma single_disjunct_and (a b : Formula) :
  single_disjunct a = true -> single_disjunct b = true ->
  single_disjunct (a & b) = true.
Proof.
  intros Ha Hb. unfold formula_and.
  repeat case_match; simpl; try done.
  by rewrite Ha, Hb.
Qed.

Lemma single_disjunct_neg (a : Formula) :
  single_disjunct (formula_neg a) = true.
Proof. unfold formula_neg. by repeat case_match. Qed.

(** The disjuncts of [a | b] are disjuncts of [a] or of [b], or a
    constant. *)
Lemma split_disjunction_or (a b : Formula) (Q : Formula -> Prop) :
  Q sc.true ->
  Forall Q (split_disjunction a) -> Forall Q (split_disjunction b) ->
  Forall Q (split_disjunction (a |' b)).
Proof.
  intros Htrue Ha Hb. unfold formula_or.
  repeat case_match; simpl; try done.
  - by repeat constructor.
  - by apply Forall_app.
Qed.

Lemma split_disjunction_fold_or (l : list Formula) (acc : Formula)
    (Q : Formula -> Prop) :
  Q sc.true ->
  Forall (fun f => Forall Q (split_disjunction f)) l ->
  Forall Q (split_disjunction acc) ->
  Forall Q (split_disjunction (fold_left formula_or l acc)).
Proof.
  intros Htrue Hl. revert acc.
  induction Hl as [|f l Hf Hl IH]; intros acc Hacc; simpl; [done|].
  apply IH. by apply split_disjunction_or.
Qed.

(** Whatever the formula, [convert_to_dnf] returns a disjunction of
    single disjuncts. *)
Lemma convert_to_dnf_disjuncts (f : Formula) :
  Forall (fun d => single_disjunct d = true)
    (split_disjunction (convert_to_dnf f)).
Proof.
  induction f; simpl; try (by repeat constructor).
  - apply split_disjunction_fold_or; [done| |by repeat constructor].
    apply Forall_forall. intros e He.
    apply list_elem_of_In, in_flat_map in He as (x & Hx & He).
    apply in_map_iff in He as (y & <- & Hy).
    assert (single_disjunct ((sc.true & x) & y) = true) as Hxy.
    { apply single_disjunct_and.
      - apply single_disjunct_and; [done|].
        by eapply Forall_forall in IHf1; [|apply list_elem_of_In].
      - by eapply Forall_forall in IHf2; [|apply list_elem_of_In]. }
    rewrite single_disjunct_split by done. by repeat constructor.
  - apply split_disjunction_or; [done| |done].
    apply split_disjunction_or; [done|by repeat constructor|done].
Qed.

Lemma replace_formula_single_disjunct (f to_replace replace_with : Formula) :
  single_disjunct replace_with = true ->
  single_disjunct f = true ->
  single_disjunct (replace_formula f to_replace replace_with) = true.
Proof.
  intros Hwith. induction f; simpl; intros Hf;
    destruct (formula_eqb _ to_replace); try done.
  - apply andb_prop in Hf as [Hf1 Hf2].
    apply single_disjunct_and; auto.
  - apply single_disjunct_neg.
Qed.

Section DisjunctFacts.
Context `{IslaLanguage, GraphQueries, Runtime, SMTBridge}.

Lemma establish_invariant_disjuncts (state : SolutionState) :
  Forall (fun s => single_disjunct (constraint s) = true)
    (establish_invariant state).
Proof.
  unfold establish_invariant. apply Forall_map.
  eapply Forall_impl; [apply convert_to_dnf_disjuncts|]. done.
Qed.

Lemma remove_nonmatching_single_disjunct self state result :
  single_disjunct (constraint state) = true ->
  remove_nonmatching_universal_quantifiers self state = Ok result ->
  single_disjunct (constraint result) = true.
Proof.
  unfold remove_nonmatching_universal_quantifiers.
  generalize (List.filter isinstance_ForallFormula
                (get_conjuncts (constraint state))).
  intros l. revert result.
  assert (forall (acc : Result SolutionState) result,
             (forall s, acc = Ok s -> single_disjunct (constraint s) = true) ->
             fold_left
               (fun acc universal_formula =>
                  let? result := acc in
                  let? in_variable := in_tree universal_formula in
                  if is_complete in_variable
                     && match matches_for_quantified_formula universal_formula
                                (grammar self) with
                        | [] => true
                        | _ => false
                        end
                  then Ok (new_state
                             (replace_formula (constraint result)
                                universal_formula sc.true)
                             (tree result))
                  else Ok result)
               l acc = Ok result ->
             single_disjunct (constraint result) = true) as Hfold.
  { induction l as [|u l IH]; intros acc result Hacc; simpl.
    - intros ->. by apply Hacc.
    - apply IH. intros s. destruct acc as [s0|]; simpl; [|done].
      destruct (in_tree u); simpl; [|done].
      destruct (_ && _); intros [= <-]; simpl.
      + apply replace_formula_single_disjunct; [done|by apply Hacc].
      + by apply Hacc. }
  intros result Hstate. apply Hfold. by intros s [= <-].
Qed.

Lemma remove_infeasible_single_disjunct self state result :
  single_disjunct (constraint state) = true ->
  remove_infeasible_universal_quantifiers self state = Ok result ->
  single_disjunct (constraint result) = true.
Proof.
  unfold remove_infeasible_universal_quantifiers.
  generalize (get_conjuncts (constraint state)).
  intros l. revert result.
  assert (forall (acc : Result SolutionState) result,
             (forall s, acc = Ok s -> single_disjunct (constraint s) = true) ->
             fold_left
               (fun acc universal_formula =>
                  let? result := acc in
                  if negb (isinstance_ForallFormula universal_formula)
                  then Ok result
                  else
                    let? in_variable := in_tree universal_formula in
                    if existsb
                         (fun '(leaf_path, _) =>
                            ISLaSolver_quantified_formula_might_match self
                              universal_formula leaf_path in_variable)
                         (open_leaves in_variable)
                    then Ok result
                    else
                      let? unmatched :=
                        unmatched_matches self universal_formula in
                      match unmatched with
                      | [] =>
                          Ok (new_state
                                (replace_formula (constraint result)
                                   universal_formula sc.true)
                                (tree result))
                      | _ => Ok result
                      end)
               l acc = Ok result ->
             single_disjunct (constraint result) = true) as Hfold.
  { induction l as [|u l IH]; intros acc result Hacc; simpl.
    - intros ->. by apply Hacc.
    - apply IH. intros s. destruct acc as [s0|]; simpl; [|done].
      destruct (negb _); [intros [= <-]; by apply Hacc|].
      destruct (in_tree u); simpl; [|done].
      destruct (existsb _ _); [intros [= <-]; by apply Hacc|].
      destruct (unmatched_matches self u) as [[|m ms]|]; simpl;
        try done; intros [= <-]; simpl.
      + apply replace_formula_single_disjunct; [done|by apply Hacc].
      + by apply Hacc. }
  intros result Hstate. apply Hfold. by intros s [= <-].
Qed.

Lemma collect_Forall2 {A B} (f : A -> Result B) (xs : list A) (ys : list B) :
  collect (map f xs) = Ok ys -> Forall2 (fun x y => f x = Ok y) xs ys.
Proof.
  revert ys. induction xs as [|x xs IH]; intros ys; simpl.
  - intros [= <-]. constructor.
  - destruct (f x) as [y|] eqn:Hx; simpl; [|done].
    destruct (collect (map f xs)) as [ys'|]; simpl; [|done].
    intros [= <-]. constructor; [done|]. by apply IH.
Qed.

Lemma Forall2_transfer {A B} (R : A -> B -> Prop) (P : A -> Prop)
    (Q : B -> Prop) (xs : list A) (ys : list B) :
  (forall x y, P x -> R x y -> Q y) ->
  Forall2 R xs ys -> Forall P xs -> Forall Q ys.
Proof.
  intros Hstep HR. induction HR as [|x y xs ys Hxy HR IH]; [done|].
  intros HP. apply Forall_cons in HP as [Hx Hxs].
  constructor; [by eapply Hstep|by apply IH].
Qed.

Lemma prepared_disjuncts self state states :
  prepared self state = Ok states ->
  Forall (fun s => single_disjunct (constraint s) = true) states.
Proof.
  unfold prepared.
  destruct (collect (map (remove_nonmatching_universal_quantifiers self) _))
    as [states1|] eqn:Hnm; simpl; [|done].
  intros Hinf.
  apply collect_Forall2 in Hnm. apply collect_Forall2 in Hinf.
  pose (D := fun s : SolutionState => single_disjunct (constraint s) = true).
  apply (Forall2_transfer _ D D _ _
           (fun x y Hx Hxy =>
              remove_infeasible_single_disjunct self x y Hx Hxy) Hinf).
  apply (Forall2_transfer _ D D _ _
           (fun x y Hx Hxy =>
              remove_nonmatching_single_disjunct self x y Hx Hxy) Hnm).
  apply establish_invariant_disjuncts.
Qed.

Lemma queue_of_disjuncts_invariant :
  SolverInvariant queue_of_disjuncts
    (fun s => single_disjunct (constraint s) = true).
Proof.
  split.
  - intros s phase since Hs. exact Hs.
  - intros s cost state Hs Hstate _. unfold queue_of_disjuncts, enqueued. simpl.
    apply Forall_app. split; [exact Hs|]. by repeat constructor.
  - intros s trees Hs. unfold queue_of_disjuncts, recorded. simpl.
    by destruct (bool_decide _).
  - intros s entry rest Hs _ (idx & _ & ->).
    unfold queue_of_disjuncts, popped. simpl.
    eapply Forall_forall. intros e He.
    eapply Forall_forall in Hs; [exact Hs|].
    eapply elem_of_sublist; [exact He|]. apply sublist_delete.
Qed.
End DisjunctFacts.

(** ** Construction *)

Section ConstructionFacts.
Context `{IslaLanguage, GraphQueries, Runtime, SMTBridge, CostProbe}.

(** The loop that fills the queue in [__init__] appends the given
    states, in order, and touches nothing but the queue and the cost
    phase. *)
Lemma initial_pushes (states : list SolutionState) (s s' : ISLaSolver)
    (r : list unit) :
  for_each states
    (fun state =>
       let* cost := ISLaSolver_compute_cost state in heappush (cost, state))
    s = Ok (r, s') ->
  map snd (queue s') = map snd (queue s) ++ states /\
  tree_hashes_in_queue s' = tree_hashes_in_queue s /\
  covered_k_paths s' = covered_k_paths s /\
  graph s' = graph s /\ cost_settings s' = cost_settings s /\
  enforce_unique_trees_in_queue s' = enforce_unique_trees_in_queue s /\
  top_constant s' = top_constant s /\ orig_formula s' = orig_formula s.
Proof.
  revert s r. induction states as [|state states IH]; intros s r; simpl.
  - intros [= _ <-]. by rewrite app_nil_r.
  - unfold bind at 1. unfold bind at 1.
    destruct (ISLaSolver_compute_cost state s) as [[cost s1]|] eqn:Hcost;
      [|done].
    unfold heappush, modify at 1. simpl.
    unfold bind at 1.
    destruct (for_each states _ _) as [[bs s2]|] eqn:Hrest; [|done].
    unfold ret. intros [= _ <-].
    apply IH in Hrest. simpl in Hrest.
    destruct Hrest as (Hq & Hh & Hc & Hg & Hcs & He & Ht & Hf).
    apply compute_cost_effect in Hcost.
    rewrite Hq, Hh, Hc, Hg, Hcs, He, Ht, Hf.
    rewrite map_app, <- app_assoc. simpl.
    destruct Hcost as [->|(phase & since & ->)]; done.
Qed.
Lemma ISLaSolver_init_ok grammar formula free smt ins enforce precompute
    debug asserts settings timeout self :
  ISLaSolver_init grammar formula free smt ins enforce precompute debug
    asserts settings timeout = Some (Ok self) ->
  exists c,
    top_constants (ensure_unique_bound_variables (given_formula formula)) = [c] /\
    top_constant self = c /\
    orig_formula self = ensure_unique_bound_variables (given_formula formula) /\
    map snd (queue self)
      = establish_invariant
          (new_state
             (substitute_expressions
                (ensure_unique_bound_variables (given_formula formula))
                [(KeyConstant c, initial_tree_for c)])
             (initial_tree_for c)) /\
    tree_hashes_in_queue self = {[structural_hash (initial_tree_for c)]} /\
    covered_k_paths self = ∅ /\
    graph self = from_grammar grammar /\
    cost_settings self = settings /\
    enforce_unique_trees_in_queue self = enforce.
Proof.
  unfold ISLaSolver_init.
  destruct (compute_symbol_costs _ _) as [[costs|]|]; [|done|done].
  fold (given_formula formula).
  destruct (top_constants _) as [|c [|c' cs]] eqn:Htop; simpl; try done.
  destruct (for_each _ _ _) as [[r s']|] eqn:Hloop; simpl; [|done].
  intros [= <-]. apply initial_pushes in Hloop. simpl in Hloop.
  destruct Hloop as (Hq & Hh & Hc & Hg & Hcs & He & Ht & Hf).
  exists c. by repeat split.
Qed.
(** C9.  Once the symbol costs are computed, [__init__] goes on only
    if the formula holds exactly one non-numeric constant: with none or
    with several the assertion fails; and when the construction
    succeeds, that constant is the [top_constant], and the queue holds
    the disjuncts of the formula in which the constant is replaced by
    the open tree of its type, on that tree. *)
Theorem ISLaSolver_init_top_constant grammar formula free smt ins enforce
    precompute debug asserts settings timeout costs :
  compute_symbol_costs grammar (from_grammar grammar) = Some (Ok costs) ->
  (length (top_constants
             (ensure_unique_bound_variables (given_formula formula))) <> 1%nat ->
   ISLaSolver_init grammar formula free smt ins enforce precompute debug
     asserts settings timeout = Some (Raise AssertionError)) /\
  (forall self,
     ISLaSolver_init grammar formula free smt ins enforce precompute debug
       asserts settings timeout = Some (Ok self) ->
     exists c,
       top_constants (ensure_unique_bound_variables (given_formula formula))
         = [c] /\
       top_constant self = c /\
       map snd (queue self)
         = establish_invariant
             (new_state
                (substitute_expressions
                   (ensure_unique_bound_variables (given_formula formula))
                   [(KeyConstant c, initial_tree_for c)])
                (initial_tree_for c))).
Proof.
  intros Hcosts. split.
  - intros Hlen. unfold ISLaSolver_init. rewrite Hcosts.
    fold (given_formula formula).
    destruct (top_constants _) as [|c [|c' cs]]; simpl; try done.
  - intros self Hinit.
    apply ISLaSolver_init_ok in Hinit as (c & Htop & Hc & _ & Hq & _).
    exists c. done.
Qed.
End ConstructionFacts.

(** In the small world the formula names one constant, [start]; the
    solver is built, and its queue holds the one initial state. *)
Lemma ISLaSolver_init_top_constant_tiny :
  let language := TinyWorld.language in
  let queries := TinyWorld.queries in
  let runtime := TinyWorld.runtime in
  let bridge := TinyWorld.bridge in
  let probe := TinyWorld.probe in
  compute_symbol_costs TinyWorld.grammar (from_grammar TinyWorld.grammar)
    = Some (Ok {[ "<start>" := 0%Z ]}) /\
  (exists self, TinyWorld.solver 1 = Some (Ok self)) /\
  (length (top_constants
             (ensure_unique_bound_variables
                (given_formula (inl TinyWorld.formula)))) <> 1%nat ->
   TinyWorld.solver 1 = Some (Raise AssertionError)) /\
  (forall self,
     TinyWorld.solver 1 = Some (Ok self) ->
     exists c,
       top_constants (ensure_unique_bound_variables
                        (given_formula (inl TinyWorld.formula))) = [c] /\
       top_constant self = c /\
       map snd (queue self)
         = establish_invariant
             (new_state
                (substitute_expressions
                   (ensure_unique_bound_variables
                      (given_formula (inl TinyWorld.formula)))
                   [(KeyConstant c, initial_tree_for c)])
                (initial_tree_for c))).
Proof.
  intros language queries runtime bridge probe.
  assert (compute_symbol_costs TinyWorld.grammar
            (from_grammar TinyWorld.grammar)
          = Some (Ok {[ "<start>" := 0%Z ]})) as Hcosts
    by (vm_compute; reflexivity).
  split; [exact Hcosts|]. split.
  - eexists. vm_compute. reflexivity.
  - exact (ISLaSolver_init_top_constant TinyWorld.grammar
             (inl TinyWorld.formula) 10 10 5 true false false true
             (TinyWorld.cost_settings 1) None _ Hcosts).
Defined.

(** ** The queue holds single disjuncts *)

Section QueueOfDisjuncts.
Context `{IslaLanguage, GraphQueries, Runtime, SMTBridge, CostProbe}.

Lemma ISLaSolver_init_disjuncts grammar formula free smt ins enforce
    precompute debug asserts settings timeout self :
  ISLaSolver_init grammar formula free smt ins enforce precompute debug
    asserts settings timeout = Some (Ok self) ->
  queue_of_disjuncts self.
Proof.
  intros Hinit.
  apply ISLaSolver_init_ok in Hinit as (c & _ & _ & _ & Hq & _).
  unfold queue_of_disjuncts.
  pose proof (establish_invariant_disjuncts
                (new_state
                   (substitute_expressions
                      (ensure_unique_bound_variables (given_formula formula))
                      [(KeyConstant c, initial_tree_for c)])
                   (initial_tree_for c))) as Hest.
  rewrite <- Hq in Hest. by apply Forall_map in Hest.
Qed.

End QueueOfDisjuncts.

(** ** Unique trees in the queue *)

Section UniqueTrees.
Context `{IslaLanguage, GraphQueries, Runtime, SMTBridge, CostProbe}.

Lemma NoDup_delete_lookup {A} (l : list A) (idx j : nat) (x y : A) :
  NoDup l -> l !! idx = Some x -> delete idx l !! j = Some y -> x <> y.
Proof.
  intros Hnd Hidx Hj ->.
  destruct (decide (j < idx)%nat) as [Hlt|Hge].
  - rewrite list_lookup_delete_lt in Hj by done.
    pose proof (NoDup_lookup _ _ _ _ Hnd Hidx Hj). lia.
  - rewrite list_lookup_delete_ge in Hj by lia.
    pose proof (NoDup_lookup _ _ _ _ Hnd Hidx Hj). lia.
Qed.

Lemma queue_of_unique_trees_invariant :
  SolverInvariant queue_of_unique_trees (fun _ => True).
Proof.
  split.
  - intros s phase since Hs. exact Hs.
  - intros s cost state (Henf & Hnd & Hrec) _ Hfresh.
    unfold queue_of_unique_trees, enqueued. simpl.
    split; [done|]. split.
    + rewrite map_app. simpl. apply NoDup_app. split; [done|]. split.
      * intros h Hh Hh'. apply list_elem_of_singleton in Hh'. subst h.
        apply list_elem_of_fmap in Hh as (entry & Heq & Hentry).
        apply (Hfresh Henf). rewrite Heq. by apply Hrec.
      * apply NoDup_singleton.
    + intros entry Hentry. apply elem_of_app in Hentry as [Hentry|Hentry].
      * apply elem_of_union_l. by apply Hrec.
      * apply list_elem_of_singleton in Hentry as ->. simpl.
        apply elem_of_union_r. by apply elem_of_singleton.
  - intros s trees Hs. unfold queue_of_unique_trees, recorded. simpl.
    by destruct (bool_decide _).
  - intros s entry rest (Henf & Hnd & Hrec) Hin (idx & Hidx & ->).
    unfold queue_of_unique_trees, popped. simpl.
    split; [done|]. split.
    + eapply sublist_NoDup; [exact Hnd|].
      apply (fmap_sublist _), sublist_delete.
    + intros e He. apply elem_of_difference. split.
      * apply Hrec. eapply elem_of_sublist; [exact He|apply sublist_delete].
      * intros Heq%elem_of_singleton.
        apply list_elem_of_lookup in He as (j & Hj).
        assert (map (fun entry => structural_hash (tree (snd entry)))
                  (delete idx (queue s)) !! j
                = Some (structural_hash (tree (snd e)))) as Hj'.
        { by rewrite list_lookup_fmap, Hj. }
        assert (map (fun entry => structural_hash (tree (snd entry)))
                  (queue s) !! idx
                = Some (structural_hash (tree (snd entry)))) as Hidx'.
        { by rewrite list_lookup_fmap, Hidx. }
        assert (delete idx
                  (map (fun entry => structural_hash (tree (snd entry)))
                     (queue s))
                = map (fun entry => structural_hash (tree (snd entry)))
                    (delete idx (queue s))) as Hdel.
        { clear. generalize (queue s). intros l. revert idx.
          induction l as [|x l IH]; intros [|idx]; simpl; try done.
          by rewrite IH. }
        rewrite <- Hdel in Hj'.
        by eapply (NoDup_delete_lookup _ _ _ _ _ Hnd Hidx' Hj').
Qed.
Lemma establish_invariant_tree (state s : SolutionState) :
  s ∈ establish_invariant state -> tree s = tree state.
Proof.
  unfold establish_invariant. intros Hs.
  apply list_elem_of_fmap in Hs as (d & -> & _). done.
Qed.

Lemma ISLaSolver_init_unique_trees grammar formula free smt ins precompute
    debug asserts settings timeout self :
  ISLaSolver_init grammar formula free smt ins true precompute debug
    asserts settings timeout = Some (Ok self) ->
  (length (queue self) <= 1)%nat ->
  queue_of_unique_trees self.
Proof.
  intros Hinit Hlen.
  apply ISLaSolver_init_ok in Hinit
    as (c & _ & _ & _ & Hq & Hh & _ & _ & _ & He).
  split; [done|]. split.
  - destruct (queue self) as [|e [|e' q]]; simpl in *; try lia.
    + constructor.
    + apply NoDup_singleton.
  - intros entry Hentry. rewrite Hh. apply elem_of_singleton.
    assert (snd entry ∈ map snd (queue self)) as Hsnd
      by (by apply list_elem_of_fmap_2).
    rewrite Hq in Hsnd. apply establish_invariant_tree in Hsnd.
    by rewrite Hsnd.
Qed.

(** C4, as the code has it.  With [enforce_unique_trees_in_queue], a
    state that is not complete and whose tree has its structural hash
    on record is dropped, not pushed; so, starting from a queue with at
    most one state, no two states on the queue ever have trees of equal
    structural hash, after any number of rounds of the main loop.
    Complete states are yielded before that test is reached. *)
Theorem queue_keeps_unique_trees :
  (forall grammar formula free smt ins precompute debug asserts settings
          timeout self,
     ISLaSolver_init grammar formula free smt ins true precompute debug
       asserts settings timeout = Some (Ok self) ->
     (length (queue self) <= 1)%nat ->
     queue_of_unique_trees self) /\
  (forall rounds self trees self',
     queue_of_unique_trees self ->
     solve rounds self = Ok (trees, self') ->
     queue_of_unique_trees self') /\
  (forall state self valid self',
     enforce_unique_trees_in_queue self = true ->
     structural_hash (tree state) ∈ tree_hashes_in_queue self ->
     state_is_valid_or_enqueue state self = Ok (valid, self') ->
     (valid = true /\ complete state = true /\ self' = self) \/
     (valid = false /\ self' = self)).
Proof.
  split; [|split].
  - intros. by eapply ISLaSolver_init_unique_trees.
  - intros rounds self trees self' Hself Hrun.
    eapply (solve_keeps queue_of_unique_trees (fun _ => True)
              queue_of_unique_trees_invariant);
      [|exact Hself|exact Hrun].
    intros s state states _. by apply Forall_forall.
  - intros state self valid self' Henf Hrec Hrun.
    apply state_is_valid_or_enqueue_effect in Hrun
      as [(-> & -> & Hc)|(-> & _ & [->|(cost & s1 & _ & _ & Hfresh & _)])].
    + by left.
    + by right.
    + by destruct (Hfresh Henf).
Qed.
End UniqueTrees.

(** C4 as stated fails in the small world: the popped state has the
    constraint [true] after its structural predicate is evaluated, the
    fuzzer closes the tree ten times in the same way, and each of the
    ten trees is yielded.  They have the same shape, hence the same
    structural hash. *)
Lemma solve_yields_equal_trees :
  exists self trees self',
    TinyWorld.solver 1 = Some (Ok self) /\
    enforce_unique_trees_in_queue self = true /\
    @solve TinyWorld.language TinyWorld.queries TinyWorld.runtime
      TinyWorld.bridge 2 self = Ok (trees, self') /\
    length trees = 10%nat /\
    (forall t, t ∈ trees -> shape t = shape (TinyWorld.a_tree 0)) /\
    ~ NoDup (map (@structural_hash TinyWorld.runtime) trees).
Proof.
  eexists _, _, _.
  split; [vm_compute; reflexivity|].
  split; [reflexivity|].
  split; [vm_compute; reflexivity|].
  split; [reflexivity|]. split.
  - intros t Ht. repeat (apply elem_of_cons in Ht as [->|Ht]; [reflexivity|]).
    by apply elem_of_nil in Ht.
  - intros Hnd. apply NoDup_cons in Hnd as [Hnotin _].
    apply Hnotin. vm_compute. left.
Qed.

(** In the small world the queue starts with one state and stays free
    of equal trees. *)
Lemma queue_keeps_unique_trees_tiny :
  exists self trees self',
    TinyWorld.solver 1 = Some (Ok self) /\
    @solve TinyWorld.language TinyWorld.queries TinyWorld.runtime
      TinyWorld.bridge 2 self = Ok (trees, self') /\
    (length (queue self) <= 1)%nat /\
    @queue_of_unique_trees TinyWorld.runtime self /\
    @queue_of_unique_trees TinyWorld.runtime self'.
Proof.
  eexists _, _, _.
  match goal with
  | |- ?A /\ ?B /\ ?C /\ _ =>
      assert A as Hinit by (vm_compute; reflexivity);
      assert B as Hrun by (vm_compute; reflexivity);
      assert C as Hlen by (vm_compute; lia)
  end.
  destruct (@queue_keeps_unique_trees TinyWorld.language
              TinyWorld.queries TinyWorld.runtime TinyWorld.bridge
              TinyWorld.probe) as (Hi & Hs & _).
  pose proof (Hi _ _ _ _ _ _ _ _ _ _ _ Hinit Hlen) as Hself.
  pose proof (Hs _ _ _ _ Hself Hrun) as Hself'.
  split; [exact Hinit|]. split; [exact Hrun|].
  split; [exact Hlen|]. split; [exact Hself|exact Hself'].
Defined.

(** ** The order of the rules in the main loop *)

Section RuleOrderFacts.
Context `{IslaLanguage, GraphQueries, Runtime, SMTBridge}.

Lemma apply_rules_first_applicable self iteration state :
  first_applicable (rule_attempts self iteration state)
  = (let? r := apply_rules self iteration state in Ok (Some r)).
Proof.
  unfold apply_rules, rule_attempts. simpl.
  destruct (instantiate_numeric_constant_intros state); simpl; [done|].
  destruct (match_all_universal_formulas self state) as [[rs|]|]; simpl;
    try done.
  destruct (existsb isinstance_ForallFormula _); simpl.
  { destruct (expand_tree self iteration state); simpl; [|done].
    by destruct (py_assert _) as [[]|]. }
  destruct (eliminate_all_semantic_formulas self state) as [[rs|]|]; simpl;
    try done.
  destruct (eliminate_all_ready_semantic_predicate_formulas self state);
    simpl; [done|].
  destruct (eliminate_first_match_all_existential_formulas self iteration state)
    as [[rs|]|]; simpl; try done.
  by destruct (free_instantiations self iteration state).
Qed.

Lemma entry_lt_cost (a b : Q * SolutionState) :
  entry_lt a b = true -> (fst a <= fst b)%Q.
Proof.
  unfold entry_lt. intros [Hlt|Heq]%orb_prop.
  - apply negb_true_iff in Hlt.
    destruct (Qlt_le_dec (fst a) (fst b)) as [Hab|Hba].
    + by apply Qlt_le_weak.
    + apply Qle_bool_iff in Hba. congruence.
  - apply andb_prop in Heq as [Heq _].
    apply Qeq_bool_iff in Heq. rewrite Heq. apply Qle_refl.
Qed.

Lemma not_entry_lt_cost (a b : Q * SolutionState) :
  entry_lt a b = false -> (fst b <= fst a)%Q.
Proof.
  unfold entry_lt. intros Hnot. apply orb_false_elim in Hnot as [Hnot _].
  apply negb_false_iff in Hnot. by apply Qle_bool_iff.
Qed.

(** The scan for a least entry: the best entry so far sits at its
    index and costs no more than anything seen. *)
Lemma least_scan (seen rest : list (Q * SolutionState))
    (best_idx : nat) (best : Q * SolutionState) :
  seen !! best_idx = Some best ->
  Forall (fun e => (fst best <= fst e)%Q) seen ->
  let '(idx, found, _) :=
    fold_left
      (fun '(best_idx, best, idx) entry =>
         if entry_lt entry best then (idx, entry, S idx)
         else (best_idx, best, S idx))
      rest (best_idx, best, length seen) in
  (seen ++ rest) !! idx = Some found /\
  Forall (fun e => (fst found <= fst e)%Q) (seen ++ rest).
Proof.
  revert seen best_idx best.
  induction rest as [|entry rest IH]; intros seen best_idx best Hidx Hall;
    simpl.
  - rewrite app_nil_r. done.
  - destruct (entry_lt entry best) eqn:Hlt.
    + specialize (IH (seen ++ [entry]) (length seen) entry).
      rewrite length_app in IH. simpl in IH.
      replace (length seen + 1)%nat with (S (length seen)) in IH by lia.
      rewrite <- app_assoc in IH. simpl in IH. apply IH.
      * by rewrite list_lookup_middle.
      * apply Forall_app. split.
        -- eapply Forall_impl; [exact Hall|]. intros e He. simpl in He.
           eapply Qle_trans; [|exact He]. by apply entry_lt_cost.
        -- repeat constructor. apply Qle_refl.
    + specialize (IH (seen ++ [entry]) best_idx best).
      rewrite length_app in IH. simpl in IH.
      replace (length seen + 1)%nat with (S (length seen)) in IH by lia.
      rewrite <- app_assoc in IH. simpl in IH. apply IH.
      * rewrite lookup_app_l; [done|]. by eapply lookup_lt_Some.
      * apply Forall_app. split; [done|].
        repeat constructor. by apply not_entry_lt_cost.
Qed.

Lemma heappop_least (q : list (Q * SolutionState)) entry rest :
  heappop q = Some (entry, rest) ->
  forall e, e ∈ q -> (fst entry <= fst e)%Q.
Proof.
  unfold heappop, least_index. destruct q as [|e0 q]; [done|].
  pose proof (least_scan [e0] q 0 e0 eq_refl) as Hscan. simpl in Hscan.
  destruct (fold_left _ q (0%nat, e0, 1%nat)) as [[idx found] n].
  destruct Hscan as [Hidx Hall].
  { repeat constructor. apply Qle_refl. }
  rewrite Hidx. intros [= <- <-] e He.
  by eapply Forall_forall in Hall.
Qed.

(** C2, as the code has it.  A round of the main loop pops an entry of
    least cost and is the round told by priorities: structural
    predicates are instantiated first, whatever follows; a constraint
    that has become [false] ends the round without successors;
    otherwise numeric constants, universal matching, expansion, SMT
    formulas, ready semantic predicates, existential formulas and free
    fuzzing are tried in this order on the rewritten state, and the
    first that applies supplies the successors. *)
Theorem solve_iteration_rule_order :
  (forall q entry rest,
     heappop q = Some (entry, rest) ->
     forall e, e ∈ q -> (fst entry <= fst e)%Q) /\
  (forall self iteration state,
     first_applicable (rule_attempts self iteration state)
     = (let? r := apply_rules self iteration state in Ok (Some r))) /\
  (forall iteration self,
     solve_iteration iteration self = iteration_by_priority iteration self).
Proof.
  split; [exact heappop_least|]. split; [exact apply_rules_first_applicable|].
  intros iteration self.
  unfold solve_iteration, iteration_by_priority, bind, get, modify, lift.
  destruct (heappop (queue self)) as [[[cost state] rest]|]; [|done].
  unfold popped. cbn [fst snd rbind].
  destruct (py_assert _) as [[]|]; cbn [rbind]; [|done].
  destruct (formula_eqb _ sc.false); [done|].
  rewrite apply_rules_first_applicable.
  destruct (apply_rules _ _ _) as [[rule successors]|]; simpl; [|done].
  destruct (process_successors successors _) as [[yielded self2]|]; done.
Qed.
End RuleOrderFacts.

(** C2 as stated fails in the small world.  The state popped first has
    the constraint [same_position(t, t)]; instantiating the structural
    predicate turns it into [true], which is progress, yet the round
    goes on: free fuzzing supplies the successors and ten trees are
    yielded.  By the order of the specification the round would end
    with the rewritten state as its only successor, and yield nothing. *)
Lemma solve_iteration_not_as_specified :
  exists self,
    TinyWorld.solver 1 = Some (Ok self) /\
    (exists trees self',
       @solve_iteration TinyWorld.language TinyWorld.queries TinyWorld.runtime
         TinyWorld.bridge 0 self = Ok (Some FreeFuzzing, trees, self') /\
       length trees = 10%nat) /\
    (exists self',
       @iteration_as_specified TinyWorld.language TinyWorld.queries
         TinyWorld.runtime TinyWorld.bridge 0 self
       = Ok (Some StructuralPredicates, [], self')) /\
    @solve_iteration TinyWorld.language TinyWorld.queries TinyWorld.runtime
      TinyWorld.bridge 0 self
    <> @iteration_as_specified TinyWorld.language TinyWorld.queries
         TinyWorld.runtime TinyWorld.bridge 0 self.
Proof.
  eexists.
  match goal with
  | |- ?A /\ _ => assert A as Hinit by (vm_compute; reflexivity)
  end.
  split; [exact Hinit|].
  match goal with
  | |- (exists ts s1, ?run = _ /\ _) /\ (exists s2, ?spec = _) /\ _ =>
      pose (r := run); assert (run = r) as Hr by reflexivity;
      pose (r' := spec); assert (spec = r') as Hr' by reflexivity
  end.
  vm_compute in r. vm_compute in r'.
  split; [|split].
  - rewrite Hr. subst r. eexists _, _. split; reflexivity.
  - rewrite Hr'. subst r'. eexists. reflexivity.
  - rewrite Hr, Hr'. subst r r'. discriminate.
Qed.


(** In the small world the first round pops the only entry of the
    queue and is the round told by priorities. *)
Lemma solve_iteration_rule_order_tiny :
  exists self entry rest,
    TinyWorld.solver 1 = Some (Ok self) /\
    @heappop TinyWorld.runtime (queue self) = Some (entry, rest) /\
    (forall e, e ∈ queue self -> (fst entry <= fst e)%Q) /\
    @solve_iteration TinyWorld.language TinyWorld.queries TinyWorld.runtime
      TinyWorld.bridge 0 self
    = @iteration_by_priority TinyWorld.language TinyWorld.queries
        TinyWorld.runtime TinyWorld.bridge 0 self.
Proof.
  eexists _, _, _.
  match goal with
  | |- ?A /\ ?B /\ _ =>
      assert A as Hinit by (vm_compute; reflexivity);
      assert B as Hpop by (vm_compute; reflexivity)
  end.
  destruct (@solve_iteration_rule_order TinyWorld.language
              TinyWorld.queries TinyWorld.runtime TinyWorld.bridge)
    as (Hleast & _ & Hround).
  split; [exact Hinit|]. split; [exact Hpop|].
  split; [exact (Hleast _ _ _ Hpop)|exact (Hround 0%nat _)].
Defined.

(** ** The structural predicates [before] and [after] *)

(** X1.  [is_before] decides by the first position at which the two
    paths differ: one path is before another exactly when they share a
    prefix after which the first continues with a smaller child index
    than the second. *)
Theorem is_before_first_difference (p q : Path) :
  isla_predicates.is_before p q = true <->
  exists common a b p' q',
    p = common ++ a :: p' /\ q = common ++ b :: q' /\ (a < b)%nat.
Proof.
  revert q. induction p as [|a p IH]; intros q.
  - split; [done|]. intros (c & a & b & p' & q' & Hp & _).
    by destruct c.
  - destruct q as [|b q]; simpl.
    { split; [done|]. intros (c & a' & b' & p' & q' & _ & Hq & _).
      by destruct c. }
    destruct (Nat.ltb_spec a b) as [Hab|Hab].
    { split; [|done]. intros _. by exists [], a, b, p, q. }
    destruct (Nat.ltb_spec b a) as [Hba|Hba].
    { split; [done|]. intros (c & a' & b' & p' & q' & Hp & Hq & Hlt).
      destruct c as [|x c]; simpl in *; simplify_eq; lia. }
    assert (a = b) as -> by lia. rewrite IH. split.
    + intros (c & a' & b' & p' & q' & -> & -> & Hlt).
      by exists (b :: c), a', b', p', q'.
    + intros (c & a' & b' & p' & q' & Hp & Hq & Hlt).
      destruct c as [|x c]; simpl in *.
      * simplify_eq. lia.
      * simplify_eq. by exists c, a', b', p', q'.
Qed.

Lemma is_before_irreflexive (p : Path) : isla_predicates.is_before p p = false.
Proof.
  induction p as [|a p IH]; simpl; [done|].
  by rewrite Nat.ltb_irrefl.
Qed.

(** X2.  [is_before] is a strict order on paths: no path is before
    itself, two paths are never before each other, and the relation is
    transitive. *)
Theorem is_before_strict_order :
  (forall p, isla_predicates.is_before p p = false) /\
  (forall p q,
     isla_predicates.is_before p q = true ->
     isla_predicates.is_before q p = false) /\
  (forall p q r,
     isla_predicates.is_before p q = true ->
     isla_predicates.is_before q r = true ->
     isla_predicates.is_before p r = true).
Proof.
  split; [exact is_before_irreflexive|]. split.
  - induction p as [|a p IH]; intros [|b q]; simpl; try done.
    destruct (Nat.ltb_spec a b), (Nat.ltb_spec b a); try done; try lia.
    apply IH.
  - induction p as [|a p IH]; intros [|b q] [|c r]; simpl; try done.
    destruct (Nat.ltb_spec a b), (Nat.ltb_spec b a), (Nat.ltb_spec b c),
      (Nat.ltb_spec c b), (Nat.ltb_spec a c), (Nat.ltb_spec c a);
      try done; try lia.
    apply IH.
Qed.

(** The paths of the comment in [is_before], and one more. *)
Lemma is_before_strict_order_paths :
  isla_predicates.is_before [1; 0] [1; 1] = true /\
  isla_predicates.is_before [1; 1] [2] = true /\
  isla_predicates.is_before [1; 1] [1; 0] = false /\
  isla_predicates.is_before [1; 0] [2] = true.
Proof.
  destruct is_before_strict_order as (_ & Hasym & Htrans).
  split; [reflexivity|]. split; [reflexivity|]. split.
  - exact (Hasym [1; 0] [1; 1] eq_refl).
  - exact (Htrans [1; 0] [1; 1] [2] eq_refl eq_refl).
Defined.

Lemma prefix_not_before (p q : Path) :
  p `prefix_of` q ->
  isla_predicates.is_before p q = false /\
  isla_predicates.is_before q p = false.
Proof.
  intros [r ->]. induction p as [|a p IH]; simpl.
  - by destruct r.
  - by rewrite Nat.ltb_irrefl.
Qed.

(** X3.  A path and a prefix of it are not ordered by [is_before], in
    either direction; so the root path is before nothing and nothing is
    before it. *)
Theorem is_before_prefix (p q : Path) :
  p `prefix_of` q \/ q `prefix_of` p ->
  isla_predicates.is_before p q = false /\
  isla_predicates.is_before q p = false.
Proof.
  intros [Hp|Hq]; [by apply prefix_not_before|].
  apply prefix_not_before in Hq. tauto.
Qed.

(** [(1,)] is not before [(1,0)], nor the other way round. *)
Lemma is_before_prefix_paths :
  [1] `prefix_of` [1; 0] /\
  isla_predicates.is_before [1] [1; 0] = false /\
  isla_predicates.is_before [1; 0] [1] = false.
Proof.
  assert ([1] `prefix_of` [1; 0]) as Hpre by (by exists [0]).
  split; [exact Hpre|].
  exact (is_before_prefix [1] [1; 0] (or_introl Hpre)).
Defined.

(** X4.  The predicate [after] holds of two paths exactly when the
    second is before the first or is a proper prefix of the first: a
    node is after each of its ancestors, though no ancestor is before
    it. *)
Theorem after_predicate (p q : Path) :
  isla_predicates.evaluator isla_predicates.AFTER_PREDICATE p q = true <->
  isla_predicates.is_before q p = true \/ exists a r, p = q ++ a :: r.
Proof.
  simpl. rewrite andb_true_iff, !negb_true_iff, bool_decide_eq_false.
  revert q. induction p as [|a p IH]; intros q.
  - simpl. split; [by intros [_ Hne]|].
    intros [Hb|(a & r & Hp)]; [by destruct q|by destruct q].
  - destruct q as [|b q]; simpl.
    { split; [|done]. intros _. right. by exists a, p. }
    destruct (Nat.ltb_spec a b), (Nat.ltb_spec b a); try lia.
    + split; [by intros [? _]|].
      intros [?|(a' & r & Hp)]; [done|]. simplify_eq. lia.
    + split; [|intros _; split; [done|intros ?; simplify_eq; lia]].
      intros _. by left.
    + assert (a = b) as -> by lia. specialize (IH q). split.
      * intros [Hb Hne].
        destruct (proj1 IH) as [Hq|(a' & r & ->)].
        { split; [done|]. intros Heq. apply Hne. by f_equal. }
        { by left. }
        { right. by exists a', r. }
      * intros Hafter.
        destruct (proj2 IH) as [Hb Hne].
        { destruct Hafter as [Hq|(a' & r & Hp)]; [by left|].
          right. exists a', r. by simplify_eq. }
        split; [done|]. intros Heq. apply Hne. by simplify_eq.
Qed.


(** ** What the main loop enqueues and yields *)

Section EnqueueFacts.
Context `{IslaLanguage, GraphQueries, Runtime, SMTBridge}.

(** X5.  [state_is_valid_or_enqueue] answers whether the state is
    complete.  A complete state leaves the solver as it is.  Otherwise
    the state is dropped, or pushed once at the end of the queue, with
    its constraint and tree, one level below the current one, and the
    hash of its tree is put on record.  A state whose constraint is
    [false] is never pushed, nor is, with
    [enforce_unique_trees_in_queue], a state whose tree has its hash
    on record. *)
Theorem state_is_valid_or_enqueue_contract state s b s' :
  state_is_valid_or_enqueue state s = Ok (b, s') ->
  b = complete state /\
  (b = true -> s' = s) /\
  (queue s' = queue s /\ tree_hashes_in_queue s' = tree_hashes_in_queue s \/
   exists cost,
     queue s' = queue s ++ [(cost, {| constraint := constraint state;
                                      tree := tree state;
                                      level := (current_level s + 1)%Z |})] /\
     tree_hashes_in_queue s'
       = tree_hashes_in_queue s ∪ {[structural_hash (tree state)]}) /\
  (formula_eqb (constraint state) sc.false = true -> queue s' = queue s) /\
  (enforce_unique_trees_in_queue s = true ->
   structural_hash (tree state) ∈ tree_hashes_in_queue s ->
   queue s' = queue s).
Proof.
  intros Hrun.
  apply state_is_valid_or_enqueue_effect in Hrun
    as [(-> & -> & ->)|(-> & -> & [->|(cost & s1 & Hs1 & -> & Hfresh & Hfalse)])].
  - repeat split; try done. by left.
  - repeat split; try done. by left.
  - assert (queue s1 = queue s /\ tree_hashes_in_queue s1 = tree_hashes_in_queue s
            /\ current_level s1 = current_level s) as (Hq & Hh & Hl).
    { by destruct Hs1 as [->|(phase & since & ->)]. }
    split; [done|]. split; [done|]. split; [|split].
    + right. exists cost. unfold enqueued. simpl. by rewrite Hq, Hh, Hl.
    + intros Ht. congruence.
    + intros Henf Hin. by destruct (Hfresh Henf).
Qed.
End EnqueueFacts.

(** What a loop returns: every round's result has the property that
    each round establishes. *)
Lemma for_each_results {A B} (R : B -> Prop) (xs : list A) (body : A -> M B) :
  (forall x, x ∈ xs -> hoare (fun _ => True) (body x) (fun b _ => R b)) ->
  hoare (fun _ => True) (for_each xs body) (fun bs _ => Forall R bs).
Proof.
  induction xs as [|x xs IH]; intros Hbody s bs s' _; simpl.
  - intros [= <- <-]. constructor.
  - unfold bind.
    destruct (body x s) as [[b s1]|] eqn:Hb; [|done].
    destruct (for_each xs body s1) as [[bs' s2]|] eqn:Hrest; [|done].
    intros [= <- <-]. constructor.
    + eapply Hbody; [by left|done|exact Hb].
    + eapply IH; [|done|exact Hrest].
      intros y Hy. apply Hbody. by right.
Qed.

Section YieldFacts.
Context `{IslaLanguage, GraphQueries, Runtime, SMTBridge}.

Lemma process_new_state_yields new_state :
  hoare (fun _ => True) (process_new_state new_state)
    (fun trees _ => Forall closed_tree trees).
Proof.
  intros s trees s' _. unfold process_new_state, bind, get, lift. simpl.
  destruct (collect (map (remove_nonmatching_universal_quantifiers s) _))
    as [states1|]; [|done].
  destruct (collect (map (remove_infeasible_universal_quantifiers s) states1))
    as [states2|]; simpl; [|done].
  destruct (for_each states2 _ s) as [[valid s1]|] eqn:Hloop; [|done].
  unfold ret. intros [= <- <-].
  apply Forall_concat.
  eapply (for_each_results (Forall closed_tree)); [|done|exact Hloop].
  intros state _ s2 ts s3 _. unfold bind.
  destruct (state_is_valid_or_enqueue state s2) as [[ok s4]|] eqn:Hok; [|done].
  unfold ret. intros [= <- <-].
  apply state_is_valid_or_enqueue_effect in Hok
    as [(-> & _ & Hc)|(-> & _)]; [|constructor].
  repeat constructor. unfold complete in Hc. unfold closed_tree.
  by destruct (is_complete (tree state)).
Qed.

Lemma process_new_states_yields new_states :
  hoare (fun _ => True) (process_new_states new_states)
    (fun trees _ => Forall closed_tree trees).
Proof.
  intros s trees s' _. unfold process_new_states, bind.
  destruct (for_each new_states process_new_state s) as [[result s1]|] eqn:Hloop;
    [|done].
  unfold modify, ret. simpl. intros [= <- _].
  apply Forall_concat.
  eapply (for_each_results (Forall closed_tree)); [|done|exact Hloop].
  intros state _. apply process_new_state_yields.
Qed.

Lemma process_successors_yields successors :
  hoare (fun _ => True) (process_successors successors)
    (fun trees _ => Forall closed_tree trees).
Proof.
  destruct successors as [state|batches]; simpl.
  - apply process_new_state_yields.
  - intros s trees s' _. unfold bind.
    destruct (for_each batches process_new_states s) as [[result s1]|] eqn:Hloop;
      [|done].
    unfold ret. intros [= <- _]. apply Forall_concat.
    eapply (for_each_results (Forall closed_tree)); [|done|exact Hloop].
    intros batch _. apply process_new_states_yields.
Qed.

Lemma solve_iteration_yields iteration :
  hoare (fun _ => True) (solve_iteration iteration)
    (fun r _ => Forall closed_tree (snd r)).
Proof.
  intros s result s' _. unfold solve_iteration, bind, get. simpl.
  destruct (heappop (queue s)) as [[[cost state] rest]|]; [|done].
  unfold modify, lift. simpl.
  destruct (py_assert _) as [[]|]; [|done].
  destruct (formula_eqb _ sc.false).
  { unfold ret. intros [= <- _]. constructor. }
  destruct (apply_rules _ _ _) as [[rule successors]|]; [|done].
  destruct (process_successors successors _) as [[yielded s2]|] eqn:Hproc;
    [|done].
  unfold ret. intros [= <- _]. simpl.
  eapply process_successors_yields; [done|exact Hproc].
Qed.

Lemma solve_loop_yields rounds iteration start_time :
  hoare (fun _ => True) (solve_loop rounds iteration start_time)
    (fun trees _ => Forall closed_tree trees).
Proof.
  revert iteration. induction rounds as [|rounds IH]; intros iteration; simpl.
  - intros s a s' _ [= <- _]. constructor.
  - intros s trees s' _. unfold bind, get. simpl.
    destruct (queue s) eqn:Hq; [intros [= <- _]; constructor|].
    destruct (match timeout_seconds s with Some _ => _ | None => _ end).
    { intros [= <- _]. constructor. }
    destruct (solve_iteration iteration s) as [[[rule yielded] s1]|] eqn:Hit;
      [|done].
    destruct (solve_loop rounds (S iteration) start_time s1)
      as [[later s2]|] eqn:Hrest; [|done].
    unfold ret. intros [= <- _]. apply Forall_app. split.
    + exact (solve_iteration_yields iteration s (rule, yielded) s1 I Hit).
    + by eapply IH.
Qed.

(** X6.  Every tree [solve] yields is complete: it has no open leaf. *)
Theorem solve_yields_complete_trees rounds self trees self' :
  solve rounds self = Ok (trees, self') ->
  Forall (fun t => is_complete t = true) trees.
Proof. intros Hrun. by eapply (solve_loop_yields rounds 0). Qed.
End YieldFacts.

Section LevelFacts.
Context `{IslaLanguage, GraphQueries, Runtime, SMTBridge, CostProbe}.

Lemma levels_from_zero_invariant :
  SolverInvariant levels_from_zero (fun _ => True).
Proof.
  split.
  - intros s phase since Hs. exact Hs.
  - intros s cost state [Hl Hq] _ _. unfold levels_from_zero, enqueued. simpl.
    split; [done|]. apply Forall_app. split; [done|].
    repeat constructor. simpl. lia.
  - intros s trees Hs. unfold levels_from_zero, recorded. simpl.
    by destruct (bool_decide _).
  - intros s entry rest [Hl Hq] Hin (idx & Hidx & ->).
    unfold levels_from_zero, popped. simpl. split.
    + by eapply Forall_forall in Hq; [|exact Hin].
    + by apply Forall_delete.
Qed.

Lemma initial_pushes_level (states : list SolutionState) (s s' : ISLaSolver)
    (r : list unit) :
  for_each states
    (fun state =>
       let* cost := ISLaSolver_compute_cost state in heappush (cost, state))
    s = Ok (r, s') ->
  current_level s' = current_level s.
Proof.
  revert s r. induction states as [|state states IH]; intros s r; simpl.
  - by intros [= _ <-].
  - unfold bind at 1. unfold bind at 1.
    destruct (ISLaSolver_compute_cost state s) as [[cost s1]|] eqn:Hcost;
      [|done].
    unfold heappush, modify at 1. simpl.
    unfold bind at 1.
    destruct (for_each states _ _) as [[bs s2]|] eqn:Hrest; [|done].
    unfold ret. intros [= _ <-].
    apply IH in Hrest. simpl in Hrest. rewrite Hrest.
    apply compute_cost_effect in Hcost.
    by destruct Hcost as [->|(phase & since & ->)].
Qed.

(** X7.  [__init__] starts at level [0] with every queued state at
    level [0], and the main loop keeps the current level and the level
    of every queued state from falling below [0]: the depth component
    of the cost is never negative. *)
Theorem levels_never_negative :
  (forall grammar formula free smt ins enforce precompute debug asserts
          settings timeout self,
     ISLaSolver_init grammar formula free smt ins enforce precompute debug
       asserts settings timeout = Some (Ok self) ->
     current_level self = 0%Z /\
     Forall (fun entry => level (snd entry) = 0%Z) (queue self)) /\
  (forall rounds self trees self',
     levels_from_zero self ->
     solve rounds self = Ok (trees, self') ->
     levels_from_zero self').
Proof.
  split.
  - intros grammar formula free smt ins enforce precompute debug asserts
      settings timeout self Hinit.
    pose proof Hinit as Hok.
    apply ISLaSolver_init_ok in Hok as (c & _ & _ & _ & Hq & _).
    unfold ISLaSolver_init in Hinit.
    destruct (compute_symbol_costs _ _) as [[costs|]|]; [|done|done].
    destruct (py_assert _) as [[]|]; simpl in Hinit; [|done].
    destruct (top_constants _) as [|c' cs]; [done|].
    destruct (for_each _ _ _) as [[r s']|] eqn:Hloop; simpl in Hinit; [|done].
    injection Hinit as <-. apply initial_pushes_level in Hloop. split; [done|].
    assert (Forall (fun state => level state = 0%Z) (map snd (queue s'))) as Hl.
    { rewrite Hq. unfold establish_invariant. apply Forall_map.
      by apply Forall_forall. }
    by apply Forall_map in Hl.
  - intros rounds self trees self' Hself Hrun.
    eapply (solve_keeps levels_from_zero (fun _ => True)
              levels_from_zero_invariant);
      [|exact Hself|exact Hrun].
    intros s state states _. by apply Forall_forall.
Qed.
End LevelFacts.

Section CoverageFacts.
Context `{IslaLanguage, GraphQueries, Runtime, SMTBridge, CostProbe}.
Hypothesis tree_paths_in_graph :
  forall t g k, tree_k_paths t g k ⊆ graph_k_paths g k.

Lemma covered_fold_subseteq (trees : list DerivationTree)
    (g : gg.GrammarGraph) (k' : nat)
    (covered : gset (list string)) :
  covered ⊆ graph_k_paths g k' ->
  fold_left (fun covered tree => covered ∪ tree_k_paths tree g k')
    trees covered ⊆ graph_k_paths g k'.
Proof.
  revert covered. induction trees as [|t trees IH]; intros covered Hc; simpl.
  - done.
  - apply IH. apply union_subseteq. split; [done|apply tree_paths_in_graph].
Qed.

Lemma covered_strictly_invariant :
  SolverInvariant covered_strictly (fun _ => True).
Proof.
  split.
  - intros s phase since Hs. exact Hs.
  - intros s cost state Hs _ _. exact Hs.
  - intros s trees [Hsub Hne]. unfold covered_strictly, recorded. simpl.
    destruct (bool_decide _) eqn:Hfull; simpl.
    + split; [apply empty_subseteq|].
      intros Hempty. apply Hne. rewrite <- Hempty in Hsub |- *.
      apply set_eq. intros x. split; [apply Hsub|set_solver].
    + apply bool_decide_eq_false in Hfull. split; [|done].
      by apply covered_fold_subseteq.
  - intros s entry rest Hs _ _. exact Hs.
Qed.

(** X8.  Where the k-paths of a tree are k-paths of the graph and the
    graph has a k-path at all, the covered k-paths are a strict subset
    of the k-paths of the graph when [__init__] returns and stay one
    through the main loop (a full record is emptied by
    [process_new_states]); and for a strict subset
    [compute_global_k_coverage_cost] returns a cost: its denominator is
    not zero. *)
Theorem covered_k_paths_stay_strict :
  (forall grammar formula free smt ins enforce precompute debug asserts
          settings timeout self,
     ISLaSolver_init grammar formula free smt ins enforce precompute debug
       asserts settings timeout = Some (Ok self) ->
     graph_k_paths (from_grammar grammar) (k settings) <> ∅ ->
     covered_strictly self) /\
  (forall rounds self trees self',
     covered_strictly self ->
     solve rounds self = Ok (trees, self') ->
     covered_strictly self') /\
  (forall self state,
     covered_strictly self ->
     exists cost,
       compute_global_k_coverage_cost (covered_k_paths self) (graph self)
         (k (cost_settings self)) state = Ok cost).
Proof.
  split; [|split].
  - intros grammar formula free smt ins enforce precompute debug asserts
      settings timeout self Hinit Hpaths.
    apply ISLaSolver_init_ok in Hinit
      as (c & _ & _ & _ & _ & _ & Hc & Hg & Hs & _).
    unfold covered_strictly. rewrite Hc, Hg, Hs.
    split; [apply empty_subseteq|done].
  - intros rounds self trees self' Hself Hrun.
    eapply (solve_keeps covered_strictly (fun _ => True)
              covered_strictly_invariant);
      [|exact Hself|exact Hrun].
    intros s state states _. by apply Forall_forall.
  - intros self state [Hsub Hne].
    unfold compute_global_k_coverage_cost.
    assert (covered_k_paths self
              ⊂ graph_k_paths (graph self) (k (cost_settings self))) as Hstrict.
    { split; [done|]. intros Hrev. apply Hne. apply set_eq. intros x.
      split; [apply Hsub|apply Hrev]. }
    apply subset_size in Hstrict.
    destruct (Z.eqb_spec
                (Z.of_nat (size (graph_k_paths (graph self)
                                   (k (cost_settings self))))
                 - Z.of_nat (size (covered_k_paths self))) 0) as [Heq|Hnz];
      [lia|].
    by eexists.
Qed.
End CoverageFacts.

(** The pending state of the small world is pushed behind the initial
    one. *)
Lemma state_is_valid_or_enqueue_contract_tiny :
  exists self self',
    TinyWorld.solver 1 = Some (Ok self) /\
    @state_is_valid_or_enqueue TinyWorld.language TinyWorld.queries
      TinyWorld.runtime tiny_pending_state self = Ok (false, self') /\
    false = complete tiny_pending_state /\
    length (queue self') = 2%nat.
Proof.
  eexists _, _.
  match goal with
  | |- ?A /\ ?B /\ _ =>
      assert A as Hinit by (vm_compute; reflexivity);
      assert B as Hrun by (vm_compute; reflexivity)
  end.
  split; [exact Hinit|]. split; [exact Hrun|].
  split; [|reflexivity].
  exact (proj1 (@state_is_valid_or_enqueue_contract TinyWorld.language
                  TinyWorld.queries TinyWorld.runtime _ _ _ _ Hrun)).
Defined.

(** The ten trees of the small world are complete. *)
Lemma solve_yields_complete_trees_tiny :
  exists self trees self',
    TinyWorld.solver 1 = Some (Ok self) /\
    @solve TinyWorld.language TinyWorld.queries TinyWorld.runtime
      TinyWorld.bridge 2 self = Ok (trees, self') /\
    length trees = 10%nat /\
    Forall (fun t => is_complete t = true) trees.
Proof.
  eexists _, _, _.
  match goal with
  | |- ?A /\ ?B /\ _ =>
      assert A as Hinit by (vm_compute; reflexivity);
      assert B as Hrun by (vm_compute; reflexivity)
  end.
  split; [exact Hinit|]. split; [exact Hrun|]. split; [reflexivity|].
  exact (@solve_yields_complete_trees TinyWorld.language TinyWorld.queries
           TinyWorld.runtime TinyWorld.bridge _ _ _ _ Hrun).
Defined.

(** The levels of the small world. *)
Lemma levels_never_negative_tiny :
  exists self trees self',
    TinyWorld.solver 1 = Some (Ok self) /\
    @solve TinyWorld.language TinyWorld.queries TinyWorld.runtime
      TinyWorld.bridge 2 self = Ok (trees, self') /\
    levels_from_zero self /\ levels_from_zero self'.
Proof.
  eexists _, _, _.
  match goal with
  | |- ?A /\ ?B /\ _ =>
      assert A as Hinit by (vm_compute; reflexivity);
      assert B as Hrun by (vm_compute; reflexivity)
  end.
  destruct (@levels_never_negative TinyWorld.language TinyWorld.queries
              TinyWorld.runtime TinyWorld.bridge TinyWorld.probe)
    as (Hi & Hs).
  destruct (Hi _ _ _ _ _ _ _ _ _ _ _ _ Hinit) as [Hl Hq].
  match goal with
  | |- _ /\ _ /\ ?L /\ _ => assert L as Hself
  end.
  { split; [by rewrite Hl|].
    eapply Forall_impl; [exact Hq|]. intros e He. simpl in He. by rewrite He. }
  split; [exact Hinit|]. split; [exact Hrun|].
  split; [exact Hself|exact (Hs _ _ _ _ Hself Hrun)].
Defined.

Lemma tiny_tree_paths_in_graph (t : DerivationTree) (g : gg.GrammarGraph)
    (k : nat) :
  @tree_k_paths TinyWorld.queries t g k ⊆ @graph_k_paths TinyWorld.queries g k.
Proof.
  intros p Hp. simpl in Hp. unfold TinyWorld.k_paths_of_tree in Hp.
  by apply elem_of_intersection in Hp as [Hp _].
Qed.

(** In the small world with [k = 1] the graph has the two 1-paths
    [<start>] and [a]; each of the ten yielded trees has both, the record
    becomes full in the first round, and it is emptied. *)
Lemma covered_k_paths_stay_strict_tiny :
  exists self trees self',
    TinyWorld.solver 1 = Some (Ok self) /\
    @solve TinyWorld.language TinyWorld.queries TinyWorld.runtime
      TinyWorld.bridge 2 self = Ok (trees, self') /\
    @graph_k_paths TinyWorld.queries
      (@from_grammar TinyWorld.queries TinyWorld.grammar) 1 <> ∅ /\
    @covered_strictly TinyWorld.queries self /\
    @covered_strictly TinyWorld.queries self' /\
    @graph_k_paths TinyWorld.queries (graph self) 1
    = {[ ["<start>"]; ["a"] ]} /\
    Forall (fun t => @tree_k_paths TinyWorld.queries t (graph self) 1
                     = @graph_k_paths TinyWorld.queries (graph self) 1) trees /\
    length trees = 10%nat /\
    covered_k_paths self' = ∅.
Proof.
  eexists _, _, _.
  match goal with
  | |- ?A /\ ?B /\ ?C /\ _ =>
      assert A as Hinit by (vm_compute; reflexivity);
      assert B as Hrun by (vm_compute; reflexivity);
      assert C as Hpaths by (vm_compute; discriminate)
  end.
  destruct (@covered_k_paths_stay_strict TinyWorld.language TinyWorld.queries
              TinyWorld.runtime TinyWorld.bridge TinyWorld.probe
              tiny_tree_paths_in_graph) as (Hi & Hs & _).
  pose proof (Hi _ _ _ _ _ _ _ _ _ _ _ _ Hinit Hpaths) as Hself.
  split; [exact Hinit|]. split; [exact Hrun|]. split; [exact Hpaths|].
  split; [exact Hself|]. split; [exact (Hs _ _ _ _ Hself Hrun)|].
  split; [vm_compute; reflexivity|].
  split; [|split; [reflexivity|vm_compute; reflexivity]].
  repeat constructor; vm_compute; reflexivity.
Defined.

(** ** The denominator of the global coverage cost *)

Section GlobalCoverageDenominator.
Context `{IslaLanguage, GraphQueries, Runtime, SMTBridge, CostProbe}.

(** Two facts about [grammar_graph]: the k-paths of a tree are k-paths
    of the graph, and [tree.k_coverage] divides by the number of
    k-paths of the graph, so that it returns only where there is one. *)
Hypothesis tree_paths_in_graph :
  forall t g k, tree_k_paths t g k ⊆ graph_k_paths g k.
Hypothesis coverage_needs_paths :
  forall t g k coverage,
    k_coverage t g k = Ok coverage -> graph_k_paths g k <> ∅.




End GlobalCoverageDenominator.





(** ** Further properties of the cost functions and of the SMT loop *)

Section SolveQuantifierFreeBounds.
Context `{SMTBridge}.

Lemma smt_loop_grows rounds fs ts cs sols isols res :
  (smt_loop rounds fs ts cs sols isols).2 = Ok res ->
  sols `prefix_of` res /\
  (length res <= length sols + rounds)%nat /\
  (length res - length sols
   <= length (smt_loop rounds fs ts cs sols isols).1
   <= S (length res) - length sols)%nat.
Proof.
  revert sols isols res.
  induction rounds as [|rounds IH]; intros sols isols res; simpl.
  - intros [= <-]. split; [done|]. split; lia.
  - destruct (smt_query fs ts cs isols) as [formulas|]; [|done].
    destruct (z3_solve formulas) as [solver_result maybe_model].
    destruct (negb (bool_decide (solver_result = z3.sat))); simpl.
    { destruct sols; intros [= <-]; simpl; (split; [done|]; split; lia). }
    destruct maybe_model as [model|]; [|done].
    destruct (new_solution_of _ _ _ _) as [new_solution|]; [|done].
    destruct (py_in _ _ _); simpl.
    { intros [= <-]. split; [done|]. split; lia. }
    destruct (smt_loop rounds fs ts cs (sols ++ [new_solution]) _)
      as [log r] eqn:Hloop. simpl.
    intros ->.
    specialize (IH (sols ++ [new_solution])
                  (isols ++ [new_internal_solution_of cs model]) res).
    rewrite Hloop in IH. simpl in IH.
    destruct (IH eq_refl) as (Hpre & Hlen & Hlog).
    pose proof (prefix_length _ _ Hpre) as Hle.
    rewrite length_app in Hlen, Hlog, Hle. simpl in Hlen, Hlog, Hle.
    split; [|split; lia].
    etrans; [|exact Hpre]. by apply prefix_app_r.
Qed.

(** X9.  [solve_quantifier_free_formula] returns at most
    [max_number_smt_instantiations] solutions, none without a query,
    and asks at most one query more than it returns solutions. *)
Theorem solve_quantifier_free_formula_bounded
    (max_number_smt_instantiations : nat) (fs : list SMTFormula)
    (sols : list Solution) :
  solve_quantifier_free_formula max_number_smt_instantiations fs = Ok sols ->
  (length sols <= max_number_smt_instantiations)%nat /\
  (length sols
   <= length (solve_quantifier_free_formula_traced
                max_number_smt_instantiations fs).1
   <= S (length sols))%nat.
Proof.
  unfold solve_quantifier_free_formula, solve_quantifier_free_formula_traced.
  destruct (match get_conflicts fs with [] => _ | _ => _ end) as [fs'|];
    [|done].
  intros Hrun. apply smt_loop_grows in Hrun as (_ & Hlen & Hlog).
  simpl in Hlen, Hlog. split; lia.
Qed.
End SolveQuantifierFreeBounds.

(** Scenario S1: one solution from two queries. *)
Lemma solve_quantifier_free_formula_bounded_S1 :
  let bridge := ScenarioS1.bridge in
  solve_quantifier_free_formula 10 [ScenarioS1.atom]
    = Ok [ScenarioS1.x_solution] /\
  (1 <= 10)%nat /\
  (1 <= length (solve_quantifier_free_formula_traced 10 [ScenarioS1.atom]).1
   <= 2)%nat.
Proof.
  intros bridge.
  assert (solve_quantifier_free_formula 10 [ScenarioS1.atom]
          = Ok [ScenarioS1.x_solution]) as Hsols by (vm_compute; reflexivity).
  split; [exact Hsols|].
  exact (solve_quantifier_free_formula_bounded 10 [ScenarioS1.atom] _ Hsols).
Defined.

Lemma raised_refl costs : raised costs costs.
Proof. intros sym. destruct (costs !! sym); [lia|done]. Qed.

Lemma raised_trans a b c : raised a b -> raised b c -> raised a c.
Proof.
  intros Hab Hbc sym. specialize (Hab sym). specialize (Hbc sym).
  destruct (a !! sym), (b !! sym), (c !! sym); try done. lia.
Qed.

Lemma correct_edge_raised result source target result' :
  correct_edge result source target = Ok result' ->
  raised result result' /\
  (forall sym, sym <> source -> result' !! sym = result !! sym) /\
  exists cs ct,
    result' !! source = Some cs /\ result' !! target = Some ct /\
    (source <> target -> cs >= ct + 1)%Z.
Proof.
  unfold correct_edge.
  destruct (result !! source) as [cs|] eqn:Hs; [|done].
  destruct (result !! target) as [ct|] eqn:Ht; [|done].
  destruct (Z.leb_spec cs ct) as [Hle|Hgt]; intros [= <-].
  - split; [|split].
    + intros sym. destruct (decide (sym = source)) as [->|Hne].
      * rewrite Hs, lookup_insert_eq. lia.
      * rewrite lookup_insert_ne by done. destruct (result !! sym); [lia|done].
    + intros sym Hne. by rewrite lookup_insert_ne.
    + destruct (decide (source = target)) as [->|Hne].
      * exists (ct + 1)%Z, (ct + 1)%Z. by rewrite lookup_insert_eq.
      * exists (ct + 1)%Z, ct. rewrite lookup_insert_eq, lookup_insert_ne by done.
        split; [done|]. split; [done|]. lia.
  - split; [apply raised_refl|]. split; [done|].
    exists cs, ct. split; [done|]. split; [done|]. lia.
Qed.

Lemma correct_path_cons result source target rest :
  correct_path result (source :: target :: rest)
  = rbind (correct_path result (target :: rest))
      (fun result => correct_edge result source target).
Proof.
  unfold correct_path. simpl edges. simpl rev. rewrite fold_left_app. done.
Qed.

Lemma correct_path_raised path : forall result result',
  correct_path result path = Ok result' ->
  raised result result' /\
  (forall sym, sym ∉ path -> result' !! sym = result !! sym).
Proof.
  induction path as [|source [|target rest] IH]; intros result result'.
  - intros [= <-]. split; [apply raised_refl|done].
  - intros [= <-]. split; [apply raised_refl|done].
  - rewrite correct_path_cons.
    destruct (correct_path result (target :: rest)) as [r1|] eqn:Hrest; [|done].
    simpl. intros Hedge.
    apply IH in Hrest as [Hr1 Hout].
    apply correct_edge_raised in Hedge as (Hr2 & Hsame & _).
    split; [by eapply raised_trans|].
    intros sym Hsym. rewrite Hsame, Hout; [done| |].
    + intros Hin. apply Hsym. by right.
    + intros ->. apply Hsym. by left.
Qed.

(** X10.  One pass of the correction loop over a path without repeated
    symbols, all of which have a cost, returns; afterwards the costs
    fall strictly along that path, no cost has been lowered, and the
    symbols off the path keep their costs. *)
Theorem correct_path_strictly_decreasing path : forall result,
  NoDup path ->
  (forall sym, sym ∈ path -> is_Some (result !! sym)) ->
  exists result',
    correct_path result path = Ok result' /\
    strictly_decreasing result' path /\
    raised result result' /\
    (forall sym, sym ∉ path -> result' !! sym = result !! sym).
Proof.
  induction path as [|source [|target rest] IH]; intros result Hnd Hcosts.
  - exists result. split; [done|]. split; [by intros i s t Hi|].
    split; [apply raised_refl|done].
  - exists result. split; [done|].
    split; [by intros [|i] s t Hi Hj|].
    split; [apply raised_refl|done].
  - apply NoDup_cons in Hnd as [Hfresh Hnd].
    destruct (IH result Hnd) as (r1 & Hrest & Hdec & Hr1 & Hout).
    { intros sym Hsym. apply Hcosts. by right. }
    rewrite correct_path_cons, Hrest. simpl.
    assert (forall sym, is_Some (result !! sym) -> is_Some (r1 !! sym)) as Hkeep.
    { intros sym [c Hc]. specialize (Hr1 sym). rewrite Hc in Hr1.
      destruct (r1 !! sym); [by eexists|done]. }
    destruct (correct_edge r1 source target) as [r2|] eqn:Hedge.
    2:{ unfold correct_edge in Hedge.
        destruct (Hkeep source) as [cs Hcs]; [apply Hcosts; by left|].
        destruct (Hkeep target) as [ct Hct];
          [apply Hcosts; right; by left|].
        by rewrite Hcs, Hct in Hedge. }
    exists r2. split; [done|].
    pose proof (correct_edge_raised _ _ _ _ Hedge) as (Hr2 & Hsame & Hnew).
    destruct Hnew as (cs & ct & Hcs & Hct & Hgt).
    split; [|split].
    + intros [|i] s t Hi Hj; simpl in Hi, Hj.
      * injection Hi as <-. injection Hj as <-.
        exists cs, ct. split; [done|]. split; [done|].
        apply Hgt. intros ->. apply Hfresh. by left.
      * destruct (Hdec i s t Hi Hj) as (cs' & ct' & Hs' & Ht' & Hgt').
        exists cs', ct'. rewrite !Hsame; [done| |].
        -- intros Heq. subst t. apply Hfresh. right.
           exact (list_elem_of_lookup_2 _ _ _ Hj).
        -- intros Heq. subst s. apply Hfresh.
           exact (list_elem_of_lookup_2 _ _ _ Hi).
    + by eapply raised_trans.
    + intros sym Hsym. rewrite Hsame, Hout; [done| |].
      * intros Hin. apply Hsym. by right.
      * intros ->. apply Hsym. by left.
Qed.

Section SymbolCostFacts.
Context `{CostProbe}.
Variable canonical_grammar : CanonicalGrammar.
Variable graph : gg.GrammarGraph.

Lemma correct_paths_raised paths : forall result result',
  correct_paths result paths = Ok result' -> raised result result'.
Proof.
  unfold correct_paths.
  induction paths as [|path paths IH]; intros result result'; simpl.
  - intros [= <-]. apply raised_refl.
  - destruct (correct_path result path) as [r1|] eqn:Hpath.
    + intros Hrest. apply IH in Hrest.
      apply correct_path_raised in Hpath as [Hr1 _].
      by eapply raised_trans.
    + intros Hrest. exfalso. clear -Hrest.
      induction paths as [|p ps IHp]; simpl in Hrest; [done|by apply IHp].
Qed.

Lemma correct_parents_raised parents : forall result result',
  correct_parents graph result parents = Some (Ok result') ->
  raised result result'.
Proof.
  induction parents as [|parent parents IH]; intros result result'; simpl.
  - intros [= <-]. apply raised_refl.
  - destruct (all_paths graph _ _ _) as [paths|]; [|done].
    destruct (correct_paths result paths) as [r1|] eqn:Hpaths; [|done].
    intros Hrest. apply IH in Hrest. apply correct_paths_raised in Hpaths.
    by eapply raised_trans.
Qed.

Lemma initial_costs_keys_from (nonterminals : list string) :
  forall (acc result : gmap string Z),
  fold_left
    (fun acc nonterminal =>
       rbind acc (fun result =>
       rbind (initial_cost canonical_grammar nonterminal) (fun c =>
       Ok (<[nonterminal := c]> result))))
    nonterminals (Ok acc) = Ok result ->
  forall sym, is_Some (result !! sym) <->
              is_Some (acc !! sym) \/ sym ∈ nonterminals.
Proof.
  induction nonterminals as [|n ns IH]; intros acc result; simpl.
  - intros [= <-] sym. split; [by left|]. intros [?|Hin]; [done|].
    by apply elem_of_nil in Hin.
  - destruct (initial_cost canonical_grammar n) as [c|] eqn:Hc; simpl.
    + intros Hrest sym. rewrite (IH _ _ Hrest sym).
      destruct (decide (sym = n)) as [->|Hne].
      * rewrite lookup_insert_eq. split; [intros _; right; by left|].
        intros _. left. by eexists.
      * rewrite lookup_insert_ne by done. rewrite elem_of_cons. tauto.
    + intros Hrest. exfalso. clear -Hrest.
      induction ns as [|p ps IHp]; simpl in Hrest; [done|by apply IHp].
Qed.

(** X11.  The correction in [compute_symbol_costs] only raises costs:
    every nonterminal of the grammar, and nothing else, has a cost in
    the result, and that cost is at least the one computed for it in
    the first loop. *)
Theorem compute_symbol_costs_raises_only init result :
  initial_costs canonical_grammar = Ok init ->
  compute_symbol_costs canonical_grammar graph = Some (Ok result) ->
  raised init result /\
  forall sym, is_Some (result !! sym) <-> sym ∈ map fst canonical_grammar.
Proof.
  intros Hinit. unfold compute_symbol_costs. rewrite Hinit.
  intros Hrun. apply correct_parents_raised in Hrun.
  split; [exact Hrun|]. intros sym.
  assert (is_Some (init !! sym) <-> sym ∈ map fst canonical_grammar) as <-.
  { unfold initial_costs in Hinit.
    rewrite (initial_costs_keys_from _ _ _ Hinit sym).
    rewrite lookup_empty. split; [intros [[? ?]|?]; done|by right]. }
  specialize (Hrun sym).
  destruct (init !! sym), (result !! sym); try done; split; try done;
    by intros [? ?].
Qed.
End SymbolCostFacts.

Section AllPathsTerminates.
Variable graph : gg.GrammarGraph.
Variable cycles_allowed : nat.

Lemma get_node_symbol sym node :
  gg.get_node graph sym = Some node -> sym ∈ graph_symbols graph.
Proof.
  unfold gg.get_node. intros Hfind. apply find_some in Hfind as [Hin Heq].
  apply String.eqb_eq in Heq. subst sym.
  unfold graph_symbols. apply elem_of_remove_dups.
  apply list_elem_of_fmap. exists node. split; [done|].
  by apply list_elem_of_In.
Qed.

Lemma sum_insert_outside (syms : list string) (visited : gmap string nat)
    (child : string) (v : nat) :
  child ∉ syms ->
  sum_list (map (fun sym => cycles_allowed + 2
                            - default 0 (<[child := v]> visited !! sym))%nat syms)
  = sum_list (map (fun sym => cycles_allowed + 2
                              - default 0 (visited !! sym))%nat syms).
Proof.
  induction syms as [|s syms IH]; intros Hout; simpl; [done|].
  rewrite IH by (intros Hin; apply Hout; by right).
  rewrite lookup_insert_ne; [done|]. intros ->. apply Hout. by left.
Qed.

Lemma sum_insert_inside (syms : list string) (visited : gmap string nat)
    (child : string) :
  NoDup syms -> child ∈ syms ->
  (default 0 (visited !! child) <= cycles_allowed + 1)%nat ->
  S (sum_list
       (map (fun sym =>
               cycles_allowed + 2
               - default 0 (<[child := S (default 0 (visited !! child))]>
                              visited !! sym))%nat syms))
  = sum_list (map (fun sym => cycles_allowed + 2
                              - default 0 (visited !! sym))%nat syms).
Proof.
  intros Hnd Hin Hle.
  induction Hnd as [|s syms Hfresh Hnd IH]; simpl.
  - by apply elem_of_nil in Hin.
  - apply elem_of_cons in Hin as [->|Hin].
    + rewrite lookup_insert_eq. simpl.
      rewrite sum_insert_outside by done. lia.
    + rewrite lookup_insert_ne by (intros ->; done).
      rewrite <- (IH Hin). lia.
Qed.

Lemma visit_children_measure p children : forall visited queue,
  Forall (fun q => q <> []) queue ->
  let '(visited', queue') :=
    visit_children graph cycles_allowed p children visited queue in
  Forall (fun q => q <> []) queue' /\
  (length queue' + appends_left graph cycles_allowed visited'
   = length queue + appends_left graph cycles_allowed visited)%nat.
Proof.
  unfold visit_children.
  induction children as [|child children IH]; intros visited queue Hq; simpl.
  - done.
  - destruct (gg.get_node graph child) as [node|] eqn:Hnode; [|by apply IH].
    destruct (negb (gg.isinstance_NonterminalNode node)); simpl; [by apply IH|].
    destruct (Nat.ltb_spec (cycles_allowed + 1) (default 0 (visited !! child)))
      as [Hfull|Hroom]; [by apply IH|].
    specialize (IH (<[child := S (default 0 (visited !! child))]> visited)
                  (queue ++ [p ++ [child]])).
    destruct (fold_left _ children _) as [visited' queue'].
    destruct IH as [Hq' Hsum].
    { apply Forall_app. split; [done|]. repeat constructor.
      by destruct p. }
    split; [done|]. rewrite Hsum, length_app. simpl.
    unfold appends_left.
    rewrite <- (sum_insert_inside (graph_symbols graph) visited child).
    + lia.
    + apply NoDup_remove_dups.
    + by eapply get_node_symbol.
    + done.
Qed.

Lemma all_paths_loop_terminates to_node : forall fuel queue visited result,
  Forall (fun p => p <> []) queue ->
  (length queue + appends_left graph cycles_allowed visited <= fuel)%nat ->
  is_Some (all_paths_loop graph fuel to_node cycles_allowed queue visited
             result).
Proof.
  induction fuel as [|fuel IH]; intros queue visited result Hq Hfuel.
  - destruct queue; simpl in *; [by eexists|lia].
  - destruct queue as [|p queue]; simpl; [by eexists|].
    apply Forall_cons in Hq as [Hp Hq].
    destruct (last p) as [node|] eqn:Hlast.
    2:{ by apply last_None in Hlast. }
    destruct (String.eqb node to_node).
    + apply IH; [done|]. simpl in Hfuel. lia.
    + pose proof (visit_children_measure p
                    (match gg.get_node graph node with
                     | Some n => gg.children n
                     | None => []
                     end) visited queue Hq) as Hvisit.
      destruct (visit_children _ _ _ _ _ _) as [visited' queue'].
      destruct Hvisit as [Hq' Hsum].
      apply IH; [done|]. simpl in Hfuel. lia.
Qed.

Lemma appends_left_empty :
  (appends_left graph cycles_allowed ∅
   <= (cycles_allowed + 2) * length (gg.all_nodes graph))%nat.
Proof.
  unfold appends_left.
  assert (length (graph_symbols graph) <= length (gg.all_nodes graph))%nat
    as Hlen.
  { unfold graph_symbols.
    rewrite <- (length_map gg.symbol (gg.all_nodes graph)).
    apply submseteq_length, NoDup_submseteq; [apply NoDup_remove_dups|].
    intros sym. by rewrite elem_of_remove_dups. }
  revert Hlen. generalize (graph_symbols graph) as syms.
  generalize (length (gg.all_nodes graph)) as n.
  intros n syms. revert n. induction syms as [|s syms IH]; intros n; simpl.
  - lia.
  - rewrite lookup_empty. simpl. destruct n as [|n]; [lia|].
    intros Hlen. specialize (IH n). lia.
Qed.

Lemma all_paths_terminates from_node to_node :
  is_Some (all_paths graph from_node to_node cycles_allowed).
Proof.
  unfold all_paths.
  destruct (all_paths_loop_terminates to_node
              (all_paths_fuel graph cycles_allowed) [[from_node]] ∅ [])
    as [result Hresult].
  - by repeat constructor.
  - unfold all_paths_fuel. simpl. pose proof appends_left_empty. lia.
  - rewrite Hresult. by eexists.
Qed.
End AllPathsTerminates.

(** X12.  [all_paths] comes to an end on every graph, cyclic ones
    included: as a symbol is appended at most [cycles_allowed + 2]
    times, the queue is empty after at most
    [1 + (cycles_allowed + 2) * len(all_nodes)] rounds.  So
    [compute_symbol_costs] returns, with a table or an exception. *)
Theorem compute_symbol_costs_returns `{CostProbe}
    (canonical_grammar : CanonicalGrammar) (graph : gg.GrammarGraph) :
  (forall from_node to_node cycles_allowed,
     is_Some (all_paths graph from_node to_node cycles_allowed)) /\
  is_Some (compute_symbol_costs canonical_grammar graph).
Proof.
  split; [intros; apply all_paths_terminates|].
  unfold compute_symbol_costs.
  destruct (initial_costs canonical_grammar) as [result|]; [|by eexists].
  generalize (nonterminal_parents canonical_grammar) as parents.
  intros parents. revert result.
  induction parents as [|parent parents IH]; intros result; simpl.
  - by eexists.
  - destruct (all_paths_terminates graph 1 (gg.root graph) parent)
      as [paths ->].
    destruct (correct_paths result paths); [apply IH|by eexists].
Qed.

Section MoreCostFacts.
Context `{IslaLanguage, GraphQueries, Runtime}.

Lemma closing_cost_from (symbol_costs : gmap string Z)
    (nonterminals : list string) : forall (acc : Z),
  (Forall (fun n => is_Some (symbol_costs !! n)) nonterminals ->
   fold_left
     (fun acc nonterminal =>
        let? total := acc in
        match symbol_costs !! nonterminal with
        | Some c => Ok (total + c)%Z
        | None => Raise KeyError
        end)
     nonterminals (Ok acc)
   = Ok (acc + fold_right Z.add 0%Z
                 (map (fun n => default 0%Z (symbol_costs !! n)) nonterminals))%Z)
  /\
  (~ Forall (fun n => is_Some (symbol_costs !! n)) nonterminals ->
   fold_left
     (fun acc nonterminal =>
        let? total := acc in
        match symbol_costs !! nonterminal with
        | Some c => Ok (total + c)%Z
        | None => Raise KeyError
        end)
     nonterminals (Ok acc)
   = Raise KeyError).
Proof.
  induction nonterminals as [|n ns IH]; intros acc; simpl.
  - split; [intros _; f_equal; lia|]. intros Hnot. destruct Hnot. constructor.
  - destruct (symbol_costs !! n) as [c|] eqn:Hc; simpl.
    + destruct (IH (acc + c)%Z) as [Hok Hbad]. split.
      * intros Hall. apply Forall_cons in Hall as [_ Hall].
        rewrite (Hok Hall). f_equal. lia.
      * intros Hnot. apply Hbad. intros Hall. apply Hnot.
        constructor; [by rewrite Hc|done].
    + split.
      * intros Hall. apply Forall_cons in Hall as [[? Hn] _].
        by rewrite Hc in Hn.
      * intros _. clear. induction ns as [|m ms IHm]; simpl; [done|exact IHm].
Qed.

(** X13.  [compute_tree_closing_cost] is the sum of the costs of the
    symbols at the open leaves; it raises [KeyError] exactly when one
    of them has no cost, and is [0] for a complete tree whatever the
    table holds. *)
Theorem compute_tree_closing_cost_sum (tree : DerivationTree)
    (symbol_costs : gmap string Z) :
  let nonterminals := map (fun leaf => value (snd leaf)) (open_leaves tree) in
  (Forall (fun n => is_Some (symbol_costs !! n)) nonterminals ->
   compute_tree_closing_cost tree symbol_costs
   = Ok (fold_right Z.add 0%Z
           (map (fun n => default 0%Z (symbol_costs !! n)) nonterminals))) /\
  (~ Forall (fun n => is_Some (symbol_costs !! n)) nonterminals ->
   compute_tree_closing_cost tree symbol_costs = Raise KeyError) /\
  (is_complete tree = true ->
   compute_tree_closing_cost tree symbol_costs = Ok 0%Z).
Proof.
  intros nonterminals. unfold compute_tree_closing_cost.
  assert (map (fun '(_, leaf) => value leaf) (open_leaves tree) = nonterminals)
    as ->.
  { unfold nonterminals. apply map_ext. by intros [p leaf]. }
  destruct (closing_cost_from symbol_costs nonterminals 0) as [Hok Hbad].
  split; [|split].
  - intros Hall. by rewrite (Hok Hall).
  - exact Hbad.
  - intros Hcomplete. unfold is_complete, is_open in Hcomplete.
    subst nonterminals.
    destruct (open_leaves tree); [done|done].
Qed.

(** X14.  With [k = 0] the exponent [1 / float(k)] of
    [compute_k_coverage_cost] divides by zero, and the module-level
    [compute_cost] never returns a cost. *)
Theorem compute_cost_without_k (state : SolutionState)
    (symbol_costs : gmap string Z) (w : CostWeightVector)
    (covered : gset (list string)) (orig_formula : Formula)
    (grammar : CanonicalGrammar) (graph : gg.GrammarGraph)
    (chains : list (list Formula)) :
  compute_k_coverage_cost graph 0 state = Raise ZeroDivisionError /\
  forall cost,
    compute_cost state symbol_costs w 0 covered orig_formula grammar graph
      chains <> Ok cost.
Proof.
  split; [reflexivity|]. intros cost. unfold compute_cost.
  destruct (compute_tree_closing_cost _ _); simpl; [|done].
  destruct (if Qeq_bool _ _ then _ else _); simpl; done.
Qed.
End MoreCostFacts.

(** X15.  [get_quantifier_chains] is the comprehension of the source:
    each top-level quantified formula, followed by each chain of its
    inner formula, or by nothing if there is none.  No chain is empty
    and a chain holds quantified formulas only. *)
Theorem get_quantifier_chains_comprehension (formula : Formula) :
  get_quantifier_chains formula
  = flat_map
      (fun f =>
         map (cons f)
           (match get_quantifier_chains
                    (default sc.true (inner_formula_of f)) with
            | [] => [[]]
            | chains => chains
            end))
      (get_toplevel_quantified_formulas formula)
  /\ Forall (fun c => c <> [] /\ Forall (fun f => isinstance_QuantifiedFormula f = true) c)
       (get_quantifier_chains formula).
Proof.
  split.
  - induction formula; simpl; try done.
    + by rewrite app_nil_r.
    + by rewrite app_nil_r.
    + by rewrite app_nil_r.
    + rewrite flat_map_app. by f_equal.
    + rewrite flat_map_app. by f_equal.
  - induction formula; simpl; try done; try (by apply Forall_app).
    all: apply Forall_map.
    all: destruct (get_quantifier_chains _) as [|c cs] eqn:Hc;
      [by repeat constructor|].
    all: eapply Forall_impl; [exact IHformula|].
    all: intros chain [_ Hq]; split; [done|by constructor].
Qed.

Section PhaseFacts.
Context `{IslaLanguage, GraphQueries, Runtime, SMTBridge, CostProbe}.

Section Frame.
Variable J : ISLaSolver -> Prop.
Hypothesis J_cost : forall state, hoare J (ISLaSolver_compute_cost state) (fun _ => J).
Hypothesis J_queue : forall s q, J s -> J (set_queue q s).
Hypothesis J_hashes : forall s h, J s -> J (set_tree_hashes_in_queue h s).
Hypothesis J_covered : forall s c, J s -> J (set_covered_k_paths c s).
Hypothesis J_level : forall s l, J s -> J (set_current_level l s).

Lemma state_is_valid_or_enqueue_frame state :
  hoare J (state_is_valid_or_enqueue state) (fun _ => J).
Proof.
  intros s b s' HJ.
  unfold state_is_valid_or_enqueue, bind, get, lift, ret. simpl.
  destruct (complete state).
  { destruct (py_assert _); [|done]. by intros [= _ <-]. }
  destruct (if _ || _ then _ else _) as [[]|]; [|done].
  destruct (enforce_unique_trees_in_queue s && _); [by intros [= _ <-]|].
  destruct (formula_eqb (constraint state) sc.false); [by intros [= _ <-]|].
  destruct (ISLaSolver_compute_cost _ s) as [[cost s1]|] eqn:Hcost; [|done].
  unfold heappush, modify. simpl. intros [= _ <-].
  apply J_hashes, J_queue. by eapply J_cost.
Qed.

Lemma process_new_state_frame new_state :
  hoare J (process_new_state new_state) (fun _ => J).
Proof.
  intros s trees s' HJ. unfold process_new_state, bind, get, lift. simpl.
  destruct (collect (map (remove_nonmatching_universal_quantifiers s) _))
    as [states1|]; [|done].
  destruct (collect (map (remove_infeasible_universal_quantifiers s) states1))
    as [states2|]; simpl; [|done].
  destruct (for_each states2 _ s) as [[valid s1]|] eqn:Hloop; [|done].
  unfold ret. intros [= _ <-].
  eapply (hoare_for_each J states2); [|exact HJ|exact Hloop].
  intros state _. eapply hoare_bind.
  - apply state_is_valid_or_enqueue_frame.
  - intros ok s2 a s3 HJ2 [= _ <-]. done.
Qed.

Lemma process_new_states_frame new_states :
  hoare J (process_new_states new_states) (fun _ => J).
Proof.
  intros s trees s' HJ. unfold process_new_states, bind.
  destruct (for_each new_states process_new_state s) as [[result s1]|] eqn:Hloop;
    [|done].
  unfold modify, ret. simpl. intros [= _ <-].
  assert (J s1) as HJ1.
  { eapply (hoare_for_each J new_states); [|exact HJ|exact Hloop].
    intros state _. apply process_new_state_frame. }
  destruct (bool_decide _); [apply J_covered|]; by apply J_covered.
Qed.

Lemma process_successors_frame successors :
  hoare J (process_successors successors) (fun _ => J).
Proof.
  destruct successors as [state|batches]; simpl.
  - apply process_new_state_frame.
  - eapply hoare_bind.
    + apply hoare_for_each. intros batch _. apply process_new_states_frame.
    + intros yielded s a s' HJ [= _ <-]. done.
Qed.

Lemma solve_iteration_frame iteration :
  hoare J (solve_iteration iteration) (fun _ => J).
Proof.
  intros s result s' HJ. unfold solve_iteration, bind, get. simpl.
  destruct (heappop (queue s)) as [[[cost state] rest]|]; [|done].
  unfold modify, lift. simpl.
  destruct (py_assert _) as [[]|]; [|done].
  assert (J (set_tree_hashes_in_queue
               (tree_hashes_in_queue s ∖ {[structural_hash (tree state)]})
               (set_current_level (level state) (set_queue rest s)))) as HJ1.
  { by apply J_hashes, J_level, J_queue. }
  destruct (formula_eqb _ sc.false).
  { unfold ret. intros [= _ <-]. exact HJ1. }
  destruct (apply_rules _ _ _) as [[rule successors]|]; [|done].
  destruct (process_successors successors _) as [[yielded s2]|] eqn:Hproc;
    [|done].
  unfold ret. intros [= _ <-].
  eapply process_successors_frame; [exact HJ1|exact Hproc].
Qed.

Lemma solve_loop_frame rounds iteration start_time :
  hoare J (solve_loop rounds iteration start_time) (fun _ => J).
Proof.
  revert iteration. induction rounds as [|rounds IH]; intros iteration; simpl.
  - intros s a s' HJ [= _ <-]. done.
  - intros s trees s' HJ. unfold bind, get. simpl.
    destruct (queue s) eqn:Hq; [intros [= _ <-]; done|].
    destruct (match timeout_seconds s with Some _ => _ | None => _ end).
    { intros [= _ <-]. done. }
    destruct (solve_iteration iteration s) as [[[rule yielded] s1]|] eqn:Hit;
      [|done].
    destruct (solve_loop rounds (S iteration) start_time s1)
      as [[later s2]|] eqn:Hrest; [|done].
    unfold ret. intros [= _ <-].
    eapply IH; [|exact Hrest].
    eapply solve_iteration_frame; [exact HJ|exact Hit].
Qed.
End Frame.

Lemma compute_cost_phase state :
  hoare phase_in_range (ISLaSolver_compute_cost state)
    (fun _ => phase_in_range).
Proof.
  intros s cost s' [Hlen Hphase]. unfold ISLaSolver_compute_cost.
  destruct (formula_eqb _ _); [by intros [= _ <-]|].
  destruct (_ !! _) as [phase_length|]; [|done].
  destruct (_ >? _)%Z.
  - destruct (length (weight_vectors (cost_settings s))) as [|n] eqn:Hn;
      [done|].
    cbn [rbind].
    destruct (_ !! _) as [w|]; [|done].
    destruct (compute_cost _ _ _ _ _ _ _ _ _); cbn [rbind]; [|done].
    pose proof (Nat.mod_upper_bound (current_cost_phase s + 1) (S n)) as Hmod.
    remember ((current_cost_phase s + 1) `mod` S n)%nat as phase.
    intros [= _ <-]. unfold phase_in_range. simpl. rewrite Hn.
    split; [done|]. apply Hmod. lia.
  - simpl. destruct (_ !! _) as [w|]; [|done].
    destruct (compute_cost _ _ _ _ _ _ _ _ _); simpl; [|done].
    by intros [= _ <-].
Qed.

(** X16.  For cost settings with as many phase lengths as weight
    vectors, and at least one, the current cost phase names a weight
    vector when [__init__] returns and after any number of rounds of
    the main loop: neither [weight_vectors[current_cost_phase]] nor
    [cost_phase_lengths[current_cost_phase]] is out of range. *)
Theorem cost_phase_stays_in_range :
  (forall grammar formula free smt ins enforce precompute debug asserts
          settings timeout self,
     ISLaSolver_init grammar formula free smt ins enforce precompute debug
       asserts settings timeout = Some (Ok self) ->
     length (weight_vectors settings) = length (cost_phase_lengths settings) ->
     weight_vectors settings <> [] ->
     phase_in_range self) /\
  (forall rounds self trees self',
     phase_in_range self ->
     solve rounds self = Ok (trees, self') ->
     phase_in_range self') /\
  (forall self,
     phase_in_range self ->
     is_Some (weight_vectors (cost_settings self) !! current_cost_phase self) /\
     is_Some (cost_phase_lengths (cost_settings self)
                !! current_cost_phase self)).
Proof.
  split; [|split].
  - intros grammar formula free smt ins enforce precompute debug asserts
      settings timeout self Hinit Hlen Hne.
    unfold ISLaSolver_init in Hinit.
    destruct (compute_symbol_costs _ _) as [[costs|]|]; [|done|done].
    destruct (py_assert _) as [[]|]; simpl in Hinit; [|done].
    destruct (top_constants _) as [|c' cs]; [done|].
    destruct (for_each _ _ _) as [[r s']|] eqn:Hloop; simpl in Hinit; [|done].
    injection Hinit as <-.
    eapply (hoare_for_each phase_in_range); [| |exact Hloop].
    + intros state _. eapply hoare_bind; [apply compute_cost_phase|].
      intros cost s a s1 Hs [= _ <-]. exact Hs.
    + split; simpl; [done|]. destruct (weight_vectors settings); [done|].
      simpl. lia.
  - intros rounds self trees self' Hself Hrun.
    eapply (solve_loop_frame phase_in_range); try exact Hrun; try done.
    apply compute_cost_phase.
  - intros self [Hlen Hphase]. split; apply lookup_lt_is_Some; lia.
Qed.
End PhaseFacts.

(** Three symbols of equal cost are spread to [3], [2], [1]. *)
Lemma correct_path_strictly_decreasing_flat :
  let costs : gmap string Z :=
    list_to_map [("<start>", 1); ("<d>", 1); ("<x>", 1)]%Z in
  let path := ["<start>"; "<d>"; "<x>"] in
  NoDup path /\
  (forall sym, sym ∈ path -> is_Some (costs !! sym)) /\
  exists result',
    correct_path costs path = Ok result' /\
    strictly_decreasing result' path /\
    raised costs result' /\
    (forall sym, sym ∉ path -> result' !! sym = costs !! sym).
Proof.
  intros costs path.
  assert (NoDup path) as Hnd.
  { repeat constructor; rewrite ?elem_of_cons, elem_of_nil;
      intros H; repeat destruct H as [H|H]; (discriminate || done). }
  assert (forall sym, sym ∈ path -> is_Some (costs !! sym)) as Hcosts.
  { intros sym Hsym.
    repeat (apply elem_of_cons in Hsym as [->|Hsym]; [by eexists|]).
    by apply elem_of_nil in Hsym. }
  split; [exact Hnd|]. split; [exact Hcosts|].
  exact (correct_path_strictly_decreasing path costs Hnd Hcosts).
Defined.

(** The grammar with the shared nonterminal. *)
Lemma compute_symbol_costs_raises_only_shared :
  let probe := SharedNonterminal.probe in
  let g := SharedNonterminal.canonical_grammar in
  exists init result,
    initial_costs g = Ok init /\
    compute_symbol_costs g SharedNonterminal.graph = Some (Ok result) /\
    raised init result /\
    (forall sym, is_Some (result !! sym) <-> sym ∈ map fst g).
Proof.
  intros probe g.
  pose (i := initial_costs g).
  assert (initial_costs g = i) as Hi by reflexivity.
  vm_compute in i.
  pose (r := compute_symbol_costs g SharedNonterminal.graph).
  assert (compute_symbol_costs g SharedNonterminal.graph = r) as Hr
    by reflexivity.
  vm_compute in r.
  match eval unfold i in i with
  | Ok ?init => exists init
  end.
  match eval unfold r in r with
  | Some (Ok ?costs) => exists costs
  end.
  split; [exact Hi|]. split; [exact Hr|].
  exact (compute_symbol_costs_raises_only g SharedNonterminal.graph _ _ Hi Hr).
Defined.

(** A complete tree costs nothing, even with an empty table. *)
Lemma compute_tree_closing_cost_sum_tiny :
  is_complete (TinyWorld.a_tree 0) = true /\
  compute_tree_closing_cost (TinyWorld.a_tree 0) ∅ = Ok 0%Z.
Proof.
  split; [reflexivity|].
  exact (proj2 (proj2 (compute_tree_closing_cost_sum (TinyWorld.a_tree 0) ∅))
           eq_refl).
Defined.

(** The phase of the small world. *)
Lemma cost_phase_stays_in_range_tiny :
  exists self trees self',
    TinyWorld.solver 1 = Some (Ok self) /\
    @solve TinyWorld.language TinyWorld.queries TinyWorld.runtime
      TinyWorld.bridge 2 self = Ok (trees, self') /\
    phase_in_range self /\ phase_in_range self'.
Proof.
  eexists _, _, _.
  match goal with
  | |- ?A /\ ?B /\ _ =>
      assert A as Hinit by (vm_compute; reflexivity);
      assert B as Hrun by (vm_compute; reflexivity)
  end.
  destruct (@cost_phase_stays_in_range TinyWorld.language TinyWorld.queries
              TinyWorld.runtime TinyWorld.bridge TinyWorld.probe)
    as (Hi & Hs & _).
  assert (weight_vectors (TinyWorld.cost_settings 1) <> []) as Hne by done.
  pose proof (Hi _ _ _ _ _ _ _ _ _ _ _ _ Hinit eq_refl Hne) as Hself.
  split; [exact Hinit|]. split; [exact Hrun|].
  split; [exact Hself|exact (Hs _ _ _ _ Hself Hrun)].
Defined.


(** ** One new state: the same tree in every successor *)

Section SameTreeFacts.
Context `{IslaLanguage, GraphQueries, Runtime, SMTBridge}.

Lemma remove_nonmatching_tree self state result :
  remove_nonmatching_universal_quantifiers self state = Ok result ->
  tree result = tree state.
Proof.
  unfold remove_nonmatching_universal_quantifiers.
  generalize (List.filter isinstance_ForallFormula
                (get_conjuncts (constraint state))).
  intros l. revert result.
  assert (forall (acc : Result SolutionState) result,
             (forall s, acc = Ok s -> tree s = tree state) ->
             fold_left
               (fun acc universal_formula =>
                  let? result := acc in
                  let? in_variable := in_tree universal_formula in
                  if is_complete in_variable
                     && match matches_for_quantified_formula universal_formula
                                (grammar self) with
                        | [] => true
                        | _ => false
                        end
                  then Ok (new_state
                             (replace_formula (constraint result)
                                universal_formula sc.true)
                             (tree result))
                  else Ok result)
               l acc = Ok result ->
             tree result = tree state) as Hfold.
  { induction l as [|u l IH]; intros acc result Hacc; simpl.
    - intros ->. by apply Hacc.
    - apply IH. intros s. destruct acc as [s0|]; simpl; [|done].
      destruct (in_tree u); simpl; [|done].
      destruct (_ && _); intros [= <-]; simpl; by apply Hacc. }
  intros result. apply Hfold. by intros s [= <-].
Qed.

Lemma remove_infeasible_tree self state result :
  remove_infeasible_universal_quantifiers self state = Ok result ->
  tree result = tree state.
Proof.
  unfold remove_infeasible_universal_quantifiers.
  generalize (get_conjuncts (constraint state)).
  intros l. revert result.
  assert (forall (acc : Result SolutionState) result,
             (forall s, acc = Ok s -> tree s = tree state) ->
             fold_left
               (fun acc universal_formula =>
                  let? result := acc in
                  if negb (isinstance_ForallFormula universal_formula)
                  then Ok result
                  else
                    let? in_variable := in_tree universal_formula in
                    if existsb
                         (fun '(leaf_path, _) =>
                            ISLaSolver_quantified_formula_might_match self
                              universal_formula leaf_path in_variable)
                         (open_leaves in_variable)
                    then Ok result
                    else
                      let? unmatched :=
                        unmatched_matches self universal_formula in
                      match unmatched with
                      | [] =>
                          Ok (new_state
                                (replace_formula (constraint result)
                                   universal_formula sc.true)
                                (tree result))
                      | _ => Ok result
                      end)
               l acc = Ok result ->
             tree result = tree state) as Hfold.
  { induction l as [|u l IH]; intros acc result Hacc; simpl.
    - intros ->. by apply Hacc.
    - apply IH. intros s. destruct acc as [s0|]; simpl; [|done].
      destruct (negb _); [intros [= <-]; by apply Hacc|].
      destruct (in_tree u); simpl; [|done].
      destruct (existsb _ _); [intros [= <-]; by apply Hacc|].
      destruct (unmatched_matches self u) as [[|m ms]|]; simpl;
        try done; intros [= <-]; simpl; by apply Hacc. }
  intros result. apply Hfold. by intros s [= <-].
Qed.

Lemma prepared_same_tree self state states :
  prepared self state = Ok states ->
  Forall (fun s => tree s = tree state) states /\
  length states
  = length (establish_invariant (instantiate_structural_predicates state)).
Proof.
  unfold prepared.
  destruct (collect (map (remove_nonmatching_universal_quantifiers self) _))
    as [states1|] eqn:Hnm; simpl; [|done].
  intros Hinf. split.
  - apply collect_Forall2 in Hnm. apply collect_Forall2 in Hinf.
    pose (D := fun s : SolutionState => tree s = tree state).
    apply (Forall2_transfer _ D D _ _
             (fun x y (Hx : D x) Hxy =>
                eq_trans (remove_infeasible_tree self x y Hxy) Hx) Hinf).
    apply (Forall2_transfer _ D D _ _
             (fun x y (Hx : D x) Hxy =>
                eq_trans (remove_nonmatching_tree self x y Hxy) Hx) Hnm).
    apply Forall_forall. intros s Hs.
    by apply establish_invariant_tree in Hs.
  - apply collect_length in Hnm. apply collect_length in Hinf.
    rewrite length_map in Hnm, Hinf. congruence.
Qed.

Lemma enqueue_loop (t : DerivationTree) (states : list SolutionState) :
  forall s valid s',
    Forall (fun state => tree state = t) states ->
    for_each states
      (fun new_state =>
         let* ok := state_is_valid_or_enqueue new_state in
         ret (if ok then [tree new_state] else []))
      s = Ok (valid, s') ->
    Forall (fun yielded => yielded = t) (concat valid) /\
    current_level s' = current_level s /\
    exists added,
      queue s' = queue s ++ added /\
      Forall (fun entry => tree (snd entry) = t /\
                           level (snd entry) = (current_level s + 1)%Z) added /\
      (length (concat valid) + length added <= length states)%nat.
Proof.
  induction states as [|state states IH]; intros s valid s' Htrees; simpl.
  - intros [= <- <-]. split; [constructor|]. split; [done|].
    exists []. by rewrite app_nil_r.
  - apply Forall_cons in Htrees as [Ht Htrees].
    unfold bind at 1. unfold bind at 1.
    destruct (state_is_valid_or_enqueue state s) as [[ok s1]|] eqn:Hok; [|done].
    unfold ret at 1. unfold bind at 1.
    destruct (for_each states _ s1) as [[valid' s2]|] eqn:Hrest; [|done].
    unfold ret. intros [= <- <-].
    destruct (IH _ _ _ Htrees Hrest) as (Hy & Hl & added & Hq & Ha & Hn).
    apply state_is_valid_or_enqueue_effect in Hok
      as [(-> & -> & _)
         |(-> & _ & [->|(cost & s0 & Hs0 & -> & _ & _)])].
    + simpl. split; [by constructor|]. split; [done|].
      exists added. split; [done|]. split; [done|]. lia.
    + simpl. split; [done|]. split; [done|].
      exists added. split; [done|]. split; [done|]. lia.
    + assert (queue s0 = queue s /\ current_level s0 = current_level s)
        as [Hq0 Hl0] by (by destruct Hs0 as [->|(phase & since & ->)]).
      unfold enqueued in Hq, Hl, Ha. simpl in Hq, Hl, Ha.
      rewrite Hq0, Hl0 in Hq. rewrite Hl0 in Hl, Ha.
      simpl. split; [done|]. split; [done|].
      eexists (_ :: added). split; [by rewrite Hq, <- app_assoc|].
      split; [by constructor|]. simpl. lia.
Qed.

(** X17.  [process_new_state] never changes the tree of the state it
    is given: every tree it yields is that tree, every entry it adds
    to the queue holds that tree, one level below the current one,
    and yields and new entries together are at most as many as the
    state's constraint has disjuncts. *)
Theorem process_new_state_same_tree new_state s trees s' :
  process_new_state new_state s = Ok (trees, s') ->
  Forall (fun yielded => yielded = tree new_state) trees /\
  exists added,
    queue s' = queue s ++ added /\
    Forall (fun entry =>
              tree (snd entry) = tree new_state /\
              level (snd entry) = (current_level s + 1)%Z) added /\
    (length trees + length added
     <= length (establish_invariant
                  (instantiate_structural_predicates new_state)))%nat.
Proof.
  unfold process_new_state, bind, get, lift. simpl.
  destruct (collect (map (remove_nonmatching_universal_quantifiers s) _))
    as [states1|] eqn:Hnm; [|done].
  destruct (collect (map (remove_infeasible_universal_quantifiers s) states1))
    as [states2|] eqn:Hinf; simpl; [|done].
  destruct (prepared_same_tree s new_state states2) as [Htrees Hlen].
  { unfold prepared. rewrite Hnm. simpl. exact Hinf. }
  destruct (for_each states2 _ s) as [[valid s1]|] eqn:Hloop; [|done].
  unfold ret. intros [= <- <-].
  destruct (enqueue_loop _ _ _ _ _ Htrees Hloop) as (Hy & _ & added & Hq & Ha & Hn).
  split; [done|]. exists added. split; [done|]. split; [done|]. lia.
Qed.
End SameTreeFacts.

(** The pending state of the small world has one disjunct; it is
    pushed. *)
Lemma process_new_state_same_tree_tiny :
  exists self self',
    TinyWorld.solver 1 = Some (Ok self) /\
    @process_new_state TinyWorld.language TinyWorld.queries TinyWorld.runtime
      tiny_pending_state self = Ok ([], self') /\
    exists added,
      queue self' = queue self ++ added /\
      Forall (fun entry =>
                tree (snd entry) = tree tiny_pending_state /\
                level (snd entry) = (current_level self + 1)%Z) added /\
      (0 + length added
       <= length (@establish_invariant
                    (@instantiate_structural_predicates TinyWorld.language
                       tiny_pending_state)))%nat.
Proof.
  eexists _, _.
  match goal with
  | |- ?A /\ ?B /\ _ =>
      assert A as Hinit by (vm_compute; reflexivity);
      assert B as Hrun by (vm_compute; reflexivity)
  end.
  split; [exact Hinit|]. split; [exact Hrun|].
  exact (proj2 (@process_new_state_same_tree TinyWorld.language
                  TinyWorld.queries TinyWorld.runtime _ _ _ _ Hrun)).
Defined.

(** ** The semantic predicate [count] *)

Section CountFacts.
Context `{isla_predicates.PredicateServices}.

Lemma closed_tree_no_more_needles (needle : string) (tree : DerivationTree) :
  is_complete tree = true ->
  isla_predicates.more_needles_possible needle tree
  = isla_predicates.Returns false.
Proof.
  unfold is_complete, is_open, isla_predicates.more_needles_possible.
  by destruct (open_leaves tree).
Qed.

(** X18.  On a tree without open leaves [count] needs no search: asked
    for a constant, it binds the constant to the number of nodes that
    carry the needle; asked about a numeral without children, it
    decides whether that number is the numeral's value. *)
Theorem count_on_closed_tree (fuel : nat) (in_tree : DerivationTree)
    (needle : string) :
  is_complete in_tree = true ->
  (forall name n_type,
     isla_predicates.count fuel in_tree needle
       (KeyConstant (Constant name n_type))
     = Some (isla_predicates.Returns
               (isla_predicates.Binding
                  [(KeyConstant (Constant name n_type),
                    DTree (pretty (isla_predicates.num_needles needle in_tree))
                      None (isla_predicates.next_id 0))]))) /\
  (forall num target,
     children num = None \/ children num = Some [] ->
     isla_predicates.isnumeric (value num) = true ->
     isla_predicates.int (value num) = isla_predicates.Returns target ->
     isla_predicates.count fuel in_tree needle (KeyTree num)
     = Some (isla_predicates.Returns
               (isla_predicates.Decided
                  (isla_predicates.num_needles needle in_tree =? target)%Z))).
Proof.
  intros Hclosed. apply (closed_tree_no_more_needles needle) in Hclosed.
  split.
  - intros name n_type. unfold isla_predicates.count. by rewrite Hclosed.
  - intros num target Hchildren Hnumeric Hint. unfold isla_predicates.count.
    rewrite Hclosed, Hnumeric, Hint. simpl.
    destruct (children num) as [[|c cs]|]; try done.
    + destruct (Z.ltb_spec target (isla_predicates.num_needles needle in_tree));
        [|done].
      do 3 f_equal. symmetry. apply Z.eqb_neq. lia.
    + by destruct Hchildren.
    + destruct (Z.ltb_spec target (isla_predicates.num_needles needle in_tree));
        [|done].
      do 3 f_equal. symmetry. apply Z.eqb_neq. lia.
Qed.

Lemma search_sound (in_tree : DerivationTree) (needle : string) (target : Z) :
  forall fuel built candidates already_seen r,
    isla_predicates.search fuel in_tree needle target built candidates
      already_seen
    = Some (isla_predicates.Returns r) ->
    r = isla_predicates.Decided false \/
    exists candidate,
      r = isla_predicates.Binding [(KeyTree in_tree, candidate)] /\
      isla_predicates.num_needles needle candidate = target /\
      isla_predicates.more_needles_possible needle candidate
      = isla_predicates.Returns false.
Proof.
  induction fuel as [|fuel IH]; intros built candidates already_seen r.
  - destruct candidates; simpl; [|done]. intros [= <-]. by left.
  - destruct candidates as [|candidate candidates]; simpl.
    { intros [= <-]. by left. }
    destruct (isla_predicates.more_needles_possible needle candidate)
      as [more|] eqn:Hmore; [|done].
    destruct (negb more && _) eqn:Hfound.
    + intros [= <-]. right. exists candidate.
      apply andb_prop in Hfound as [Hno Heq].
      apply negb_true_iff in Hno. subst more.
      apply Z.eqb_eq in Heq. done.
    + destruct (_ <? _)%Z; apply IH.
Qed.

(** X19.  The answers of [count] about a numeral are sound.  It says
    true only if the tree has exactly that many needles and no open
    leaf reaches the needle; it says not ready only if the number is
    met while an open leaf still reaches the needle; and a tree it
    proposes in place of the given one has exactly that many needles
    and no open leaf that reaches the needle. *)
Theorem count_answers_sound (fuel : nat) (in_tree : DerivationTree)
    (needle : string) (num : DerivationTree) (target : Z)
    (r : isla_predicates.SemPredEvalResult) :
  isla_predicates.int (value num) = isla_predicates.Returns target ->
  isla_predicates.count fuel in_tree needle (KeyTree num)
  = Some (isla_predicates.Returns r) ->
  match r with
  | isla_predicates.NotReady =>
      isla_predicates.num_needles needle in_tree = target /\
      isla_predicates.more_needles_possible needle in_tree
      = isla_predicates.Returns true
  | isla_predicates.Decided true =>
      isla_predicates.num_needles needle in_tree = target /\
      isla_predicates.more_needles_possible needle in_tree
      = isla_predicates.Returns false
  | isla_predicates.Decided false => True
  | isla_predicates.Binding result =>
      exists candidate,
        result = [(KeyTree in_tree, candidate)] /\
        isla_predicates.num_needles needle candidate = target /\
        isla_predicates.more_needles_possible needle candidate
        = isla_predicates.Returns false
  end.
Proof.
  intros Hint. unfold isla_predicates.count.
  destruct (isla_predicates.more_needles_possible needle in_tree)
    as [more|] eqn:Hmore; [|done].
  destruct (children num) as [[|c cs]|]; try done.
  all: destruct (negb (isla_predicates.isnumeric (value num))); [done|].
  all: rewrite Hint.
  all: destruct (target <? _)%Z; [by intros [= <-]|].
  all: destruct more; simpl.
  all: destruct (Z.eqb_spec (isla_predicates.num_needles needle in_tree)
                   target) as [Heq|Hne];
    try (by intros [= <-]).
  all: intros Hsearch; apply search_sound in Hsearch
         as [->|(candidate & -> & Hn & Hm)]; [done|by exists candidate].
Qed.
End CountFacts.

(** A closed tree with one ["a"], asked about the numeral ["1"]. *)
Lemma count_on_closed_tree_tiny :
  is_complete (TinyWorld.a_tree 0) = true /\
  @isla_predicates.count tiny_services 0 (TinyWorld.a_tree 0) "a"
    (KeyTree (DTree "1" (Some []) 7))
  = Some (isla_predicates.Returns (isla_predicates.Decided true)).
Proof.
  split; [reflexivity|].
  exact (proj2 (@count_on_closed_tree tiny_services 0 (TinyWorld.a_tree 0) "a"
                  eq_refl)
           (DTree "1" (Some []) 7) 1%Z (or_intror eq_refl) eq_refl eq_refl).
Defined.

(** An open [<start>] has no [<x>] yet and can still get one: asked
    whether it has none, [count] is not ready. *)
Lemma count_answers_sound_tiny :
  let in_tree := DTree "<start>" None 0 in
  let num := DTree "0" None 7 in
  @isla_predicates.int tiny_services (value num) = isla_predicates.Returns 0%Z /\
  @isla_predicates.count tiny_services 5 in_tree "<x>" (KeyTree num)
  = Some (isla_predicates.Returns isla_predicates.NotReady) /\
  @isla_predicates.num_needles "<x>" in_tree = 0%Z /\
  @isla_predicates.more_needles_possible tiny_services "<x>" in_tree
  = isla_predicates.Returns true.
Proof.
  intros in_tree num.
  assert (@isla_predicates.int tiny_services (value num)
          = isla_predicates.Returns 0%Z) as Hint by reflexivity.
  assert (@isla_predicates.count tiny_services 5 in_tree "<x>" (KeyTree num)
          = Some (isla_predicates.Returns isla_predicates.NotReady)) as Hrun
    by (vm_compute; reflexivity).
  split; [exact Hint|]. split; [exact Hrun|].
  exact (@count_answers_sound tiny_services 5 in_tree "<x>" num 0%Z _ Hint Hrun).
Defined.


(** ** Free fuzzing and the successors of SMT elimination *)

Section FreeFuzzingFacts.
Context `{IslaLanguage, GraphQueries, Runtime, SMTBridge}.

(** X20.  A state whose constraint is [true] goes to free fuzzing:
    instantiating structural predicates leaves it [true], no earlier
    rule applies, and the fuzzer supplies
    [max_number_free_instantiations] batches of one state each, all
    with the constraint [true]; for a tree without open leaves each of
    them is the state's own tree. *)
Theorem solved_state_is_fuzzed (self : ISLaSolver) (iteration : nat)
    (state : SolutionState) :
  constraint state = sc.true ->
  constraint (instantiate_structural_predicates state) = sc.true /\
  exists batches,
    apply_rules self iteration state
    = Ok (FreeFuzzing, ForProcessNewStates batches) /\
    length batches = max_number_free_instantiations self /\
    Forall (fun batch => exists t, batch = [new_state sc.true t]) batches /\
    (is_complete (tree state) = true ->
     Forall (fun batch => batch = [new_state sc.true (tree state)]) batches).
Proof.
  intros Htrue. split.
  { unfold instantiate_structural_predicates. rewrite Htrue. reflexivity. }
  unfold apply_rules, instantiate_numeric_constant_intros,
    match_all_universal_formulas, eliminate_all_semantic_formulas,
    eliminate_all_ready_semantic_predicate_formulas,
    eliminate_first_match_all_existential_formulas, free_instantiations.
  rewrite Htrue. cbn.
  eexists. split; [reflexivity|].
  split; [by rewrite length_map, length_seq|]. split.
  - apply Forall_map, Forall_forall. intros round _. by eexists.
  - intros Hclosed. apply Forall_map, Forall_forall. intros round _.
    unfold is_complete, is_open in Hclosed.
    by destruct (open_leaves (tree state)).
Qed.
End FreeFuzzingFacts.

Section SemanticEliminationFacts.
Context `{IslaLanguage, GraphQueries, Runtime, SMTBridge}.

Lemma zip_nil_r {A B} (l : list A) : zip l (@nil B) = [].
Proof. by destruct l. Qed.

Lemma solve_quantifier_free_formula_length
    (max_number_smt_instantiations : nat) (fs : list SMTFormula)
    (sols : list Solution) :
  solve_quantifier_free_formula max_number_smt_instantiations fs = Ok sols ->
  (length sols <= max_number_smt_instantiations)%nat.
Proof.
  unfold solve_quantifier_free_formula, solve_quantifier_free_formula_traced.
  destruct (match get_conflicts fs with [] => _ | _ => _ end) as [fs'|];
    [|done].
  intros Hrun. apply smt_loop_grows in Hrun as (_ & Hlen & _).
  simpl in Hlen. lia.
Qed.

(** X21.  The successors of [eliminate_semantic_formula] are one per
    combined solution.  With a single cluster they are as many as the
    SMT loop found solutions, at most [max_number_smt_instantiations];
    with one or two clusters, a cluster without solution leaves no
    successor at all. *)
Theorem eliminate_semantic_formula_successors (self : ISLaSolver)
    (semantic_formula : Formula) (state : SolutionState)
    (results : list SolutionState) :
  eliminate_semantic_formula self semantic_formula state = Ok results ->
  exists all_solutions,
    collect
      (map (solve_quantifier_free_formula (max_number_smt_instantiations self))
         (formula_clusters semantic_formula))
    = Ok all_solutions /\
    (forall only,
       all_solutions = [only] ->
       length results = length only /\
       (length results <= max_number_smt_instantiations self)%nat) /\
    ((length all_solutions <= 2)%nat -> [] ∈ all_solutions -> results = []).
Proof.
  unfold eliminate_semantic_formula.
  destruct (py_assert _) as [[]|]; simpl; [|done].
  fold (formula_clusters semantic_formula).
  destruct (py_assert _) as [[]|]; simpl; [|done].
  destruct (collect (map _ (formula_clusters semantic_formula)))
    as [all_solutions|] eqn:Hall; simpl; [|done].
  destruct (collect (map with_subtrees _)) as [with_sub|] eqn:Hsub;
    simpl; [|done].
  intros [= <-]. exists all_solutions. split; [done|].
  apply collect_length in Hsub. rewrite length_map in Hsub. split.
  - intros only ->. simpl in Hsub.
    unfold Substitution in *.
    split; [by rewrite length_map|]. rewrite length_map, Hsub.
    apply collect_Forall2 in Hall.
    destruct (formula_clusters semantic_formula) as [|cluster [|c cs]];
      inversion Hall as [|? ? ? ? Hsolve Hrest]; subst.
    + by eapply solve_quantifier_free_formula_length.
    + inversion Hrest.
  - intros Hlen Hempty.
    assert (match all_solutions with
            | [only] => only
            | _ =>
                flat_map
                  (fun '(i, solutions_1) =>
                     flat_map
                       (fun '(j, solutions_2) =>
                          if Nat.eqb i j then []
                          else map (fun '(solution_1, solution_2) =>
                                      dict_union key_eqb solution_1 solution_2)
                                 (zip solutions_1 solutions_2))
                       (imap (fun j l => (j, l)) all_solutions))
                  (imap (fun i l => (i, l)) all_solutions)
            end = []) as Hnone.
    { destruct all_solutions as [|s1 [|s2 [|s3 rest]]]; simpl in *; try lia.
      - by apply elem_of_nil in Hempty.
      - by apply list_elem_of_singleton in Hempty.
      - rewrite !app_nil_r.
        apply elem_of_cons in Hempty as [<-|Hempty]; simpl.
        + by rewrite zip_nil_r.
        + apply list_elem_of_singleton in Hempty as <-. simpl.
          by rewrite zip_nil_r. }
    rewrite Hnone in Hsub. simpl in Hsub.
    destruct with_sub; [done|discriminate].
Qed.
End SemanticEliminationFacts.

(** The solved state of the small world is fuzzed ten times. *)
Lemma solved_state_is_fuzzed_tiny :
  exists self,
    TinyWorld.solver 1 = Some (Ok self) /\
    constraint tiny_solved_state = sc.true /\
    exists batches,
      @apply_rules TinyWorld.language TinyWorld.queries TinyWorld.runtime
        TinyWorld.bridge self 0 tiny_solved_state
      = Ok (FreeFuzzing, ForProcessNewStates batches) /\
      length batches = max_number_free_instantiations self.
Proof.
  eexists.
  match goal with
  | |- ?A /\ _ => assert A as Hinit by (vm_compute; reflexivity)
  end.
  split; [exact Hinit|]. split; [reflexivity|].
  match goal with
  | |- exists batches, @apply_rules _ _ _ _ ?self _ _ = _ /\ _ =>
      destruct (@solved_state_is_fuzzed TinyWorld.language TinyWorld.queries
                  TinyWorld.runtime TinyWorld.bridge self 0 tiny_solved_state
                  eq_refl) as (_ & batches & Hrules & Hlen & _)
  end.
  exists batches. split; [exact Hrules|exact Hlen].
Defined.

(** Scenario S1 has one cluster and one solution, hence one successor. *)
Lemma eliminate_semantic_formula_successors_S1 :
  exists self results,
    TinyWorld.solver 1 = Some (Ok self) /\
    @eliminate_semantic_formula TinyWorld.language TinyWorld.runtime
      TinyWorld.bridge self (SMT ScenarioS1.atom) tiny_smt_state
    = Ok results /\
    length results = 1%nat /\
    (length results <= max_number_smt_instantiations self)%nat.
Proof.
  eexists _, _.
  match goal with
  | |- ?A /\ ?B /\ _ =>
      assert A as Hinit by (vm_compute; reflexivity);
      assert B as Hrun by (vm_compute; reflexivity)
  end.
  split; [exact Hinit|]. split; [exact Hrun|].
  destruct (@eliminate_semantic_formula_successors TinyWorld.language
              TinyWorld.runtime TinyWorld.bridge _ _ _ _ Hrun)
    as (all_solutions & Hall & Hone & _).
  vm_compute in Hall. injection Hall as <-.
  destruct (Hone _ eq_refl) as [Hlen Hmax].
  split; [exact Hlen|exact Hmax].
Defined.


(** ** When universal matching and semantic predicates make progress *)

Section MatchingFacts.
Context `{IslaLanguage, GraphQueries, Runtime, SMTBridge}.

Lemma count_matches (universal_formula with_matches : Formula)
    (matches : list Match) : forall (n : nat) (context : Formula),
  fst (fold_left
         (fun '(number_matches, context_formula) m =>
            let inst_formula :=
              substitute_expressions
                (default sc.true (inner_formula_of with_matches))
                (match_substitution m) in
            (S number_matches,
             inst_formula
             & replace_formula context_formula universal_formula with_matches))
         matches (n, context))
  = (n + length matches)%nat.
Proof.
  induction matches as [|m ms IH]; intros n context; simpl; [lia|].
  rewrite IH. lia.
Qed.

Lemma match_fold_failed (self : ISLaSolver) (l : list Formula) (e : Exception) :
  fold_left
    (fun acc universal_formula =>
       let? '(number_matches, context_formula) := acc in
       let? matches := unmatched_matches self universal_formula in
       let? matched_trees :=
         collect (map (bound_match universal_formula) matches) in
       let universal_formula_with_matches :=
         add_already_matched universal_formula matched_trees in
       Ok (fold_left
             (fun '(number_matches, context_formula) m =>
                let inst_formula :=
                  substitute_expressions
                    (default sc.true
                       (inner_formula_of universal_formula_with_matches))
                    (match_substitution m) in
                (S number_matches,
                 inst_formula
                 & replace_formula context_formula universal_formula
                     universal_formula_with_matches))
             matches (number_matches, context_formula)))
    l (Raise e) = Raise e.
Proof. induction l as [|u l IH]; simpl; [done|exact IH]. Qed.

Lemma match_fold_count (self : ISLaSolver) (l : list Formula) :
  forall (n : nat) (context : Formula) (n' : nat) (context' : Formula),
  fold_left
    (fun acc universal_formula =>
       let? '(number_matches, context_formula) := acc in
       let? matches := unmatched_matches self universal_formula in
       let? matched_trees :=
         collect (map (bound_match universal_formula) matches) in
       let universal_formula_with_matches :=
         add_already_matched universal_formula matched_trees in
       Ok (fold_left
             (fun '(number_matches, context_formula) m =>
                let inst_formula :=
                  substitute_expressions
                    (default sc.true
                       (inner_formula_of universal_formula_with_matches))
                    (match_substitution m) in
                (S number_matches,
                 inst_formula
                 & replace_formula context_formula universal_formula
                     universal_formula_with_matches))
             matches (number_matches, context_formula)))
    l (Ok (n, context)) = Ok (n', context') ->
  (n' = n /\ Forall (fun u => unmatched_matches self u = Ok []) l) \/
  ((n < n')%nat /\
   Exists (fun u => exists m ms, unmatched_matches self u = Ok (m :: ms)) l).
Proof.
  induction l as [|u l IH]; intros n context n' context'; cbn [fold_left].
  - intros [= <- <-]. left. split; [done|constructor].
  - cbn [rbind].
    destruct (unmatched_matches self u) as [matches|e] eqn:Hu; cbn [rbind].
    2:{ rewrite match_fold_failed. done. }
    destruct (collect (map (bound_match u) matches)) as [trees|e]; cbn [rbind].
    2:{ rewrite match_fold_failed. done. }
    pose proof (count_matches u (add_already_matched u trees) matches
                  n context) as Hcount.
    destruct (fold_left _ matches (n, context)) as [n1 context1].
    simpl in Hcount. subst n1.
    intros Hrest. apply IH in Hrest as [[-> Hall]|[Hlt Hex]].
    + destruct matches as [|m ms]; simpl.
      * left. split; [lia|]. by constructor.
      * right. split; [lia|]. apply Exists_cons_hd. by exists m, ms.
    + right. split; [lia|]. by apply Exists_cons_tl.
Qed.

(** X22.  [match_all_universal_formulas] makes progress exactly when
    some universal conjunct has a match that was not matched before:
    it returns [None] only if no universal conjunct has one, and a
    result only if one has; the result is then a single state over the
    tree of the given state. *)
Theorem match_all_universal_formulas_progress (self : ISLaSolver)
    (state : SolutionState) (result : option (list SolutionState)) :
  match_all_universal_formulas self state = Ok result ->
  match result with
  | None =>
      Forall (fun u => unmatched_matches self u = Ok [])
        (List.filter isinstance_ForallFormula
           (split_conjunction (constraint state)))
  | Some successors =>
      (exists context, successors = [new_state context (tree state)]) /\
      Exists (fun u => exists m ms, unmatched_matches self u = Ok (m :: ms))
        (List.filter isinstance_ForallFormula
           (split_conjunction (constraint state)))
  end.
Proof.
  unfold match_all_universal_formulas, match_universal_formulas.
  destruct (List.filter isinstance_ForallFormula _) as [|u us] eqn:Hfilter.
  { intros [= <-]. constructor. }
  rewrite <- Hfilter. clear Hfilter.
  generalize (List.filter isinstance_ForallFormula
                (split_conjunction (constraint state))) as l.
  intros l.
  destruct (fold_left _ l (Ok (0%nat, constraint state)))
    as [[n context]|e] eqn:Hfold; simpl; [|done].
  apply match_fold_count in Hfold as [[-> Hall]|[Hlt Hex]].
  - intros [= <-]. exact Hall.
  - destruct n as [|n]; [lia|]. intros [= <-]. split; [by eexists|done].
Qed.
End MatchingFacts.

Section ReadyPredicateFacts.
Context `{IslaLanguage, GraphQueries, Runtime, SMTBridge}.

Lemma ready_loop_changed (self : ISLaSolver) (fs : list Formula) :
  forall pending result r changed,
    ready_predicates_loop self fs pending result true = inr (r, changed) ->
    changed = true.
Proof.
  induction fs as [|f fs IH]; intros pending result r changed; simpl.
  - by intros [= _ <-].
  - destruct (evaluate_semantic _ _) as [|[]|d]; try done; apply IH.
Qed.

Lemma ready_loop_idle (self : ISLaSolver) (fs : list Formula) :
  forall result r,
    ready_predicates_loop self fs [] result false = inr (r, false) <->
    r = result /\
    Forall (fun f => evaluate_semantic f (grammar self) = NotReady) fs.
Proof.
  induction fs as [|f fs IH]; intros result r; simpl.
  - split; [intros [= <-]; split; [done|constructor]|].
    by intros [-> _].
  - destruct (evaluate_semantic f (grammar self)) as [|[]|d] eqn:Hf.
    + rewrite IH. split; intros [-> Hall]; split; try done.
      * by constructor.
      * by apply Forall_cons in Hall as [_ Hall].
    + split; [intros Hloop; by apply ready_loop_changed in Hloop|].
      intros [_ Hall]. apply Forall_cons in Hall as [Hhead _]. congruence.
    + split; [done|].
      intros [_ Hall]. apply Forall_cons in Hall as [Hhead _]. congruence.
    + split; [intros Hloop; by apply ready_loop_changed in Hloop|].
      intros [_ Hall]. apply Forall_cons in Hall as [Hhead _]. congruence.
Qed.

Lemma ready_loop_tree (self : ISLaSolver) (fs : list Formula) :
  forall result changed,
    Forall (fun f => forall d, evaluate_semantic f (grammar self) <> Binding d)
      fs ->
    match ready_predicates_loop self fs [] result changed with
    | inl early => early = new_state sc.false (tree result)
    | inr (r, _) => tree r = tree result
    end.
Proof.
  induction fs as [|f fs IH]; intros result changed Hall; simpl; [done|].
  apply Forall_cons in Hall as [Hf Hall].
  destruct (evaluate_semantic f (grammar self)) as [|[]|d] eqn:Heval.
  - by apply IH.
  - specialize (IH (new_state (replace_formula (constraint result) f sc.true)
                      (tree result)) true Hall).
    simpl in IH. exact IH.
  - done.
  - by destruct (Hf d).
Qed.

(** X23.  [eliminate_all_ready_semantic_predicate_formulas] returns
    [None] exactly when none of the semantic predicate formulas without
    variable arguments is ready; and as long as no predicate answers
    with a binding, the state it returns has the tree of the given
    state. *)
Theorem ready_predicates_progress (self : ISLaSolver) (state : SolutionState) :
  (eliminate_all_ready_semantic_predicate_formulas self state = None <->
   Forall (fun f => evaluate_semantic f (grammar self) = NotReady)
     (concrete_semantic_predicates state)) /\
  (Forall (fun f => forall d, evaluate_semantic f (grammar self) <> Binding d)
     (concrete_semantic_predicates state) ->
   forall result,
     eliminate_all_ready_semantic_predicate_formulas self state = Some result ->
     tree result = tree state).
Proof.
  unfold eliminate_all_ready_semantic_predicate_formulas.
  fold (concrete_semantic_predicates state).
  destruct (concrete_semantic_predicates state) as [|f fs] eqn:Hfs.
  { split; [split; [constructor|done]|done]. }
  rewrite <- Hfs. clear Hfs f fs.
  generalize (concrete_semantic_predicates state) as fs. intros fs. split.
  - pose proof (ready_loop_idle self fs state) as Hidle.
    destruct (ready_predicates_loop self fs [] state false)
      as [early|[r changed]].
    + split; [done|]. intros Hall.
      pose proof (proj2 (Hidle state) (conj eq_refl Hall)). done.
    + destruct changed.
      * split; [done|]. intros Hall.
        pose proof (proj2 (Hidle state) (conj eq_refl Hall)). done.
      * split; [|done]. intros _. by apply (Hidle r).
  - intros Hall result.
    pose proof (ready_loop_tree self fs state false Hall) as Htree.
    destruct (ready_predicates_loop self fs [] state false)
      as [early|[r changed]].
    + intros [= <-]. by rewrite Htree.
    + destruct changed; [|done]. by intros [= <-].
Qed.
End ReadyPredicateFacts.

(** In the small world the variable of the universal formula is bound
    to the root of the open tree, which gives one successor; in the
    successor the root is on record as matched, and there is nothing
    left to match. *)
Lemma match_all_universal_formulas_progress_tiny :
  exists self successor,
    TinyWorld.solver 1 = Some (Ok self) /\
    @match_all_universal_formulas TinyWorld.language self tiny_universal_state
    = Ok (Some [successor]) /\
    @match_all_universal_formulas TinyWorld.language self successor
    = Ok None /\
    ((exists context,
        [successor] = [new_state context (tree tiny_universal_state)]) /\
     Exists (fun u => exists m ms,
                 @unmatched_matches TinyWorld.language self u = Ok (m :: ms))
       (List.filter isinstance_ForallFormula
          (split_conjunction (constraint tiny_universal_state)))) /\
    Forall (fun u => @unmatched_matches TinyWorld.language self u = Ok [])
      (List.filter isinstance_ForallFormula
         (split_conjunction (constraint successor))).
Proof.
  eexists _, _.
  match goal with
  | |- ?A /\ ?B /\ ?C /\ _ =>
      assert A as Hinit by (vm_compute; reflexivity);
      assert B as Hrun by (vm_compute; reflexivity);
      assert C as Hidle by (vm_compute; reflexivity)
  end.
  split; [exact Hinit|]. split; [exact Hrun|]. split; [exact Hidle|].
  split.
  - exact (@match_all_universal_formulas_progress TinyWorld.language _ _ _
             Hrun).
  - exact (@match_all_universal_formulas_progress TinyWorld.language _ _ _
             Hidle).
Defined.

(** No predicate of the small world is ever ready. *)
Lemma ready_predicates_progress_tiny :
  exists self,
    TinyWorld.solver 1 = Some (Ok self) /\
    Forall (fun f => @evaluate_semantic TinyWorld.language f (grammar self)
                     = NotReady)
      (concrete_semantic_predicates tiny_predicate_state) /\
    @eliminate_all_ready_semantic_predicate_formulas TinyWorld.language self
      tiny_predicate_state = None.
Proof.
  eexists.
  match goal with
  | |- ?A /\ ?B /\ _ =>
      assert A as Hinit by (vm_compute; reflexivity);
      assert B as Hidle by (vm_compute; repeat constructor)
  end.
  split; [exact Hinit|]. split; [exact Hidle|].
  exact (proj2 (proj1 (@ready_predicates_progress TinyWorld.language _
                         tiny_predicate_state)) Hidle).
Defined.

(** ** The queue holds the disjuncts of the normal form *)

Section Meaning.
Variable I : Interpretation.
Hypothesis Hreads : reads_smt I.

Lemma holds_true env : holds I env sc.true = true.
Proof. apply Hreads. Qed.

Lemma holds_false env : holds I env sc.false = false.
Proof. apply Hreads. Qed.

Lemma holds_and env a b :
  holds I env (a & b) = holds I env a && holds I env b.
Proof.
  unfold formula_and, formula_eqb.
  destruct (bool_decide_reflect (a = b)) as [->|_]; [by rewrite andb_diag|].
  destruct (bool_decide_reflect (a = sc.false)) as [->|_]; cbn [orb];
    [by rewrite holds_false|].
  destruct (bool_decide_reflect (b = sc.false)) as [->|_]; cbn [orb];
    [by rewrite holds_false, andb_false_r|].
  destruct (bool_decide_reflect (a = sc.true)) as [->|_];
    [by rewrite holds_true|].
  destruct (bool_decide_reflect (b = sc.true)) as [->|_];
    [by rewrite holds_true, andb_true_r|].
  done.
Qed.

Lemma holds_or env a b :
  holds I env (a |' b) = holds I env a || holds I env b.
Proof.
  unfold formula_or, formula_eqb.
  destruct (bool_decide_reflect (a = b)) as [->|_]; [by rewrite orb_diag|].
  destruct (bool_decide_reflect (a = sc.true)) as [->|_]; cbn [orb];
    [by rewrite holds_true|].
  destruct (bool_decide_reflect (b = sc.true)) as [->|_]; cbn [orb];
    [by rewrite holds_true, orb_true_r|].
  destruct (bool_decide_reflect (a = sc.false)) as [->|_];
    [by rewrite holds_false|].
  destruct (bool_decide_reflect (b = sc.false)) as [->|_];
    [by rewrite holds_false, orb_false_r|].
  done.
Qed.

Lemma forallb_negb {A} (p : A -> bool) (l : list A) :
  negb (forallb p l) = existsb (fun x => negb (p x)) l.
Proof.
  induction l as [|x l IH]; simpl; [done|].
  by rewrite negb_andb, IH.
Qed.

Lemma existsb_negb {A} (p : A -> bool) (l : list A) :
  negb (existsb p l) = forallb (fun x => negb (p x)) l.
Proof.
  induction l as [|x l IH]; simpl; [done|].
  by rewrite negb_orb, IH.
Qed.

Lemma existsb_ext_all {A} (p q : A -> bool) (l : list A) :
  (forall x, p x = q x) -> existsb p l = existsb q l.
Proof. intros Hpq. induction l as [|x l IH]; simpl; [done|]. by rewrite Hpq, IH. Qed.

Lemma forallb_ext_all {A} (p q : A -> bool) (l : list A) :
  (forall x, p x = q x) -> forallb p l = forallb q l.
Proof. intros Hpq. induction l as [|x l IH]; simpl; [done|]. by rewrite Hpq, IH. Qed.

(** [convert_to_nnf] keeps the meaning of a formula. *)
Lemma holds_nnf f :
  forall env negate,
    holds I env (convert_to_nnf_aux negate f)
    = if negate then negb (holds I env f) else holds I env f.
Proof.
  induction f as [s|p args|p args o|v t inner IH bind matched q
                  |v t inner IH bind|v inner IH|a IHa b IHb|a IHa b IHb|a IH];
    intros env negate; simpl.
  - destruct negate; [|done]. simpl. apply Hreads.
  - by destruct negate.
  - by destruct negate.
  - destruct negate; [|done]. simpl. rewrite forallb_negb.
    apply existsb_ext_all. intros env'. apply IH.
  - destruct negate; [|done]. simpl. rewrite existsb_negb.
    apply forallb_ext_all. intros env'. apply IH.
  - by destruct negate.
  - destruct negate.
    + rewrite holds_or, IHa, IHb. by rewrite negb_andb.
    + by rewrite holds_and, IHa, IHb.
  - destruct negate.
    + rewrite holds_and, IHa, IHb. by rewrite negb_orb.
    + by rewrite holds_or, IHa, IHb.
  - rewrite IH. destruct negate; simpl; [by rewrite negb_involutive|done].
Qed.

(** A formula holds exactly if one of its disjuncts does. *)
Lemma holds_split_disjunction env f :
  holds I env f = existsb (holds I env) (split_disjunction f).
Proof.
  induction f; simpl; rewrite ?orb_false_r; try done.
  by rewrite existsb_app, <- IHf1, <- IHf2.
Qed.

Lemma holds_fold_or env (l : list Formula) (init : Formula) :
  holds I env (fold_left formula_or l init)
  = holds I env init || existsb (holds I env) l.
Proof.
  revert init. induction l as [|f l IH]; intros init; simpl.
  - by rewrite orb_false_r.
  - by rewrite IH, holds_or, orb_assoc.
Qed.

Lemma existsb_pairs env (xs ys : list Formula) :
  existsb (holds I env)
    (flat_map (fun x => map (fun y => (sc.true & x) & y) ys) xs)
  = existsb (holds I env) xs && existsb (holds I env) ys.
Proof.
  induction xs as [|x xs IH]; simpl; [done|].
  rewrite existsb_app, IH. rewrite andb_orb_distrib_l. f_equal.
  clear IH. induction ys as [|y ys IHy]; simpl; [by rewrite andb_false_r|].
  rewrite IHy, !holds_and, holds_true. simpl.
  by rewrite andb_orb_distrib_r.
Qed.

(** [convert_to_dnf] keeps the meaning of a formula. *)
Lemma holds_dnf f :
  forall env, holds I env (convert_to_dnf f) = holds I env f.
Proof.
  induction f as [s|p args|p args o|v t inner IH bind matched q
                  |v t inner IH bind|v inner IH|a IHa b IHb|a IHa b IHb|a IH];
    intros env; simpl; try done.
  - apply forallb_ext_all. intros env'. apply IH.
  - apply existsb_ext_all. intros env'. apply IH.
  - rewrite holds_fold_or, holds_false. simpl.
    by rewrite existsb_pairs, <- !holds_split_disjunction, IHa, IHb.
  - rewrite !holds_or, holds_false. simpl. by rewrite IHa, IHb.
Qed.

Lemma holds_establish_invariant env (state : SolutionState) :
  holds I env (constraint state)
  = existsb (fun s => holds I env (constraint s)) (establish_invariant state).
Proof.
  unfold establish_invariant.
  pose proof (holds_nnf (constraint state) env false) as Hnnf. simpl in Hnnf.
  rewrite <- Hnnf. fold (convert_to_nnf (constraint state)).
  rewrite <- (holds_dnf (convert_to_nnf (constraint state)) env).
  rewrite holds_split_disjunction.
  generalize (split_disjunction
                (convert_to_dnf (convert_to_nnf (constraint state)))).
  intros l. induction l as [|d l IH]; simpl; [done|]. by rewrite IH.
Qed.
End Meaning.

Section EmittedDisjuncts.
Context `{IslaLanguage, GraphQueries, Runtime, SMTBridge, CostProbe}.

Lemma universals_removed_trans d c e :
  universals_removed d c -> universals_removed c e -> universals_removed d e.
Proof.
  intros Hdc Hce. induction Hce as [|e u Hce IH Hu]; [done|].
  by constructor.
Qed.

Lemma remove_nonmatching_removes self state result :
  remove_nonmatching_universal_quantifiers self state = Ok result ->
  universals_removed (constraint state) (constraint result).
Proof.
  unfold remove_nonmatching_universal_quantifiers.
  assert (Forall (fun u => isinstance_ForallFormula u = true)
            (List.filter isinstance_ForallFormula
               (get_conjuncts (constraint state)))) as Hall.
  { apply Forall_forall. intros u Hu. apply list_elem_of_In in Hu.
    by apply filter_In in Hu as [_ Hu]. }
  revert Hall.
  generalize (List.filter isinstance_ForallFormula
                (get_conjuncts (constraint state))).
  intros l Hall. revert result.
  assert (forall (acc : Result SolutionState) result,
             (forall s, acc = Ok s ->
                        universals_removed (constraint state) (constraint s)) ->
             fold_left
               (fun acc universal_formula =>
                  let? result := acc in
                  let? in_variable := in_tree universal_formula in
                  if is_complete in_variable
                     && match matches_for_quantified_formula universal_formula
                                (grammar self) with
                        | [] => true
                        | _ => false
                        end
                  then Ok (new_state
                             (replace_formula (constraint result)
                                universal_formula sc.true)
                             (tree result))
                  else Ok result)
               l acc = Ok result ->
             universals_removed (constraint state) (constraint result))
    as Hfold.
  { induction l as [|u l IH]; intros acc result Hacc; simpl.
    - intros ->. by apply Hacc.
    - apply Forall_cons in Hall as [Hu Hall].
      apply IH; [done|]. intros s. destruct acc as [s0|]; simpl; [|done].
      destruct (in_tree u); simpl; [|done].
      destruct (_ && _); intros [= <-]; simpl.
      + constructor; [by apply Hacc|done].
      + by apply Hacc. }
  intros result. apply Hfold. intros s [= <-]. constructor.
Qed.

Lemma remove_infeasible_removes self state result :
  remove_infeasible_universal_quantifiers self state = Ok result ->
  universals_removed (constraint state) (constraint result).
Proof.
  unfold remove_infeasible_universal_quantifiers.
  generalize (get_conjuncts (constraint state)).
  intros l. revert result.
  assert (forall (acc : Result SolutionState) result,
             (forall s, acc = Ok s ->
                        universals_removed (constraint state) (constraint s)) ->
             fold_left
               (fun acc universal_formula =>
                  let? result := acc in
                  if negb (isinstance_ForallFormula universal_formula)
                  then Ok result
                  else
                    let? in_variable := in_tree universal_formula in
                    if existsb
                         (fun '(leaf_path, _) =>
                            ISLaSolver_quantified_formula_might_match self
                              universal_formula leaf_path in_variable)
                         (open_leaves in_variable)
                    then Ok result
                    else
                      let? unmatched :=
                        unmatched_matches self universal_formula in
                      match unmatched with
                      | [] =>
                          Ok (new_state
                                (replace_formula (constraint result)
                                   universal_formula sc.true)
                                (tree result))
                      | _ => Ok result
                      end)
               l acc = Ok result ->
             universals_removed (constraint state) (constraint result))
    as Hfold.
  { induction l as [|u l IH]; intros acc result Hacc; simpl.
    - intros ->. by apply Hacc.
    - apply IH. intros s. destruct acc as [s0|]; simpl; [|done].
      destruct (isinstance_ForallFormula u) eqn:Hu; simpl;
        [|intros [= <-]; by apply Hacc].
      destruct (in_tree u); simpl; [|done].
      destruct (existsb _ _); [intros [= <-]; by apply Hacc|].
      destruct (unmatched_matches self u) as [[|m ms]|]; simpl;
        try done; intros [= <-]; simpl.
      + constructor; [by apply Hacc|done].
      + by apply Hacc. }
  intros result. apply Hfold. intros s [= <-]. constructor.
Qed.

Lemma prepared_chain self (t : DerivationTree) (ds : list Formula) :
  forall states1 states,
    Forall2 (fun x y => remove_nonmatching_universal_quantifiers self x = Ok y)
      (map (fun disjunct => new_state disjunct t) ds) states1 ->
    Forall2 (fun x y => remove_infeasible_universal_quantifiers self x = Ok y)
      states1 states ->
    Forall2
      (fun disjunct s =>
         tree s = t /\ universals_removed disjunct (constraint s))
      ds states.
Proof.
  induction ds as [|d ds IH]; intros states1 states Hnm Hinf; simpl in Hnm.
  - inversion Hnm; subst. inversion Hinf; subst. constructor.
  - inversion Hnm as [|? y ? ys Hxy Hnm']; subst.
    inversion Hinf as [|? z ? zs Hyz Hinf']; subst.
    constructor; [|by eapply IH].
    split.
    + rewrite (remove_infeasible_tree _ _ _ Hyz).
      by rewrite (remove_nonmatching_tree _ _ _ Hxy).
    + eapply universals_removed_trans.
      * exact (remove_nonmatching_removes _ _ _ Hxy).
      * exact (remove_infeasible_removes _ _ _ Hyz).
Qed.

(** The states [process_new_state] hands to
    [state_is_valid_or_enqueue] are the disjuncts of the normal form
    of the instantiated constraint, one state each and in order, on
    the tree of the given state; the universal formulas that can no
    longer match are replaced by [true]. *)
Lemma prepared_of_disjuncts self state states :
  prepared self state = Ok states ->
  Forall2
    (fun disjunct s =>
       tree s = tree state /\ universals_removed disjunct (constraint s))
    (split_disjunction
       (convert_to_dnf
          (convert_to_nnf
             (constraint (instantiate_structural_predicates state)))))
    states.
Proof.
  unfold prepared.
  destruct (collect (map (remove_nonmatching_universal_quantifiers self) _))
    as [states1|] eqn:Hnm; simpl; [|done].
  intros Hinf.
  apply collect_Forall2 in Hnm. apply collect_Forall2 in Hinf.
  by eapply (prepared_chain self (tree state)).
Qed.

Lemma state_is_valid_or_enqueue_cases state s b s' :
  state_is_valid_or_enqueue state s = Ok (b, s') ->
  b = complete state /\
  if complete state
     || enforce_unique_trees_in_queue s
        && bool_decide (structural_hash (tree state) ∈ tree_hashes_in_queue s)
     || formula_eqb (constraint state) sc.false
  then s' = s
  else
    exists cost s1,
      (s1 = s \/ exists phase since, s1 = set_cost_phase phase since s) /\
      s' = enqueued cost state s1.
Proof.
  unfold state_is_valid_or_enqueue, bind, get, lift, ret. simpl.
  destruct (complete state) eqn:Hcomplete.
  { destruct (py_assert _); [|done]. by intros [= <- <-]. }
  destruct (if _ || _ then _ else _) as [[]|]; [|done].
  destruct (enforce_unique_trees_in_queue s && _) eqn:Hdup.
  { by intros [= <- <-]. }
  destruct (formula_eqb (constraint state) sc.false) eqn:Hfalse.
  { by intros [= <- <-]. }
  destruct (ISLaSolver_compute_cost _ s) as [[cost s1]|] eqn:Hcost; [|done].
  intros Hrun. cbn [orb].
  unfold heappush, modify in Hrun. simpl in Hrun.
  injection Hrun as <- <-. split; [done|].
  apply compute_cost_effect in Hcost.
  exists cost, s1. split; [exact Hcost|].
  unfold enqueued. simpl.
  destruct Hcost as [->|(phase & since & ->)]; reflexivity.
Qed.

Lemma push_loop (states : list SolutionState) :
  forall s valid s',
    for_each states
      (fun new_state =>
         let* ok := state_is_valid_or_enqueue new_state in
         ret (if ok then [tree new_state] else []))
      s = Ok (valid, s') ->
    concat valid = map tree (List.filter complete states) /\
    exists costs,
      length costs
      = length (pushed_states (enforce_unique_trees_in_queue s)
                  (tree_hashes_in_queue s) states) /\
      queue s'
      = queue s
        ++ zip costs
             (map (one_level_below (current_level s))
                (pushed_states (enforce_unique_trees_in_queue s)
                   (tree_hashes_in_queue s) states)).
Proof.
  induction states as [|state states IH]; intros s valid s'; simpl.
  - intros [= <- <-]. split; [done|]. exists []. by rewrite app_nil_r.
  - unfold bind at 1. unfold bind at 1.
    destruct (state_is_valid_or_enqueue state s) as [[ok s1]|] eqn:Hok; [|done].
    unfold ret at 1. unfold bind at 1.
    destruct (for_each states _ s1) as [[valid' s2]|] eqn:Hrest; [|done].
    unfold ret. intros [= <- <-].
    destruct (IH _ _ _ Hrest) as (Hy & costs & Hlen & Hq).
    apply state_is_valid_or_enqueue_cases in Hok as [-> Hcase].
    destruct (complete state) eqn:Hcomplete; simpl in *.
    { subst s1. split; [by rewrite Hy|]. by exists costs. }
    destruct (enforce_unique_trees_in_queue s && _
              || formula_eqb (constraint state) sc.false) eqn:Hdrop.
    { subst s1. split; [done|]. by exists costs. }
    destruct Hcase as (cost & s0 & Hs0 & ->).
    assert (queue s0 = queue s /\ current_level s0 = current_level s
            /\ tree_hashes_in_queue s0 = tree_hashes_in_queue s
            /\ enforce_unique_trees_in_queue s0
               = enforce_unique_trees_in_queue s)
      as (Hq0 & Hl0 & Hh0 & He0)
      by (by destruct Hs0 as [->|(phase & since & ->)]).
    unfold enqueued in Hq, Hlen. simpl in Hq, Hlen.
    rewrite Hq0, Hl0, Hh0, He0 in Hq. rewrite Hh0, He0 in Hlen.
    split; [done|].
    exists (cost :: costs). split; [simpl; by rewrite Hlen|].
    rewrite Hq, <- app_assoc. done.
Qed.

Lemma process_new_state_pushes new_state s trees s' :
  process_new_state new_state s = Ok (trees, s') ->
  exists states costs,
    prepared s new_state = Ok states /\
    trees = map tree (List.filter complete states) /\
    length costs
    = length (pushed_states (enforce_unique_trees_in_queue s)
                (tree_hashes_in_queue s) states) /\
    queue s'
    = queue s
      ++ zip costs
           (map (one_level_below (current_level s))
              (pushed_states (enforce_unique_trees_in_queue s)
                 (tree_hashes_in_queue s) states)).
Proof.
  unfold process_new_state, bind, get, lift. simpl.
  destruct (collect (map (remove_nonmatching_universal_quantifiers s) _))
    as [states1|] eqn:Hnm; [|done].
  destruct (collect (map (remove_infeasible_universal_quantifiers s) states1))
    as [states2|] eqn:Hinf; simpl; [|done].
  destruct (for_each states2 _ s) as [[valid s1]|] eqn:Hloop; [|done].
  unfold ret. intros [= <- <-].
  destruct (push_loop _ _ _ _ Hloop) as (Hy & costs & Hlen & Hq).
  exists states2, costs. split; [|done].
  unfold prepared. rewrite Hnm. simpl. exact Hinf.
Qed.

(** C3.  [establish_invariant] converts the constraint of a state to
    negation normal form and then to disjunctive normal form, and
    emits one state per disjunct, on the tree of the state; each
    disjunct is a conjunction without a disjunction at its top, and,
    under any reading of the atoms that takes a negated SMT atom for
    the opposite of the atom, the constraint holds exactly if one of
    the emitted constraints does.  What is pushed is emitted this way.
    The queue [__init__] leaves holds the states emitted for the
    initial state.  [process_new_state] emits one state per disjunct
    of the successor's instantiated constraint, in which universal
    formulas that cannot match any more are replaced by [true]; of
    these states it pushes, in order and one level below the current
    one, those that are not complete, whose constraint is not [false]
    and, with [enforce_unique_trees_in_queue], whose tree is not on
    record.  So the main loop keeps every queued constraint a single
    disjunct, and no queued state, hence no popped one, has a
    disjunction as its constraint. *)
Theorem queue_holds_emitted_disjuncts :
  (forall state,
     map constraint (establish_invariant state)
     = split_disjunction
         (convert_to_dnf (convert_to_nnf (constraint state))) /\
     Forall (fun s => tree s = tree state /\
                      single_disjunct (constraint s) = true)
       (establish_invariant state)) /\
  (forall I,
     reads_smt I ->
     forall env state,
       holds I env (constraint state)
       = existsb (fun s => holds I env (constraint s))
           (establish_invariant state)) /\
  (forall grammar formula free smt ins enforce precompute debug asserts
          settings timeout self,
     ISLaSolver_init grammar formula free smt ins enforce precompute debug
       asserts settings timeout = Some (Ok self) ->
     queue_of_disjuncts self /\
     exists c,
       map snd (queue self)
       = establish_invariant
           (new_state
              (substitute_expressions
                 (ensure_unique_bound_variables (given_formula formula))
                 [(KeyConstant c, initial_tree_for c)])
              (initial_tree_for c))) /\
  (forall new_state s trees s',
     process_new_state new_state s = Ok (trees, s') ->
     exists states costs,
       Forall2
         (fun disjunct state =>
            tree state = tree new_state /\
            universals_removed disjunct (constraint state))
         (split_disjunction
            (convert_to_dnf
               (convert_to_nnf
                  (constraint (instantiate_structural_predicates new_state)))))
         states /\
       length costs
       = length (pushed_states (enforce_unique_trees_in_queue s)
                   (tree_hashes_in_queue s) states) /\
       queue s'
       = queue s
         ++ zip costs
              (map (one_level_below (current_level s))
                 (pushed_states (enforce_unique_trees_in_queue s)
                    (tree_hashes_in_queue s) states))) /\
  (forall rounds self trees self',
     queue_of_disjuncts self ->
     solve rounds self = Ok (trees, self') ->
     queue_of_disjuncts self') /\
  (forall self cost state,
     queue_of_disjuncts self -> (cost, state) ∈ queue self ->
     isinstance_DisjunctiveFormula (constraint state) = false).
Proof.
  split; [|split; [|split; [|split; [|split]]]].
  - intros state. split.
    + unfold establish_invariant. rewrite map_map. simpl. apply map_id.
    + apply Forall_forall. intros s Hs. split.
      * by apply establish_invariant_tree.
      * pose proof (establish_invariant_disjuncts state) as Hall.
        by eapply Forall_forall in Hall.
  - intros I Hreads env state. by apply holds_establish_invariant.
  - intros grammar formula free smt ins enforce precompute debug asserts
      settings timeout self Hinit. split.
    + by eapply ISLaSolver_init_disjuncts.
    + apply ISLaSolver_init_ok in Hinit as (c & _ & _ & _ & Hq & _).
      by exists c.
  - intros new_state s trees s' Hrun.
    apply process_new_state_pushes in Hrun
      as (states & costs & Hprepared & _ & Hlen & Hq).
    exists states, costs. split; [|done].
    by apply prepared_of_disjuncts in Hprepared.
  - intros rounds self trees self' Hself Hrun.
    eapply (solve_keeps queue_of_disjuncts
              (fun s => single_disjunct (constraint s) = true)
              queue_of_disjuncts_invariant);
      [|exact Hself|exact Hrun].
    intros s state states. apply prepared_disjuncts.
  - intros self cost state Hself Hin.
    apply single_disjunct_not_disjunctive.
    unfold queue_of_disjuncts in Hself.
    by eapply Forall_forall in Hself; [|exact Hin].
Qed.
End EmittedDisjuncts.

(** The reading of the scenario takes a negated atom for the opposite
    of the atom. *)
Lemma word_reading_reads_smt : reads_smt word_reading.
Proof. split; [by intros env []|done]. Qed.

(** The disjunctive scenario, without [enforce_unique_trees_in_queue].
    The constructor queues the universal formula; the first round of
    the main loop binds its variable to the root, which gives a
    successor whose normal form has two disjuncts, one for each word,
    and [process_new_state] pushes one state for each: the queue then
    holds two states on the tree of the successor. *)
Lemma queue_holds_emitted_disjuncts_either :
  exists self entry successor popped_self pushed_self trees self',
    either_solver false = Some (Ok self) /\
    @solve TinyWorld.language TinyWorld.queries TinyWorld.runtime
      TinyWorld.bridge 1 self = Ok (trees, self') /\
    queue self = [entry] /\
    popped_self = @popped TinyWorld.runtime entry [] self /\
    @match_all_universal_formulas TinyWorld.language popped_self (snd entry)
    = Ok (Some [successor]) /\
    @process_new_state TinyWorld.language TinyWorld.queries TinyWorld.runtime
      successor popped_self = Ok ([], pushed_self) /\
    queue pushed_self = queue self' /\
    length (split_disjunction
              (convert_to_dnf (convert_to_nnf (constraint successor)))) = 2%nat /\
    length (queue self') = 2%nat /\
    Forall (fun queued => tree (snd queued) = tree successor) (queue self') /\
    holds word_reading (fun _ => "b") (constraint successor) = true /\
    queue_of_disjuncts self /\
    queue_of_disjuncts self' /\
    holds word_reading (fun _ => "b") (constraint successor)
    = existsb (fun s => holds word_reading (fun _ => "b") (constraint s))
        (establish_invariant successor) /\
    exists states costs,
      Forall2
        (fun disjunct state =>
           tree state = tree successor /\
           universals_removed disjunct (constraint state))
        (split_disjunction
           (convert_to_dnf
              (convert_to_nnf
                 (constraint
                    (@instantiate_structural_predicates TinyWorld.language
                       successor)))))
        states /\
      length costs
      = length (@pushed_states TinyWorld.runtime
                  (enforce_unique_trees_in_queue popped_self)
                  (tree_hashes_in_queue popped_self) states) /\
      queue pushed_self
      = queue popped_self
        ++ zip costs
             (map (one_level_below (current_level popped_self))
                (@pushed_states TinyWorld.runtime
                   (enforce_unique_trees_in_queue popped_self)
                   (tree_hashes_in_queue popped_self) states)).
Proof.
  eexists _, _, _, _, _, _, _.
  match goal with
  | |- ?A /\ ?B /\ ?C /\ ?D /\ ?E /\ ?F /\ _ =>
      assert A as Hinit by (vm_compute; reflexivity);
      assert B as Hrun by (vm_compute; reflexivity);
      assert C as Hqueue by (vm_compute; reflexivity);
      assert D as Hpop by reflexivity;
      assert E as Hmatch by (vm_compute; reflexivity);
      assert F as Hpush by (vm_compute; reflexivity)
  end.
  destruct (@queue_holds_emitted_disjuncts TinyWorld.language
              TinyWorld.queries TinyWorld.runtime TinyWorld.bridge
              TinyWorld.probe) as (_ & Hmeaning & Hi & Hsucc & Hs & _).
  destruct (Hi _ _ _ _ _ _ _ _ _ _ _ _ Hinit) as [Hself _].
  split; [exact Hinit|]. split; [exact Hrun|]. split; [exact Hqueue|].
  split; [exact Hpop|]. split; [exact Hmatch|]. split; [exact Hpush|].
  split; [vm_compute; reflexivity|]. split; [vm_compute; reflexivity|].
  split; [vm_compute; reflexivity|].
  split; [repeat constructor|]. split; [vm_compute; reflexivity|].
  split; [exact Hself|]. split; [exact (Hs _ _ _ _ Hself Hrun)|].
  split; [exact (Hmeaning _ word_reading_reads_smt _ _)|].
  exact (Hsucc _ _ _ _ Hpush).
Defined.
